(** * mapper: the crawling engine of the sitemap generator

    A shallow embedding of [pkg/crawler] (validator.go, page.go, queue.go,
    crawler.go, config.go) together with the properties of its frontier,
    its fetch pipeline and its worker pool, of the result loop of
    [cmd/generate.go], and of [pkg/sitemap] (the entries and their
    validation, the builder, and [Compare]).

    Go strings are byte strings: [string]. Go's [int] is a 64-bit signed
    integer: [Z] with the wrap-around written out; a float64 is a binary64
    [float]. The [seen] map of the queue only ever stores [true], so it is a
    finite set of strings. *)

From Stdlib Require Import ZArith Lia Ascii String List PrimFloat.
From stdpp Require Import base gmap sets list strings sorting.

#[local] Set Warnings "-clear-no-such-hyp".

Open Scope string_scope.

(** ** Go's [strings] package, the functions the crawler calls *)

Module strings.

(** [s[i:j]] *)
Definition slice (s : string) (i j : nat) : string :=
  String.substring i (j - i) s.

(** [strings.HasPrefix]: [len(s) >= len(prefix) && s[:len(prefix)] == prefix] *)
Definition HasPrefix (s pre : string) : bool :=
  (String.length pre <=? String.length s)%nat
  && String.eqb (slice s 0 (String.length pre)) pre.

(** [strings.HasSuffix]: [len(s) >= len(suffix) && s[len(s)-len(suffix):] == suffix] *)
Definition HasSuffix (s suf : string) : bool :=
  (String.length suf <=? String.length s)%nat
  && String.eqb (slice s (String.length s - String.length suf) (String.length s)) suf.

(** [strings.TrimSuffix] *)
Definition TrimSuffix (s suf : string) : string :=
  if HasSuffix s suf then slice s 0 (String.length s - String.length suf) else s.

(** [strings.Index] for a one-byte separator: the position of the first
    occurrence, [None] for Go's [-1]. *)
Fixpoint IndexByte (s : string) (c : ascii) : option nat :=
  match s with
  | EmptyString => None
  | String a s' =>
      if Ascii.eqb a c then Some 0%nat
      else match IndexByte s' c with
           | Some i => Some (S i)
           | None => None
           end
  end.

(** [strings.LastIndex] for a one-byte separator. *)
Fixpoint LastIndexByte (s : string) (c : ascii) : option nat :=
  match s with
  | EmptyString => None
  | String a s' =>
      match LastIndexByte s' c with
      | Some i => Some (S i)
      | None => if Ascii.eqb a c then Some 0%nat else None
      end
  end.

(** [strings.Cut] for a one-byte separator: before, after, found. *)
Definition Cut (s : string) (c : ascii) : string * string * bool :=
  match IndexByte s c with
  | Some i => (slice s 0 i, slice s (S i) (String.length s), true)
  | None => (s, "", false)
  end.

Definition lower_byte (a : ascii) : ascii :=
  let n := nat_of_ascii a in
  if (65 <=? n)%nat && (n <=? 90)%nat then ascii_of_nat (n + 32) else a.

(** [strings.ToLower] on the ASCII range (bytes above 127 are kept). *)
Fixpoint ToLower (s : string) : string :=
  match s with
  | EmptyString => EmptyString
  | String a s' => String (lower_byte a) (ToLower s')
  end.

(** [strings.Contains] for a one-byte needle. *)
Definition ContainsByte (s : string) (c : ascii) : bool :=
  match IndexByte s c with Some _ => true | None => false end.

End strings.

(** ** validator.go: [NormalizePath] *)

Definition NormalizePath (path : string) : string :=
  let path :=
    if negb (String.eqb path "/") && strings.HasSuffix path "/"
    then strings.TrimSuffix path "/" else path in
  let path :=
    if negb (strings.HasPrefix path "/") then "/" ++ path else path in
  path.

(** ** Go's [net/url], the part the crawler uses

    A [URL] is the parsed form of a reference. The model covers references
    written with unreserved characters and the delimiters [: / ? #]: for
    these [setPath] stores the path verbatim and [EscapedPath] returns it
    unchanged, so percent-escaping, userinfo and the host syntax checks of
    the library do not appear. *)

Module url.

Record URL := mkURL {
  Scheme : string;
  Opaque : string;
  Host : string;
  Path : string;
  OmitHost : bool;
  ForceQuery : bool;
  RawQuery : string;
  Fragment : string
}.

Definition empty : URL := mkURL "" "" "" "" false false "" "".

Definition is_alpha (c : ascii) : bool :=
  let n := nat_of_ascii c in
  ((97 <=? n)%nat && (n <=? 122)%nat) || ((65 <=? n)%nat && (n <=? 90)%nat).

Definition is_scheme_extra (c : ascii) : bool :=
  let n := nat_of_ascii c in
  ((48 <=? n)%nat && (n <=? 57)%nat)
  || Ascii.eqb c "+" || Ascii.eqb c "-" || Ascii.eqb c ".".

(** [getScheme]: [None] is the error "missing protocol scheme". *)
Fixpoint getScheme_from (rawURL : string) (i : nat) (s : string)
  : option (string * string) :=
  match s with
  | EmptyString => Some ("", rawURL)
  | String c s' =>
      if is_alpha c then getScheme_from rawURL (S i) s'
      else if is_scheme_extra c then
        if (i =? 0)%nat then Some ("", rawURL)
        else getScheme_from rawURL (S i) s'
      else if Ascii.eqb c ":" then
        if (i =? 0)%nat then None
        else Some (strings.slice rawURL 0 i, s')
      else Some ("", rawURL)
  end.

Definition getScheme (rawURL : string) : option (string * string) :=
  getScheme_from rawURL 0 rawURL.

Fixpoint count_byte (s : string) (c : ascii) : nat :=
  match s with
  | EmptyString => 0
  | String a s' => (if Ascii.eqb a c then 1 else 0) + count_byte s' c
  end.

(** [parse(rawURL, viaRequest = false)] *)
Definition parse (rawURL : string) : option URL :=
  if String.eqb rawURL "*" then Some (mkURL "" "" "" "*" false false "" "")
  else
    match getScheme rawURL with
    | None => None
    | Some (scheme, rest) =>
        let scheme := strings.ToLower scheme in
        let '(rest, force, query) :=
          if strings.HasSuffix rest "?" && (count_byte rest "?" =? 1)%nat
          then (strings.slice rest 0 (String.length rest - 1), true, "")
          else let '(before, after, _) := strings.Cut rest "?" in
               (before, false, after) in
        let hier :=
          if (negb (String.eqb scheme "") || negb (strings.HasPrefix rest "///"))
             && strings.HasPrefix rest "//"
          then
            let authority := strings.slice rest 2 (String.length rest) in
            match strings.IndexByte authority "/" with
            | Some i =>
                mkURL scheme "" (strings.slice authority 0 i)
                  (strings.slice authority i (String.length authority))
                  false force query ""
            | None => mkURL scheme "" authority "" false force query ""
            end
          else if negb (String.eqb scheme "") && strings.HasPrefix rest "/"
          then mkURL scheme "" "" rest true force query ""
          else mkURL scheme "" "" rest false force query "" in
        if negb (strings.HasPrefix rest "/") then
          if negb (String.eqb scheme "")
          then Some (mkURL scheme rest "" "" false force query "")
          else
            let '(segment, _, _) := strings.Cut rest "/" in
            if strings.ContainsByte segment ":" then None else Some hier
        else Some hier
    end.

(** [url.Parse]: the fragment is cut off first. *)
Definition Parse (rawURL : string) : option URL :=
  let '(u, frag, _) := strings.Cut rawURL "#" in
  match parse u with
  | None => None
  | Some r =>
      Some (mkURL (Scheme r) (Opaque r) (Host r) (Path r) (OmitHost r)
              (ForceQuery r) (RawQuery r) frag)
  end.

Definition IsAbs (u : URL) : bool := negb (String.eqb (Scheme u) "").

(** [u.String()] *)
Definition String (u : URL) : string :=
  let head := if String.eqb (Scheme u) "" then "" else Scheme u ++ ":" in
  let body :=
    if negb (String.eqb (Opaque u) "") then head ++ Opaque u
    else
      let buf :=
        if negb (String.eqb (Scheme u) "") || negb (String.eqb (Host u) "")
        then
          if OmitHost u && String.eqb (Host u) "" then head
          else
            (if negb (String.eqb (Host u) "") || negb (String.eqb (Path u) "")
             then head ++ "//" else head) ++ Host u
        else head in
      let path := Path u in
      let buf :=
        if negb (String.eqb path "") && negb (strings.HasPrefix path "/")
           && negb (String.eqb (Host u) "")
        then buf ++ "/" else buf in
      let buf :=
        if String.eqb buf "" then
          let '(segment, _, _) := strings.Cut path "/" in
          if strings.ContainsByte segment ":" then buf ++ "./" else buf
        else buf in
      buf ++ path in
  let body :=
    if ForceQuery u || negb (String.eqb (RawQuery u) "")
    then body ++ "?" ++ RawQuery u else body in
  if negb (String.eqb (Fragment u) "") then body ++ "#" ++ Fragment u else body.

(** The loop of [resolvePath]: one iteration per path element. The
    fuel is the number of elements, at most [len(full) + 1]. *)
Fixpoint resolve_elems (fuel : nat) (remaining dst : string) (first : bool)
  : string * string :=
  match fuel with
  | O => (dst, "")
  | S fuel =>
      let '(elem, remaining, found) := strings.Cut remaining "/" in
      let '(dst, first) :=
        if String.eqb elem "." then (dst, false)
        else if String.eqb elem ".." then
          let str := strings.slice dst 1 (String.length dst) in
          match strings.LastIndexByte str "/" with
          | None => ("/", true)
          | Some index => ("/" ++ strings.slice str 0 index, first)
          end
        else ((if first then dst else dst ++ "/") ++ elem, false) in
      if found then
        match fuel with
        | O => (dst, elem)
        | S _ => resolve_elems fuel remaining dst first
        end
      else (dst, elem)
  end.

(** [resolvePath(base, ref)] *)
Definition resolvePath (base ref : string) : string :=
  let full :=
    if String.eqb ref "" then base
    else if negb (strings.HasPrefix ref "/") then
      match strings.LastIndexByte base "/" with
      | Some i => strings.slice base 0 (S i) ++ ref
      | None => ref
      end
    else ref in
  if String.eqb full "" then ""
  else
    let '(dst, elem) := resolve_elems (S (String.length full)) full "/" true in
    let dst :=
      if String.eqb elem "." || String.eqb elem ".." then dst ++ "/" else dst in
    if (1 <? String.length dst)%nat && String.eqb (strings.slice dst 1 2) "/"
    then strings.slice dst 1 (String.length dst) else dst.

(** [u.ResolveReference(ref)] *)
Definition ResolveReference (u ref : URL) : URL :=
  let scheme := if String.eqb (Scheme ref) "" then Scheme u else Scheme ref in
  if negb (String.eqb (Scheme ref) "") || negb (String.eqb (Host ref) "") then
    mkURL scheme (Opaque ref) (Host ref) (resolvePath (Path ref) "")
      (OmitHost ref) (ForceQuery ref) (RawQuery ref) (Fragment ref)
  else if negb (String.eqb (Opaque ref) "") then
    mkURL scheme (Opaque ref) "" "" (OmitHost ref) (ForceQuery ref)
      (RawQuery ref) (Fragment ref)
  else
    let inherit :=
      String.eqb (Path ref) "" && negb (ForceQuery ref)
      && String.eqb (RawQuery ref) "" in
    let query := if inherit then RawQuery u else RawQuery ref in
    let frag :=
      if inherit && String.eqb (Fragment ref) "" then Fragment u
      else Fragment ref in
    if String.eqb (Path ref) "" && negb (String.eqb (Opaque u) "") then
      mkURL scheme (Opaque u) "" "" (OmitHost ref) (ForceQuery ref) query frag
    else
      mkURL scheme (Opaque ref) (Host u) (resolvePath (Path u) (Path ref))
        (OmitHost ref) (ForceQuery ref) query frag.

End url.

(** ** validator.go *)

(** A compiled [*regexp.Regexp], known by its [MatchString]. *)
Record Regexp := mkRegexp { MatchString : string -> bool }.

Record URLValidator := mkURLValidator {
baseURL : url.URL;
excludePatterns : list Regexp;
includePatterns : list Regexp
}.

Definition nonContentExts : list string :=
  [ ".jpg"; ".jpeg"; ".png"; ".gif"; ".ico"; ".css"; ".js";
    ".pdf"; ".doc"; ".docx"; ".ppt"; ".pptx"; ".xls"; ".xlsx";
    ".zip"; ".tar"; ".gz"; ".rar"; ".exe"; ".mp3"; ".mp4";
    ".avi"; ".mov"; ".wmv"; ".flv"; ".svg"; ".woff"; ".woff2";
    ".ttf"; ".eot" ].

Definition isNonContentFile (path : string) : bool :=
  let path := strings.ToLower path in
  existsb (fun ext => strings.HasSuffix path ext) nonContentExts.

(** [IsValid]; a queue item is never a nil pointer, so the nil test of the
    source does not appear. *)
Definition IsValid (v : URLValidator) (u : url.URL) : bool :=
  if String.eqb (url.String u) "" then false
  else if negb (String.eqb (url.Scheme u) "http")
          && negb (String.eqb (url.Scheme u) "https") then false
  else if negb (String.eqb (url.Host u) (url.Host (baseURL v))) then false
  else if isNonContentFile (url.Path u) then false
  else
    let urlStr := url.String u in
    if existsb (fun pattern => MatchString pattern urlStr) (excludePatterns v)
    then false
    else if (0 <? length (includePatterns v))%nat then
      existsb (fun pattern => MatchString pattern urlStr) (includePatterns v)
    else true.

(** [NewURLValidator]; [Compile] is [regexp.Compile], [None] its error. *)
Fixpoint compile_all (Compile : string -> option Regexp) (patterns : list string)
  : option (list Regexp) :=
  match patterns with
  | [] => Some []
  | pattern :: rest =>
      match Compile pattern with
      | None => None
      | Some re =>
          match compile_all Compile rest with
          | None => None
          | Some res => Some (re :: res)
          end
      end
  end.

Definition NewURLValidator (Compile : string -> option Regexp)
    (base : url.URL) (exclude include : list string) : option URLValidator :=
  match compile_all Compile exclude with
  | None => None
  | Some ex =>
      match compile_all Compile include with
      | None => None
      | Some inc => Some (mkURLValidator base ex inc)
      end
  end.

(** ** The world outside the package *)

(** [time.Time] as an instant counted from Go's zero time (January 1 of
    year 1, UTC); [IsZero] holds of [0] only. *)
Definition Time := Z.
Definition IsZero (t : Time) : bool := (t =? 0)%Z.

(** The tree [html.Parse] returns. *)
Inductive NodeType :=
  ErrorNode | TextNode | DocumentNode | ElementNode | CommentNode | DoctypeNode.

Record Attribute := mkAttr { Key : string; Val : string }.

#[local] Unset Elimination Schemes.
Inductive Node :=
  mkNode (Type_ : NodeType) (Data : string) (Attr : list Attribute)
         (children : list Node).
#[local] Set Elimination Schemes.

(** What [client.Do] gives for a GET: a request that could not be built, no
    response (network failure, timeout, redirect limit), or the final
    response with its status, its [Last-Modified] header ("" when absent)
    and what [html.Parse] makes of its body ([None]: the body cannot be
    read). *)
Inductive Exchange :=
| BadRequest
| NoResponse
| Response (StatusCode : Z) (LastModifiedHeader : string) (Body : option Node).

(** What the package takes from outside: the HTTP client with the site
    behind it, [regexp.Compile], [time.Parse] for the layout [time.RFC1123]
    (which depends on the time zones the machine knows), and the clock
    ([time.Now] and the [time.Since] of a fetch; no property below depends
    on their values). *)
Record Env := mkEnv {
Do : string -> Exchange;
Compile : string -> option Regexp;
time_Parse_RFC1123 : string -> option Time;
time_Now : Time;
time_Since : Z
}.

(** ** page.go *)

Inductive error :=
| ErrCreateRequest
| ErrFetchPage
| ErrStatusCode (code : Z)
| ErrParseHTML.

Module Page.
Record t := mk {
URL : url.URL;
Depth : Z;
LastModified : Time;
Links : list url.URL;
Error : option error
}.
End Page.

Definition NewPage (pageURL : url.URL) (depth : Z) : Page.t :=
  Page.mk pageURL depth 0%Z [] None.

Definition normalizeURL (p : Page.t) (rawURL : string) : option url.URL :=
  let rawURL :=
    match strings.IndexByte rawURL "#" with
    | Some idx => strings.slice rawURL 0 idx
    | None => rawURL
    end in
  if String.eqb rawURL "" || strings.HasPrefix rawURL "javascript:" then None
  else
    match url.Parse rawURL with
    | None => None
    | Some parsedURL =>
        let parsedURL :=
          if negb (url.IsAbs parsedURL)
          then url.ResolveReference (Page.URL p) parsedURL
          else parsedURL in
        let parsedURL :=
          if String.eqb (url.Scheme parsedURL) ""
          then url.mkURL "https" (url.Opaque parsedURL) (url.Host parsedURL)
                 (url.Path parsedURL) (url.OmitHost parsedURL)
                 (url.ForceQuery parsedURL) (url.RawQuery parsedURL)
                 (url.Fragment parsedURL)
          else parsedURL in
        Some parsedURL
    end.

(** The loop of [uniqueURLs]. *)
Fixpoint uniqueURLs_from (urls : list url.URL) (seen : gset string)
    (unique : list url.URL) : list url.URL :=
  match urls with
  | [] => unique
  | u :: rest =>
      let key := url.String u in
      if bool_decide (key ∈ seen) then uniqueURLs_from rest seen unique
      else uniqueURLs_from rest ({[key]} ∪ seen) (unique ++ [u])
  end.

Definition uniqueURLs (urls : list url.URL) : list url.URL :=
  uniqueURLs_from urls ∅ [].

(** The [href] of an [<a>]: the first attribute with that key. *)
Fixpoint first_href (attrs : list Attribute) : option string :=
  match attrs with
  | [] => None
  | attr :: rest =>
      if String.eqb (Key attr) "href" then Some (Val attr) else first_href rest
  end.

(** The [rel] and [href] of a [<link>]: the last attribute of each key. *)
Definition rel_href (attrs : list Attribute) : string * string :=
  fold_left
    (fun '(rel, href) attr =>
       if String.eqb (Key attr) "rel" then (Val attr, href)
       else if String.eqb (Key attr) "href" then (rel, Val attr)
       else (rel, href))
    attrs ("", "").

Definition append_link (links : list url.URL) (link : option url.URL)
  : list url.URL :=
  match link with
  | Some l => links ++ [l]
  | None => links
  end.

(** The closure [traverse] of [parseHTML], threading [links]. *)
Fixpoint traverse (p : Page.t) (n : Node) (links : list url.URL)
  : list url.URL :=
  match n with
  | mkNode ty data attrs children =>
      let links :=
        match ty with
        | ElementNode =>
            let links :=
              if String.eqb data "a" then
                match first_href attrs with
                | Some val => append_link links (normalizeURL p val)
                | None => links
                end
              else links in
            if String.eqb data "link" then
              let '(rel, href) := rel_href attrs in
              if (String.eqb rel "canonical" || String.eqb rel "alternate")
                 && negb (String.eqb href "")
              then append_link links (normalizeURL p href)
              else links
            else links
        | _ => links
        end in
      fold_left (fun acc c => traverse p c acc) children links
  end.

Definition parseHTML (p : Page.t) (body : option Node)
  : Page.t * option error :=
  match body with
  | None => (p, Some ErrParseHTML)
  | Some doc =>
      (Page.mk (Page.URL p) (Page.Depth p) (Page.LastModified p)
         (uniqueURLs (traverse p doc [])) (Page.Error p), None)
  end.

Definition StatusOK : Z := 200.

Definition Process (env : Env) (p : Page.t) : Page.t * option error :=
  match Do env (url.String (Page.URL p)) with
  | BadRequest => (p, Some ErrCreateRequest)
  | NoResponse => (p, Some ErrFetchPage)
  | Response status lastMod body =>
      if negb (status =? StatusOK)%Z then (p, Some (ErrStatusCode status))
      else
        let lastModified :=
          if negb (String.eqb lastMod "") then
            match time_Parse_RFC1123 env lastMod with
            | Some t => t
            | None => Page.LastModified p
            end
          else Page.LastModified p in
        let lastModified :=
          if IsZero lastModified then time_Now env else lastModified in
        parseHTML
          (Page.mk (Page.URL p) (Page.Depth p) lastModified (Page.Links p)
             (Page.Error p))
          body
  end.

(** ** config.go *)

Module Config.
Record t := mk {
BaseURL : option url.URL;
MaxDepth : Z;
MaxConcurrent : Z;
RequestTimeout : Z;
RateLimit : Z;
UserAgent : string;
FollowRedirects : bool;
ExcludePatterns : list string;
IncludePatterns : list string
}.
End Config.

(** [time.Second], in nanoseconds. *)
Definition Second : Z := 1000000000.

(** [Validate]: [None] is Go's [nil], otherwise the message. *)
Definition Validate (c : Config.t) : option string :=
  match Config.BaseURL c with
  | None => Some "base URL is required"
  | Some _ =>
      if (Config.MaxDepth c <? 0)%Z then Some "max depth must be non-negative"
      else if (Config.MaxConcurrent c <? 1)%Z
      then Some "max concurrent must be at least 1"
      else if (Config.RequestTimeout c <? Second)%Z
      then Some "request timeout must be at least 1 second"
      else if (Config.RateLimit c <? 0)%Z
      then Some "rate limit must be non-negative"
      else if String.eqb (Config.UserAgent c) ""
      then Some "user agent is required"
      else None
  end.

(** ** queue.go *)

(** Go's [int]: 64 bits, two's complement. *)
Definition int_wrap (z : Z) : Z := ((z + 2 ^ 63) mod 2 ^ 64 - 2 ^ 63)%Z.
Definition int_add (a b : Z) : Z := int_wrap (a + b).

Module QueueItem.
Record t := mk { URL : url.URL; Depth : Z }.
End QueueItem.

Record URLQueue := mkURLQueue {
queue : list QueueItem.t;
seen : gset string;
baseHost : string
}.

Definition NewURLQueue (base : url.URL) : URLQueue :=
  mkURLQueue [] ∅ (url.Host base).

(** One iteration of the loop of [Push]. *)
Definition push_one (depth : Z) (q : URLQueue) (u : url.URL) : URLQueue :=
  if bool_decide (url.String u ∈ seen q) then q
  else if negb (String.eqb (url.Host u) (baseHost q)) then q
  else mkURLQueue (queue q ++ [QueueItem.mk u depth])
         ({[url.String u]} ∪ seen q) (baseHost q).

Definition Push (urls : list url.URL) (depth : Z) (q : URLQueue) : URLQueue :=
  fold_left (push_one depth) urls q.

Definition Pop (q : URLQueue) : option QueueItem.t * URLQueue :=
  match queue q with
  | [] => (None, q)
  | item :: rest => (Some item, mkURLQueue rest (seen q) (baseHost q))
  end.

Definition Len (q : URLQueue) : nat := length (queue q).

Definition HasSeen (q : URLQueue) (u : url.URL) : bool :=
  bool_decide (url.String u ∈ seen q).

Definition SeenCount (q : URLQueue) : nat := size (seen q).

(** ** crawler.go *)

Module Result.
Record t := mk {
URL : string;
LastMod : Time;
StatusCode : Z;
Error : option error;
Depth : Z;
TimeToFetch : Z
}.
End Result.

(** Where a worker goroutine stands in the loop of [worker]. *)
Inductive Worker :=
| Idle
| Fetching (item : QueueItem.t)
| Emitted (item : QueueItem.t) (page : Page.t) (err : option error)
| Stopped.

(** The crawler with its goroutines: the fields of [Crawler] that change,
    the program point of every worker, and whether [ctx] is cancelled. The
    [results] channel is unbuffered and its consumer keeps receiving; what
    is sent on it is an [Event] of the run. *)
Record Crawler := mkCrawler {
config : Config.t;
q : URLQueue;
validator : URLValidator;
processed : Z;
errors : Z;
workers : list Worker;
ctx_done : bool
}.

Definition NewCrawler (env : Env) (cfg : Config.t) : option Crawler :=
  match Validate cfg with
  | Some _ => None
  | None =>
      match Config.BaseURL cfg with
      | None => None
      | Some base =>
          match NewURLValidator (Compile env) base
                  (Config.ExcludePatterns cfg) (Config.IncludePatterns cfg) with
          | None => None
          | Some v => Some (mkCrawler cfg (NewURLQueue base) v 0%Z 0%Z [] false)
          end
      end
  end.

(** [Start]: the seed is pushed at depth 0 and [MaxConcurrent] workers are
    started. *)
Definition Start (c : Crawler) : Crawler :=
  let seed :=
    match Config.BaseURL (config c) with
    | Some base => [base]
    | None => []
    end in
  mkCrawler (config c) (Push seed 0 (q c)) (validator c) (processed c)
    (errors c)
    (replicate (Z.to_nat (Config.MaxConcurrent (config c))) Idle)
    (ctx_done c).

(** What a run shows: the cancellation of [ctx], a worker returning, an item
    dropped after [Pop], a request issued, a Result sent on [results], the
    end of an iteration. *)
Inductive Event :=
| EvCancel
| EvReturn (w : nat)
| EvSkip (w : nat) (item : QueueItem.t)
| EvFetch (w : nat) (item : QueueItem.t)
| EvResult (w : nat) (item : QueueItem.t) (r : Result.t)
| EvNext (w : nat) (item : QueueItem.t).

Definition set_worker (w : nat) (st : Worker) (c : Crawler) : Crawler :=
  mkCrawler (config c) (q c) (validator c) (processed c) (errors c)
    (<[w := st]> (workers c)) (ctx_done c).

Definition set_q (q' : URLQueue) (c : Crawler) : Crawler :=
  mkCrawler (config c) q' (validator c) (processed c) (errors c)
    (workers c) (ctx_done c).

Definition count_stats (err : option error) (c : Crawler) : Crawler :=
  mkCrawler (config c) (q c) (validator c) (int_add (processed c) 1)
    (match err with Some _ => int_add (errors c) 1 | None => errors c end)
    (workers c) (ctx_done c).

Definition cancel (c : Crawler) : Crawler :=
  mkCrawler (config c) (q c) (validator c) (processed c) (errors c)
    (workers c) true.

(** What worker [w] does next. From [Idle]: the [select] on [ctx.Done], the
    [Pop] and the two tests of the item. From [Fetching]: [page.Process],
    the statistics and the send on [results]. From [Emitted]: the [Push] of
    the links when the page was processed. *)
Definition worker_step (env : Env) (w : nat) (c : Crawler)
  : option (Event * Crawler) :=
  match workers c !! w with
  | None | Some Stopped => None
  | Some Idle =>
      if ctx_done c then Some (EvReturn w, set_worker w Stopped c)
      else
        match Pop (q c) with
        | (None, _) => Some (EvReturn w, set_worker w Stopped c)
        | (Some item, q') =>
            if negb (IsValid (validator c) (QueueItem.URL item))
            then Some (EvSkip w item, set_q q' c)
            else if (Config.MaxDepth (config c) <? QueueItem.Depth item)%Z
            then Some (EvSkip w item, set_q q' c)
            else Some (EvFetch w item, set_worker w (Fetching item) (set_q q' c))
        end
  | Some (Fetching item) =>
      let '(page, err) :=
        Process env (NewPage (QueueItem.URL item) (QueueItem.Depth item)) in
      Some (EvResult w item
              (Result.mk (url.String (QueueItem.URL item))
                 (Page.LastModified page) StatusOK err (QueueItem.Depth item)
                 (time_Since env)),
            set_worker w (Emitted item page err) (count_stats err c))
  | Some (Emitted item page err) =>
      let c :=
        match err with
        | None =>
            set_q (Push (Page.Links page) (int_add (QueueItem.Depth item) 1)
                     (q c)) c
        | Some _ => c
        end in
      Some (EvNext w item, set_worker w Idle c)
  end.

Inductive step (env : Env) : Crawler -> Event -> Crawler -> Prop :=
| step_worker w c ev c' :
    worker_step env w c = Some (ev, c') -> step env c ev c'
| step_cancel c :
    ctx_done c = false -> step env c EvCancel (cancel c).

(** A run: the events in the order they happen. *)
Inductive run (env : Env) (c0 : Crawler) : list Event -> Crawler -> Prop :=
| run_nil : run env c0 [] c0
| run_snoc tr c ev c' :
    run env c0 tr c -> step env c ev c' -> run env c0 (tr ++ [ev]) c'.

(** A schedule names the worker that moves next, [None] for the
    cancellation of [ctx]; [exec] follows it as far as it can be followed. *)
Fixpoint exec (env : Env) (sched : list (option nat)) (c : Crawler)
  : list Event * Crawler :=
  match sched with
  | [] => ([], c)
  | None :: rest =>
      if ctx_done c then exec env rest c
      else let '(tr, c') := exec env rest (cancel c) in (EvCancel :: tr, c')
  | Some w :: rest =>
      match worker_step env w c with
      | None => exec env rest c
      | Some (ev, c1) => let '(tr, c') := exec env rest c1 in (ev :: tr, c')
      end
  end.

(** The Result stream, the requests issued and the items dropped at dequeue
    time, as a run shows them. *)
Definition results_of (tr : list Event) : list Result.t :=
  omap (fun ev => match ev with EvResult _ _ r => Some r | _ => None end) tr.

Definition fetched_of (tr : list Event) : list QueueItem.t :=
  omap (fun ev => match ev with EvFetch _ it => Some it | _ => None end) tr.

Definition skipped_of (tr : list Event) : list QueueItem.t :=
  omap (fun ev => match ev with EvSkip _ it => Some it | _ => None end) tr.

(** Items a worker holds: popped, with the [Push] of their links not yet
    done. *)
Definition held (wk : Worker) : list QueueItem.t :=
  match wk with
  | Fetching it | Emitted it _ _ => [it]
  | _ => []
  end.

Definition fetching (wk : Worker) : list QueueItem.t :=
  match wk with
  | Fetching it => [it]
  | _ => []
  end.

Definition key (it : QueueItem.t) : string := url.String (QueueItem.URL it).

(** Items whose Result is still to be sent. *)
Definition inflight (c : Crawler) : list QueueItem.t :=
  workers c ≫= fetching.

(** The items whose Result a run shows. *)
Definition resulted_of (tr : list Event) : list QueueItem.t :=
  omap (fun ev => match ev with EvResult _ it _ => Some it | _ => None end) tr.

(** The Result the worker builds for an item. *)
Definition result_of (env : Env) (it : QueueItem.t) : Result.t :=
  let '(page, err) :=
    Process env (NewPage (QueueItem.URL it) (QueueItem.Depth it)) in
  Result.mk (url.String (QueueItem.URL it)) (Page.LastModified page) StatusOK
    err (QueueItem.Depth it) (time_Since env).

(** The links a page hands to [Push] when it is processed without error. *)
Definition links_of (env : Env) (it : QueueItem.t) : list url.URL :=
  let '(page, err) :=
    Process env (NewPage (QueueItem.URL it) (QueueItem.Depth it)) in
  match err with
  | None => Page.Links page
  | Some _ => []
  end.

(** The cases of [step], one per path through the loop body. *)
Inductive step_case (env : Env) (c : Crawler) : Event -> Crawler -> Prop :=
| case_cancel :
    ctx_done c = false -> step_case env c EvCancel (cancel c)
| case_return w :
    workers c !! w = Some Idle ->
    ctx_done c = true \/ queue (q c) = [] ->
    step_case env c (EvReturn w) (set_worker w Stopped c)
| case_skip w item rest :
    workers c !! w = Some Idle ->
    ctx_done c = false ->
    queue (q c) = item :: rest ->
    IsValid (validator c) (QueueItem.URL item) = false
    \/ (Config.MaxDepth (config c) < QueueItem.Depth item)%Z ->
    step_case env c (EvSkip w item)
      (set_q (mkURLQueue rest (seen (q c)) (baseHost (q c))) c)
| case_fetch w item rest :
    workers c !! w = Some Idle ->
    ctx_done c = false ->
    queue (q c) = item :: rest ->
    IsValid (validator c) (QueueItem.URL item) = true ->
    (QueueItem.Depth item <= Config.MaxDepth (config c))%Z ->
    step_case env c (EvFetch w item)
      (set_worker w (Fetching item)
         (set_q (mkURLQueue rest (seen (q c)) (baseHost (q c))) c))
| case_result w item page err :
    workers c !! w = Some (Fetching item) ->
    Process env (NewPage (QueueItem.URL item) (QueueItem.Depth item))
    = (page, err) ->
    step_case env c (EvResult w item (result_of env item))
      (set_worker w (Emitted item page err) (count_stats err c))
| case_next_ok w item page :
    workers c !! w = Some (Emitted item page None) ->
    step_case env c (EvNext w item)
      (set_worker w Idle
         (set_q (Push (Page.Links page) (int_add (QueueItem.Depth item) 1)
                   (q c)) c))
| case_next_err w item page e :
    workers c !! w = Some (Emitted item page (Some e)) ->
    step_case env c (EvNext w item) (set_worker w Idle c).

Definition all_stopped (c : Crawler) : Prop :=
  Forall (fun wk => wk = Stopped) (workers c).

#[global] Instance Stopped_dec (wk : Worker) : Decision (wk = Stopped).
Proof. destruct wk; first [by left | by right]. Defined.

(** A finite link graph: a finite set of URL strings that holds, with every
    page it contains, the links of that page on the host [host]. *)
Definition link_closed (env : Env) (host : string) (V : gset string) : Prop :=
  forall it l,
    key it ∈ V -> l ∈ links_of env it -> url.Host l = host ->
    url.String l ∈ V.

(** The steps a worker has left before it is back at the top of its loop,
    counted for the termination argument. *)
Definition weight (wk : Worker) : nat :=
  match wk with
  | Stopped => 0
  | Idle => 1
  | Emitted _ _ _ => 2
  | Fetching _ => 3
  end.

Definition measure (V : gset string) (c : Crawler) : nat :=
  3 * size (V ∖ seen (q c)) + 3 * length (queue (q c))
  + sum_list (map weight (workers c))
  + (if ctx_done c then 0 else 1).

(** Every item that was ever appended to the queue, as a run and its last
    state show them: still queued, dropped at dequeue time, or fetched. *)
Definition admitted (tr : list Event) (c : Crawler) : list QueueItem.t :=
  (queue (q c) ++ skipped_of tr ++ fetched_of tr)%list.

(** What holds of every state of a crawl of [cfg] that [NewCrawler] built as
    [c0] and [Start] started from the seed [base]. *)
Record crawl_inv (env : Env) (cfg : Config.t) (c0 : Crawler) (base : url.URL)
    (tr : list Event) (c : Crawler) : Prop := mk_crawl_inv {
inv_config : config c = cfg;
inv_validator : validator c = validator c0;
inv_baseHost : baseHost (q c) = url.Host base;
inv_seed : url.String base ∈ seen (q c);
inv_partition : map key (admitted tr c) ≡ₚ elements (seen (q c));
inv_fetched : fetched_of tr ≡ₚ (inflight c ++ resulted_of tr)%list;
inv_results : results_of tr = map (result_of env) (resulted_of tr);
inv_emitted :
  forall w it page err,
    workers c !! w = Some (Emitted it page err) ->
    it ∈ resulted_of tr
    /\ Process env (NewPage (QueueItem.URL it) (QueueItem.Depth it))
       = (page, err);
inv_fetch_ok :
  forall it, it ∈ fetched_of tr ->
    IsValid (validator c0) (QueueItem.URL it) = true
    /\ (QueueItem.Depth it <= Config.MaxDepth cfg)%Z;
inv_skip :
  forall it, it ∈ skipped_of tr ->
    IsValid (validator c0) (QueueItem.URL it) = false
    \/ (Config.MaxDepth cfg < QueueItem.Depth it)%Z;
inv_origin :
  forall it, it ∈ admitted tr c ->
    it = QueueItem.mk base 0
    \/ exists parent l,
         parent ∈ resulted_of tr /\ l ∈ links_of env parent
         /\ url.Host l = url.Host base
         /\ it = QueueItem.mk l (int_add (QueueItem.Depth parent) 1);
inv_closed :
  forall it l,
    it ∈ resulted_of tr -> l ∈ links_of env it ->
    url.Host l = url.Host base ->
    (exists w page, workers c !! w = Some (Emitted it page None))
    \/ url.String l ∈ seen (q c);
inv_live :
  ctx_done c = false -> queue (q c) <> [] ->
  exists w wk, workers c !! w = Some wk /\ wk <> Stopped;
inv_seed_admitted : QueueItem.mk base 0 ∈ admitted tr c;
inv_nonneg :
  (Config.MaxDepth cfg < 2 ^ 63 - 1)%Z ->
  forall it, it ∈ admitted tr c -> (0 <= QueueItem.Depth it)%Z
}.

(** ** Reference definitions and example worlds *)

(** The part of a reference before its first [#]. *)
Definition without_fragment (rawURL : string) : string :=
  fst (fst (strings.Cut rawURL "#")).

(** Deduplication by exact string equality, in the words of the
    specification: keep the first occurrence of every string, in order. *)
Fixpoint first_occurrences (urls : list url.URL) : list url.URL :=
  match urls with
  | [] => []
  | u :: rest =>
      u :: filter (fun v => url.String v <> url.String u) (first_occurrences rest)
  end.

(** "Resolved against the page's own URL if relative". *)
Definition resolved_against (base r : url.URL) : url.URL :=
  if url.IsAbs r then r else url.ResolveReference base r.

(** "Given an explicit https scheme if none is present". *)
Definition scheme_or_https (r : url.URL) : url.URL :=
  if String.eqb (url.Scheme r) "" then
    url.mkURL "https" (url.Opaque r) (url.Host r) (url.Path r)
      (url.OmitHost r) (url.ForceQuery r) (url.RawQuery r) (url.Fragment r)
  else r.

(** What [Push] lets in: not seen yet, and on the base host. *)
Definition admits (q : URLQueue) (u : url.URL) : Prop :=
  (url.String u ∉ seen q) /\ url.Host u = baseHost q.

#[global] Instance admits_dec q u : Decision (admits q u).
Proof. unfold admits. apply _. Defined.

Definition example_logo : url.URL :=
  url.mkURL "https" "" "example.com" "/logo.png" false false "" "".

(** A document whose body is a list of anchors. *)
Definition anchors (hrefs : list string) : Node :=
  mkNode DocumentNode "" []
    [mkNode ElementNode "html" []
       [mkNode ElementNode "body" []
          (map (fun h => mkNode ElementNode "a" [mkAttr "href" h] []) hrefs)]].

(** A site: the pages it serves with the references each one carries; any
    other URL is answered 404. No page carries a [Last-Modified] header. *)
Definition site (pages : list (string * list string)) (u : string) : Exchange :=
  match list_find (fun pg => bool_decide (fst pg = u)) pages with
  | Some (_, (_, hrefs)) => Response 200%Z "" (Some (anchors hrefs))
  | None => Response 404%Z "" (Some (anchors ["/never-parsed"]))
  end.

(** A world that serves [pages]. No pattern is configured and no header is
    served in it, so [Compile] and [time.Parse] are never called. *)
Definition world (pages : list (string * list string)) : Env :=
  mkEnv (site pages) (fun _ => None) (fun _ => None) 63900000000%Z 5%Z.

(** A world whose only page carries the date of Go's zero time in its
    [Last-Modified] header; [time.Parse] reads it as the zero time. *)
Definition zero_date : string := "Mon, 01 Jan 0001 00:00:00 UTC".

Definition zero_date_world : Env :=
  mkEnv (fun _ => Response 200%Z zero_date (Some (anchors [])))
    (fun _ => None)
    (fun s => if String.eqb s zero_date then Some 0%Z else None)
    63900000000%Z 5%Z.

Definition example_root : url.URL :=
  url.mkURL "https" "" "example.com" "/" false false "" "".

Definition example_config (maxDepth maxConcurrent : Z) : Config.t :=
  Config.mk (Some example_root) maxDepth maxConcurrent Second 0%Z "Mapper/1.0"
    true [] [].

Definition example_crawler (maxDepth maxConcurrent : Z) : Crawler :=
  mkCrawler (example_config maxDepth maxConcurrent) (NewURLQueue example_root)
    (mkURLValidator example_root [] []) 0%Z 0%Z [] false.

(** A site whose seed links to /a, /b and an image. *)
Definition two_pages : list (string * list string) :=
  [("https://example.com/", ["/a"; "/b"; "/logo.png"]);
   ("https://example.com/a", ["/"]);
   ("https://example.com/b", ["/a"])].

(** A site in which /d is two links away from the seed through /b and three
    through /a and /c. *)
Definition diamond : list (string * list string) :=
  [("https://example.com/", ["https://example.com/a"; "https://example.com/b"]);
   ("https://example.com/a", ["https://example.com/c"]);
   ("https://example.com/b", ["https://example.com/d"]);
   ("https://example.com/c", ["https://example.com/d"]);
   ("https://example.com/d", [])].

Definition diamond_urls : gset string :=
  list_to_set (map fst diamond).

Definition example_page (path : string) : url.URL :=
  url.mkURL "https" "" "example.com" path false false "" "".

(** Two workers; worker 1 is slow to fetch /b while worker 0 fetches /a and
    /c, so /d is first offered by /c. *)
Definition slow_b : list (option nat) :=
  [Some 0; Some 0; Some 0; Some 0; Some 1; Some 0; Some 0; Some 0; Some 0;
   Some 0; Some 1; Some 1; Some 0; Some 0; Some 1].

(** One worker, to the end. *)
Definition one_worker (steps : nat) : list (option nat) :=
  replicate steps (Some 0).

Definition https_example_a : url.URL :=
  url.mkURL "https" "" "example.com" "/a/" false false "" "".

Definition http_example_root : url.URL :=
  url.mkURL "http" "" "example.com" "/" false false "" "".

(** ** The rest of the package *)

(** queue.go: [Clear] and [IsInDomain]. *)
Definition Clear (q : URLQueue) : URLQueue := mkURLQueue [] ∅ (baseHost q).

Definition IsInDomain (q : URLQueue) (u : url.URL) : bool :=
  String.eqb (url.Host u) (baseHost q).

(** The queues a caller can reach with the exported operations. *)
Inductive built (base : url.URL) : URLQueue -> Prop :=
| built_new : built base (NewURLQueue base)
| built_push q urls d : built base q -> built base (Push urls d q)
| built_pop q : built base q -> built base (snd (Pop q))
| built_clear q : built base q -> built base (Clear q).

(** validator.go: [ShouldFollowRedirect], [GetDomain], [IsSubpath]. *)
Definition ShouldFollowRedirect (v : URLValidator) (redirectURL : url.URL)
  : bool :=
  String.eqb (url.Host redirectURL) (url.Host (baseURL v)).

Definition GetDomain (v : URLValidator) : string := url.Host (baseURL v).

Definition IsSubpath (parent child : string) : bool :=
  let parent := NormalizePath parent in
  let child := NormalizePath child in
  strings.HasPrefix child parent.

(** config.go: [DefaultConfig] and the options. *)
Definition DefaultConfig (baseURL : string) : option Config.t :=
  match url.Parse baseURL with
  | None => None
  | Some parsedURL =>
      Some (Config.mk (Some parsedURL) 3 5 (10 * Second) Second
              "Mapper/1.0 (+https://github.com/ncecere/mapper)" true [] [])
  end.

Definition WithMaxDepth (depth : Z) (c : Config.t) : Config.t :=
  Config.mk (Config.BaseURL c) depth (Config.MaxConcurrent c)
    (Config.RequestTimeout c) (Config.RateLimit c) (Config.UserAgent c)
    (Config.FollowRedirects c) (Config.ExcludePatterns c)
    (Config.IncludePatterns c).

Definition WithMaxConcurrent (max : Z) (c : Config.t) : Config.t :=
  Config.mk (Config.BaseURL c) (Config.MaxDepth c) max
    (Config.RequestTimeout c) (Config.RateLimit c) (Config.UserAgent c)
    (Config.FollowRedirects c) (Config.ExcludePatterns c)
    (Config.IncludePatterns c).

Definition WithRequestTimeout (timeout : Z) (c : Config.t) : Config.t :=
  Config.mk (Config.BaseURL c) (Config.MaxDepth c) (Config.MaxConcurrent c)
    timeout (Config.RateLimit c) (Config.UserAgent c)
    (Config.FollowRedirects c) (Config.ExcludePatterns c)
    (Config.IncludePatterns c).

Definition WithRateLimit (limit : Z) (c : Config.t) : Config.t :=
  Config.mk (Config.BaseURL c) (Config.MaxDepth c) (Config.MaxConcurrent c)
    (Config.RequestTimeout c) limit (Config.UserAgent c)
    (Config.FollowRedirects c) (Config.ExcludePatterns c)
    (Config.IncludePatterns c).

Definition WithUserAgent (userAgent : string) (c : Config.t) : Config.t :=
  Config.mk (Config.BaseURL c) (Config.MaxDepth c) (Config.MaxConcurrent c)
    (Config.RequestTimeout c) (Config.RateLimit c) userAgent
    (Config.FollowRedirects c) (Config.ExcludePatterns c)
    (Config.IncludePatterns c).

Definition WithFollowRedirects (follow : bool) (c : Config.t) : Config.t :=
  Config.mk (Config.BaseURL c) (Config.MaxDepth c) (Config.MaxConcurrent c)
    (Config.RequestTimeout c) (Config.RateLimit c) (Config.UserAgent c)
    follow (Config.ExcludePatterns c) (Config.IncludePatterns c).

Definition WithExcludePatterns (patterns : list string) (c : Config.t)
  : Config.t :=
  Config.mk (Config.BaseURL c) (Config.MaxDepth c) (Config.MaxConcurrent c)
    (Config.RequestTimeout c) (Config.RateLimit c) (Config.UserAgent c)
    (Config.FollowRedirects c) patterns (Config.IncludePatterns c).

Definition WithIncludePatterns (patterns : list string) (c : Config.t)
  : Config.t :=
  Config.mk (Config.BaseURL c) (Config.MaxDepth c) (Config.MaxConcurrent c)
    (Config.RequestTimeout c) (Config.RateLimit c) (Config.UserAgent c)
    (Config.FollowRedirects c) (Config.ExcludePatterns c) patterns.

(** crawler.go: the two counters [Stats] returns. *)
Definition Stats (c : Crawler) : Z * Z := (processed c, errors c).

(** cmd/generate.go: the loop of [runGenerate] over the Result stream, with
    its two counters and the calls of [builder.AddURL] it makes, in order. *)
Fixpoint consume (results : list Result.t) (processedCount errorCount : Z)
    (added : list (string * Time)) : Z * Z * list (string * Time) :=
  match results with
  | [] => (processedCount, errorCount, added)
  | result :: rest =>
      match Result.Error result with
      | Some _ => consume rest processedCount (int_add errorCount 1) added
      | None =>
          consume rest (int_add processedCount 1) errorCount
            (added ++ [(Result.URL result, Result.LastMod result)])
      end
  end.

(** The items a run pops, dropped or fetched, in the order they are popped. *)
Definition popped_of (tr : list Event) : list QueueItem.t :=
  omap (fun ev => match ev with
                  | EvSkip _ it | EvFetch _ it => Some it
                  | _ => None
                  end) tr.

(** What a crawl with one worker keeps: the items are popped, and their
    Results sent, in the order of their depths; [d0] is the depth of the item
    popped last, and the queue holds items of depth [d0] and [d0 + 1]
    only. *)
Record bfs_inv (cfg : Config.t) (tr : list Event) (c : Crawler) (d0 : Z)
  : Prop := mk_bfs_inv {
bfs_config : config c = cfg;
bfs_nonneg : (0 <= d0)%Z;
bfs_worker :
  exists wk, workers c = [wk]
    /\ forall it, it ∈ held wk ->
         QueueItem.Depth it = d0 /\ (d0 <= Config.MaxDepth cfg)%Z;
bfs_popped_sorted : StronglySorted Z.le (map QueueItem.Depth (popped_of tr));
bfs_popped_bound :
  Forall (fun it => (QueueItem.Depth it <= d0)%Z) (popped_of tr);
bfs_queue_sorted : StronglySorted Z.le (map QueueItem.Depth (queue (q c)));
bfs_queue_bound :
  Forall (fun it => (d0 <= QueueItem.Depth it <= d0 + 1)%Z) (queue (q c));
bfs_results_sorted : StronglySorted Z.le (map Result.Depth (results_of tr));
bfs_results_bound :
  Forall (fun r => (Result.Depth r <= d0)%Z) (results_of tr)
}.

(** page.go, the references of a document: the strings the closure of
    [parseHTML] hands to [normalizeURL], node by node in document order. *)
Definition node_refs (ty : NodeType) (data : string)
    (attrs : list Attribute) : list string :=
  match ty with
  | ElementNode =>
      (if String.eqb data "a" then
         match first_href attrs with
         | Some val => [val]
         | None => []
         end
       else [])
      ++ (if String.eqb data "link" then
            let '(rel, href) := rel_href attrs in
            if (String.eqb rel "canonical" || String.eqb rel "alternate")
               && negb (String.eqb href "")
            then [href]
            else []
          else [])
  | _ => []
  end.

Fixpoint refs (n : Node) : list string :=
  match n with
  | mkNode ty data attrs children =>
      (node_refs ty data attrs ++ concat (map refs children))%list
  end.

(** crawler.go: the [CheckRedirect] of the client [NewCrawler] builds;
    [req] is the request about to be made, [via] the requests made so far.
    [None] lets the client follow the redirect. *)
Inductive RedirectError :=
| ErrUseLastResponse
| ErrTooManyRedirects.

Definition CheckRedirect (config : Config.t) (req : url.URL)
    (via : list url.URL) : option RedirectError :=
  if negb (Config.FollowRedirects config) then Some ErrUseLastResponse
  else if (10 <=? Z.of_nat (length via))%Z then Some ErrTooManyRedirects
  else None.

(** ** crawler.go, the loop of [worker] operation by operation

    Each operation on what the goroutines share is a step of its own: the
    [select] on [ctx.Done], [queue.Pop], [page.Process], the update of the
    statistics under their mutex, the send on [results], and
    [queue.Push]. The two tests of the popped item and the sleep of the rate
    limit touch nothing shared and belong to the step before them. The
    [results] channel is unbuffered and its consumer keeps receiving: the
    send is the step in which the Result is received. *)
Module Steps.

(** The operation a worker is about to do. *)
Inductive Point :=
| AtSelect
| AtPop
| AtProcess (item : QueueItem.t)
| AtStats (item : QueueItem.t) (page : Page.t) (err : option error)
| AtSend (item : QueueItem.t) (page : Page.t) (err : option error)
| AtPush (item : QueueItem.t) (page : Page.t) (err : option error)
| Returned.

Record State := mkState {
config : Config.t;
q : URLQueue;
validator : URLValidator;
processed : Z;
errors : Z;
workers : list Point;
ctx_done : bool
}.

Definition Start (c : Crawler) : State :=
  match c with
  | mkCrawler config q validator processed errors _ ctx_done =>
      let seed :=
        match Config.BaseURL config with
        | Some base => [base]
        | None => []
        end in
      mkState config (Push seed 0 q) validator processed errors
        (replicate (Z.to_nat (Config.MaxConcurrent config)) AtSelect)
        ctx_done
  end.

Definition Stats (s : State) : Z * Z := (processed s, errors s).

Inductive Event :=
| EvCancel
| EvReturn (w : nat)
| EvDefault (w : nat)
| EvSkip (w : nat) (item : QueueItem.t)
| EvPop (w : nat) (item : QueueItem.t)
| EvProcess (w : nat) (item : QueueItem.t)
| EvStats (w : nat) (item : QueueItem.t)
| EvResult (w : nat) (item : QueueItem.t) (r : Result.t)
| EvNext (w : nat) (item : QueueItem.t).

Definition set_q (q' : URLQueue) (s : State) : State :=
  mkState (config s) q' (validator s) (processed s) (errors s) (workers s)
    (ctx_done s).

Definition count_stats (err : option error) (s : State) : State :=
  mkState (config s) (q s) (validator s) (int_add (processed s) 1)
    (match err with Some _ => int_add (errors s) 1 | None => errors s end)
    (workers s) (ctx_done s).

Definition set_worker (w : nat) (p : Point) (s : State) : State :=
  mkState (config s) (q s) (validator s) (processed s) (errors s)
    (<[w := p]> (workers s)) (ctx_done s).

Definition cancel (s : State) : State :=
  mkState (config s) (q s) (validator s) (processed s) (errors s)
    (workers s) true.

(** The operation of worker [w] at point [p]: what a run shows of it, where
    the worker goes, and what it leaves of the shared state. *)
Definition next (env : Env) (w : nat) (s : State) (p : Point)
  : option (Event * Point * State) :=
  match p with
  | Returned => None
  | AtSelect =>
      if ctx_done s then Some (EvReturn w, Returned, s)
      else Some (EvDefault w, AtPop, s)
  | AtPop =>
      match Pop (q s) with
      | (None, _) => Some (EvReturn w, Returned, s)
      | (Some item, q') =>
          if negb (IsValid (validator s) (QueueItem.URL item))
          then Some (EvSkip w item, AtSelect, set_q q' s)
          else if (Config.MaxDepth (config s) <? QueueItem.Depth item)%Z
          then Some (EvSkip w item, AtSelect, set_q q' s)
          else Some (EvPop w item, AtProcess item, set_q q' s)
      end
  | AtProcess item =>
      let '(page, err) :=
        Process env (NewPage (QueueItem.URL item) (QueueItem.Depth item)) in
      Some (EvProcess w item, AtStats item page err, s)
  | AtStats item page err =>
      Some (EvStats w item, AtSend item page err, count_stats err s)
  | AtSend item page err =>
      Some (EvResult w item
              (Result.mk (url.String (QueueItem.URL item))
                 (Page.LastModified page) StatusOK err (QueueItem.Depth item)
                 (time_Since env)),
            AtPush item page err, s)
  | AtPush item page err =>
      Some (EvNext w item, AtSelect,
            match err with
            | None =>
                set_q (Push (Page.Links page)
                         (int_add (QueueItem.Depth item) 1) (q s)) s
            | Some _ => s
            end)
  end.

Definition worker_step (env : Env) (w : nat) (s : State)
  : option (Event * State) :=
  match workers s !! w with
  | None => None
  | Some p =>
      match next env w s p with
      | None => None
      | Some (ev, p', s') => Some (ev, set_worker w p' s')
      end
  end.

Inductive step (env : Env) : State -> Event -> State -> Prop :=
| step_worker w s ev s' :
    worker_step env w s = Some (ev, s') -> step env s ev s'
| step_cancel s :
    ctx_done s = false -> step env s EvCancel (cancel s).

Inductive run (env : Env) (s0 : State) : list Event -> State -> Prop :=
| run_nil : run env s0 [] s0
| run_snoc tr s ev s' :
    run env s0 tr s -> step env s ev s' -> run env s0 (tr ++ [ev]) s'.

Fixpoint exec (env : Env) (sched : list (option nat)) (s : State)
  : list Event * State :=
  match sched with
  | [] => ([], s)
  | None :: rest =>
      if ctx_done s then exec env rest s
      else let '(tr, s') := exec env rest (cancel s) in (EvCancel :: tr, s')
  | Some w :: rest =>
      match worker_step env w s with
      | None => exec env rest s
      | Some (ev, s1) => let '(tr, s') := exec env rest s1 in (ev :: tr, s')
      end
  end.

(** How often an event of one kind occurs in a run. *)
Definition count (kind : Event -> bool) (tr : list Event) : nat :=
  length (filter (fun ev => kind ev = true) tr).

Definition is_pop (ev : Event) : bool :=
  match ev with EvSkip _ _ | EvPop _ _ => true | _ => false end.

Definition is_process (ev : Event) : bool :=
  match ev with EvProcess _ _ => true | _ => false end.

Definition is_result (ev : Event) : bool :=
  match ev with EvResult _ _ _ => true | _ => false end.

Definition is_default (ev : Event) : bool :=
  match ev with EvDefault _ => true | _ => false end.

Definition results_of (tr : list Event) : list Result.t :=
  omap (fun ev => match ev with EvResult _ _ r => Some r | _ => None end) tr.

(** The errors of the fetches that are counted in the statistics and whose
    Result is not sent yet. *)
Definition counted (p : Point) : list (option error) :=
  match p with
  | AtSend _ _ err => [err]
  | _ => []
  end.

(** The operations a worker has left in its current pass of the loop once
    [ctx] is done. *)
Definition left (p : Point) : nat :=
  match p with
  | Returned => 0
  | AtSelect => 1
  | AtPush _ _ _ => 2
  | AtSend _ _ _ => 3
  | AtStats _ _ _ => 4
  | AtProcess _ => 5
  | AtPop => 6
  end.

Definition may_pop (p : Point) : nat :=
  match p with AtPop => 1 | _ => 0 end.

Definition may_process (p : Point) : nat :=
  match p with AtPop | AtProcess _ => 1 | _ => 0 end.

Definition may_send (p : Point) : nat :=
  match p with
  | AtPop | AtProcess _ | AtStats _ _ _ | AtSend _ _ _ => 1
  | _ => 0
  end.

End Steps.

(** ** pkg/sitemap: sitemap.go, builder.go and [Compare] of writer.go *)

(** [t.After(u)] *)
Definition After (t u : Time) : bool := (u <? t)%Z.

Module sitemap.

(** An entry. [Priority] is a float64; [XMLName] is never set. *)
Module URL.
Record t := mk {
  Loc : string;
  LastMod : string;
  ChangeFreq : string;
  Priority : float;
  LastModded : Time
}.
End URL.

Inductive ValidationError :=
| ErrNoURLs
| ErrTooManyURLs
| ErrEmptyLoc
| ErrLocTooLong (loc : string)
| ErrPriority (loc : string)
| ErrChangeFreq (loc freq : string).

Definition validFreqs : list string :=
  ["always"; "hourly"; "daily"; "weekly"; "monthly"; "yearly"; "never"].

(** The body of the loop of [Validate]. *)
Definition validate_url (u : URL.t) : option ValidationError :=
  if String.eqb (URL.Loc u) "" then Some ErrEmptyLoc
  else if (2048 <? Z.of_nat (String.length (URL.Loc u)))%Z
  then Some (ErrLocTooLong (URL.Loc u))
  else if negb (PrimFloat.eqb (URL.Priority u) 0)
          && (PrimFloat.ltb (URL.Priority u) 0
              || PrimFloat.ltb 1 (URL.Priority u))
  then Some (ErrPriority (URL.Loc u))
  else if negb (String.eqb (URL.ChangeFreq u) "")
          && negb (existsb (String.eqb (URL.ChangeFreq u)) validFreqs)
  then Some (ErrChangeFreq (URL.Loc u) (URL.ChangeFreq u))
  else None.

Fixpoint validate_urls (urls : list URL.t) : option ValidationError :=
  match urls with
  | [] => None
  | u :: rest =>
      match validate_url u with
      | Some e => Some e
      | None => validate_urls rest
      end
  end.

(** [sort.Slice] does not say which of the sorted orders it returns. *)
Definition Sorter : Type := (URL.t -> URL.t -> bool) -> list URL.t -> list URL.t.

Definition byLastMod (a b : URL.t) : bool :=
  After (URL.LastModded a) (URL.LastModded b).

Module URLSet.
Record t := mk { XMLNS : string; URLs : list URL.t }.

Definition AddURL (Format : Time -> string) (us : t) (loc : string)
    (lastMod : Time) : t :=
  mk (XMLNS us) (URLs us ++ [URL.mk loc (Format lastMod) "" 0 lastMod]).

Definition SortByLastMod (sort_Slice : Sorter) (us : t) : t :=
  mk (XMLNS us) (sort_Slice byLastMod (URLs us)).

Definition Validate (us : t) : option ValidationError :=
  if (length (URLs us) =? 0)%nat then Some ErrNoURLs
  else if (50000 <? Z.of_nat (length (URLs us)))%Z then Some ErrTooManyURLs
  else validate_urls (URLs us).

Definition Size (us : t) : Z := Z.of_nat (length (URLs us)).
End URLSet.

Definition NewURLSet : URLSet.t :=
  URLSet.mk "http://www.sitemaps.org/schemas/sitemap/0.9" [].

Definition Clone (us : URLSet.t) : URLSet.t :=
  URLSet.mk (URLSet.XMLNS NewURLSet) (URLSet.URLs us).

Module BuilderOptions.
Record t := mk {
  DefaultChangeFreq : string;
  DefaultPriority : float;
  IncludeLastMod : bool;
  SortByLastMod : bool;
  ExcludePaths : list string;
  StripQueryParams : bool
}.
End BuilderOptions.

Definition DefaultBuilderOptions : BuilderOptions.t :=
  BuilderOptions.mk "weekly" 0.5 true true [] true.

Inductive AddError :=
| ErrInvalidURL (loc : string)
| ErrOtherDomain (loc : string).

Module Builder.
Record t := mk {
  baseURL : url.URL;
  urlset : URLSet.t;
  options : BuilderOptions.t
}.

Definition with_URLs (b : t) (urls : list URL.t) : t :=
  mk (baseURL b) (URLSet.mk (URLSet.XMLNS (urlset b)) urls) (options b).

(** [Format] is [lastMod.Format("2006-01-02")]. *)
Definition AddURL (Format : Time -> string) (b : t) (loc : string)
    (lastMod : Time) : t * option AddError :=
  match url.Parse loc with
  | None => (b, Some (ErrInvalidURL loc))
  | Some parsedURL =>
      if negb (String.eqb (url.Host parsedURL) (url.Host (baseURL b)))
      then (b, Some (ErrOtherDomain loc))
      else if existsb (fun excludePath =>
                         String.eqb (url.Path parsedURL) excludePath)
                (BuilderOptions.ExcludePaths (options b))
      then (b, None)
      else
        let parsedURL :=
          if BuilderOptions.StripQueryParams (options b)
          then url.mkURL (url.Scheme parsedURL) (url.Opaque parsedURL)
                 (url.Host parsedURL) (url.Path parsedURL)
                 (url.OmitHost parsedURL) (url.ForceQuery parsedURL) ""
                 (url.Fragment parsedURL)
          else parsedURL in
        let u :=
          URL.mk (url.String parsedURL)
            (if BuilderOptions.IncludeLastMod (options b)
             then Format lastMod else "")
            (if negb (String.eqb
                        (BuilderOptions.DefaultChangeFreq (options b)) "")
             then BuilderOptions.DefaultChangeFreq (options b) else "")
            (if negb (PrimFloat.eqb
                        (BuilderOptions.DefaultPriority (options b)) 0)
             then BuilderOptions.DefaultPriority (options b) else 0%float)
            lastMod in
        (with_URLs b (URLSet.URLs (urlset b) ++ [u]), None)
  end.

(** [Build] sorts the builder's own slice, then validates it. *)
Definition Build (sort_Slice : Sorter) (b : t)
  : t * (URLSet.t + ValidationError) :=
  let b :=
    if BuilderOptions.SortByLastMod (options b)
    then with_URLs b (sort_Slice byLastMod (URLSet.URLs (urlset b)))
    else b in
  match URLSet.Validate (urlset b) with
  | Some err => (b, inr err)
  | None => (b, inl (urlset b))
  end.

Definition SetChangeFreq (freq : string) (b : t) : t :=
  with_URLs b
    (map (fun u => URL.mk (URL.Loc u) (URL.LastMod u) freq (URL.Priority u)
                     (URL.LastModded u))
       (URLSet.URLs (urlset b))).

Definition SetPriority (priority : float) (b : t) : t :=
  with_URLs b
    (map (fun u => URL.mk (URL.Loc u) (URL.LastMod u) (URL.ChangeFreq u)
                     priority (URL.LastModded u))
       (URLSet.URLs (urlset b))).

Definition Clear (b : t) : t := mk (baseURL b) NewURLSet (options b).

Definition Count (b : t) : Z := Z.of_nat (length (URLSet.URLs (urlset b))).

Definition GetURLs (b : t) : list URL.t := URLSet.URLs (urlset b).
End Builder.

Definition NewBuilder (baseURL : url.URL) (options : BuilderOptions.t)
  : Builder.t :=
  Builder.mk baseURL NewURLSet options.

(** The builders [AddURL] makes of a new one. *)
Inductive filled (base : url.URL) (o : BuilderOptions.t)
  : Builder.t -> Prop :=
| filled_new : filled base o (NewBuilder base o)
| filled_add Format b loc lastMod :
    filled base o b ->
    filled base o (fst (Builder.AddURL Format b loc lastMod)).

(** writer.go, [Compare]. The two maps, filled in the order of the
    slices; [range] is the order in which a map is visited, which Go leaves
    open. *)
Definition by_Loc (urls : list URL.t) : gmap string URL.t :=
  foldl (fun m u => <[URL.Loc u := u]> m) ∅ urls.

Definition missing_from (m : gmap string URL.t)
    (visited : list (string * URL.t)) : list URL.t :=
  omap (fun '(loc, u) =>
          match m !! loc with
          | None => Some u
          | Some _ => None
          end) visited.

Definition Compare (range : gmap string URL.t -> list (string * URL.t))
    (original new : URLSet.t) : list URL.t * list URL.t :=
  let originalURLs := by_Loc (URLSet.URLs original) in
  let newURLs := by_Loc (URLSet.URLs new) in
  let added := missing_from originalURLs (range newURLs) in
  let removed := missing_from newURLs (range originalURLs) in
  (added, removed).

(** A sort to run [Build] with. *)
Fixpoint insert_sorted (less : URL.t -> URL.t -> bool) (x : URL.t)
    (l : list URL.t) : list URL.t :=
  match l with
  | [] => [x]
  | y :: rest =>
      if less x y then x :: y :: rest else y :: insert_sorted less x rest
  end.

Definition insertion_sort : Sorter :=
  fun less l => foldr (insert_sorted less) [] l.

End sitemap.

(** ** Facts about slices, prefixes and suffixes *)

Section StringFacts.

Lemma substring_0_all (s : string) :
  String.substring 0 (String.length s) s = s.
Proof. induction s as [|a s IH]; simpl; [done | by rewrite IH]. Qed.

Lemma substring_app_l (s t : string) :
  String.substring 0 (String.length s) (s ++ t) = s.
Proof.
  induction s as [|a s IH]; simpl.
  - by destruct t.
  - by rewrite IH.
Qed.

Lemma substring_app_r (s t : string) :
  String.substring (String.length s) (String.length t) (s ++ t) = t.
Proof. induction s as [|a s IH]; simpl; [apply substring_0_all | done]. Qed.

Lemma string_length_app (s t : string) :
  String.length (s ++ t) = (String.length s + String.length t)%nat.
Proof. induction s as [|a s IH]; simpl; [done | by rewrite IH]. Qed.

Lemma substring_split (s : string) (n : nat) :
  (n <= String.length s)%nat ->
  s = String.substring 0 n s ++ String.substring n (String.length s - n) s.
Proof.
  revert n. induction s as [|a s IH]; intros n Hn; simpl in *.
  - by destruct n.
  - destruct n as [|n]; simpl.
    + by rewrite substring_0_all.
    + change (String a (String.substring 0 n s) ++ ?t)
        with (String a (String.substring 0 n s ++ t)).
      f_equal. apply IH. lia.
Qed.

Lemma substring_length_le (s : string) (i n : nat) :
  (i + n <= String.length s)%nat ->
  String.length (String.substring i n s) = n.
Proof.
  revert i n. induction s as [|a s IH]; intros i n H; simpl in *.
  - destruct i, n; simpl in *; lia.
  - destruct i as [|i].
    + destruct n as [|n]; simpl; [done|]. rewrite IH; lia.
    + apply IH. lia.
Qed.

Lemma HasSuffix_spec (s suf : string) :
  strings.HasSuffix s suf = true <-> exists q, s = q ++ suf.
Proof.
  unfold strings.HasSuffix, strings.slice. split.
  - intros H. apply andb_prop in H as [Hl He].
    apply Nat.leb_le in Hl. apply String.eqb_eq in He.
    exists (String.substring 0 (String.length s - String.length suf) s).
    pose proof (substring_split s (String.length s - String.length suf)) as Hs.
    rewrite He in Hs. apply Hs. lia.
  - intros [q ->]. rewrite string_length_app.
    apply andb_true_intro. split; [apply Nat.leb_le; lia|].
    apply String.eqb_eq.
    replace (String.length q + String.length suf - String.length suf)%nat
      with (String.length q) by lia.
    replace (String.length q + String.length suf - String.length q)%nat
      with (String.length suf) by lia.
    apply substring_app_r.
Qed.

Lemma HasPrefix_spec (s pre : string) :
  strings.HasPrefix s pre = true <-> exists q, s = pre ++ q.
Proof.
  unfold strings.HasPrefix, strings.slice. split.
  - intros H. apply andb_prop in H as [Hl He].
    apply Nat.leb_le in Hl. apply String.eqb_eq in He.
    exists (String.substring (String.length pre)
              (String.length s - String.length pre) s).
    pose proof (substring_split s (String.length pre)) as Hs.
    rewrite Nat.sub_0_r in He. rewrite He in Hs. apply Hs. lia.
  - intros [q ->]. rewrite string_length_app.
    apply andb_true_intro. split; [apply Nat.leb_le; lia|].
    apply String.eqb_eq. rewrite Nat.sub_0_r. apply substring_app_l.
Qed.

Lemma TrimSuffix_app (q suf : string) :
  strings.TrimSuffix (q ++ suf) suf = q.
Proof.
  unfold strings.TrimSuffix.
  assert (strings.HasSuffix (q ++ suf) suf = true) as ->
    by (apply HasSuffix_spec; eauto).
  unfold strings.slice. rewrite string_length_app.
  replace (String.length q + String.length suf - String.length suf - 0)%nat
    with (String.length q) by lia.
  apply substring_app_l.
Qed.

End StringFacts.

(** ** NormalizePath *)

Section NormalizePathFacts.

Lemma string_app_assoc (a b c : string) : (a ++ b) ++ c = a ++ (b ++ c).
Proof.
  induction a as [|x a IH]; [done|].
  change (String x ((a ++ b) ++ c) = String x (a ++ (b ++ c))). by rewrite IH.
Qed.

Lemma string_app_nil_r (a : string) : a ++ "" = a.
Proof.
  induction a as [|x a IH]; [done|].
  change (String x (a ++ "") = String x a). by rewrite IH.
Qed.

Lemma HasSuffix_false_cons (c : ascii) (q : string) :
  q <> "" ->
  strings.HasSuffix q "/" = false ->
  strings.HasSuffix (String c q) "/" = false.
Proof.
  intros Hq Hs. apply not_true_is_false. intros H.
  apply HasSuffix_spec in H as [x Hx].
  destruct x as [|a x].
  - change (String c q = "/") in Hx. congruence.
  - change (String c q = String a (x ++ "/")) in Hx.
    injection Hx as _ ->.
    assert (strings.HasSuffix (x ++ "/") "/" = true)
      by (apply HasSuffix_spec; eauto).
    congruence.
Qed.

(** The second statement of [NormalizePath] keeps the "no trailing slash"
    shape of its input. *)
Lemma ensure_leading_slash_shape (q : string) :
  strings.HasSuffix q "/" = false ->
  let r := if negb (strings.HasPrefix q "/") then "/" ++ q else q in
  r = "/" \/ strings.HasSuffix r "/" = false.
Proof.
  intros Hq r. subst r.
  destruct (strings.HasPrefix q "/"); simpl; [by right|].
  destruct q as [|a q]; [by left|].
  right. change ("/" ++ String a q) with (String "/" (String a q)).
  by apply HasSuffix_false_cons.
Qed.

Lemma NormalizePath_shape (p : string) :
  strings.HasSuffix p "//" = false \/ p = "//" ->
  NormalizePath p = "/" \/ strings.HasSuffix (NormalizePath p) "/" = false.
Proof.
  intros H. unfold NormalizePath.
  destruct (String.eqb_spec p "/") as [->|Hne]; [by left|].
  simpl. destruct (strings.HasSuffix p "/") eqn:Hs.
  - apply HasSuffix_spec in Hs as [q ->]. rewrite TrimSuffix_app.
    destruct (strings.HasSuffix q "/") eqn:Hq.
    + apply HasSuffix_spec in Hq as [q' ->].
      rewrite string_app_assoc in H, Hne.
      change ("/" ++ "/") with "//" in *.
      destruct H as [H|H].
      * assert (strings.HasSuffix (q' ++ "//") "//" = true)
          by (apply HasSuffix_spec; eauto).
        congruence.
      * destruct q' as [|a q']; [by left|].
        change (String a (q' ++ "//") = "//") in H.
        destruct q' as [|b [|c q']]; discriminate.
    + by apply ensure_leading_slash_shape.
  - by apply ensure_leading_slash_shape.
Qed.

Lemma NormalizePath_fixed (r : string) :
  strings.HasPrefix r "/" = true ->
  r = "/" \/ strings.HasSuffix r "/" = false ->
  NormalizePath r = r.
Proof.
  intros Hp [->|Hs]; [done|].
  unfold NormalizePath. rewrite Hs, andb_false_r. by rewrite Hp.
Qed.

End NormalizePathFacts.

(** For every input string the result of
    [NormalizePath] starts with "/". *)
Lemma NormalizePath_leading_slash (p : string) :
  strings.HasPrefix (NormalizePath p) "/" = true.
Proof.
  unfold NormalizePath.
  set (q := if negb (p =? "/")%string && strings.HasSuffix p "/"
            then strings.TrimSuffix p "/" else p).
  destruct (strings.HasPrefix q "/") eqn:Hq; simpl; [done|].
  apply HasPrefix_spec. by exists q.
Qed.

(** C10, evaluated where the code departs from it: only one trailing slash
    is trimmed, so on the input "a//" the result "/a/" still ends in a slash
    without being "/", and a second application changes it to "/a". *)
Lemma NormalizePath_double_slash :
  NormalizePath "a//" = "/a/"
  /\ strings.HasPrefix (NormalizePath "a//") "/" = true
  /\ strings.HasSuffix (NormalizePath "a//") "/" = true
  /\ NormalizePath "a//" <> "/"
  /\ NormalizePath (NormalizePath "a//") = "/a"
  /\ NormalizePath (NormalizePath "a//") <> NormalizePath "a//".
Proof. vm_compute. repeat split; discriminate. Qed.

(** X16: Away from inputs that end in two slashes (the input "//" apart),
    [NormalizePath] returns a path that starts with "/", has no trailing
    slash unless it is exactly "/", and is left unchanged by a second
    application. *)
Theorem NormalizePath_normal_form (p : string) :
  strings.HasSuffix p "//" = false \/ p = "//" ->
  strings.HasPrefix (NormalizePath p) "/" = true
  /\ (NormalizePath p = "/" \/ strings.HasSuffix (NormalizePath p) "/" = false)
  /\ NormalizePath (NormalizePath p) = NormalizePath p.
Proof.
  intros H.
  pose proof (NormalizePath_leading_slash p) as Hp.
  pose proof (NormalizePath_shape p H) as Hs.
  split; [done|]. split; [done|].
  by apply NormalizePath_fixed.
Qed.

Lemma NormalizePath_normal_form_witness :
  (strings.HasSuffix "docs/api/" "//" = false \/ "docs/api/" = "//")
  /\ strings.HasPrefix (NormalizePath "docs/api/") "/" = true
  /\ (NormalizePath "docs/api/" = "/"
      \/ strings.HasSuffix (NormalizePath "docs/api/") "/" = false)
  /\ NormalizePath (NormalizePath "docs/api/") = NormalizePath "docs/api/".
Proof.
  split; [left; reflexivity|].
  apply (NormalizePath_normal_form "docs/api/"). left; reflexivity.
Defined.


(** ** page.go: link normalisation and deduplication *)

Section LinkFacts.

Lemma IndexByte_slice_none (s : string) (c : ascii) (i : nat) :
  strings.IndexByte s c = Some i ->
  strings.IndexByte (strings.slice s 0 i) c = None.
Proof.
  unfold strings.slice. revert i.
  induction s as [|a s IH]; intros i H; simpl in *; [done|].
  destruct (Ascii.eqb a c) eqn:Hac.
  - injection H as <-. done.
  - destruct (strings.IndexByte s c) as [j|] eqn:Hj; [|done].
    injection H as <-. simpl. rewrite Hac.
    specialize (IH j eq_refl). rewrite Nat.sub_0_r in IH. by rewrite IH.
Qed.

Lemma without_fragment_idem (raw : string) :
  without_fragment (without_fragment raw) = without_fragment raw.
Proof.
  unfold without_fragment, strings.Cut.
  destruct (strings.IndexByte raw "#") as [i|] eqn:Hi; simpl.
  - by rewrite (IndexByte_slice_none _ _ _ Hi).
  - by rewrite Hi.
Qed.

Lemma normalizeURL_cut (p : Page.t) (raw : string) :
  normalizeURL p raw =
  let cut := without_fragment raw in
  if String.eqb cut "" || strings.HasPrefix cut "javascript:" then None
  else option_map (fun r => scheme_or_https (resolved_against (Page.URL p) r))
         (url.Parse cut).
Proof.
  unfold normalizeURL, without_fragment, strings.Cut.
  unfold scheme_or_https, resolved_against.
  destruct (strings.IndexByte raw "#"); simpl;
    (destruct (_ || _); [done|]);
    (destruct (url.Parse _) as [r|]; [|done]); simpl;
    by destruct (url.IsAbs r).
Qed.

Lemma scheme_or_https_scheme (r : url.URL) :
  url.Scheme (scheme_or_https r) <> "".
Proof.
  unfold scheme_or_https.
  destruct (String.eqb_spec (url.Scheme r) ""); simpl; done.
Qed.

Lemma without_fragment_javascript (s : string) :
  without_fragment ("javascript:" ++ s) = "javascript:" ++ without_fragment s.
Proof.
  unfold without_fragment, strings.Cut.
  change ("javascript:" ++ s) with
    (String "j" (String "a" (String "v" (String "a" (String "s" (String "c"
      (String "r" (String "i" (String "p" (String "t" (String ":" s))))))))))).
  cbn [strings.IndexByte Ascii.eqb Bool.eqb].
  destruct (strings.IndexByte s "#") as [i|]; [|done].
  unfold strings.slice. simpl. by rewrite !Nat.sub_0_r.
Qed.

Lemma filter_key_notin_cons (k : string) (X : gset string) (l : list url.URL) :
  filter (fun v => url.String v ∉ ({[k]} ∪ X)) l
  = filter (fun v => url.String v ∉ X) (filter (fun v => url.String v <> k) l).
Proof.
  rewrite list_filter_filter. apply list_filter_iff. intros v. set_solver.
Qed.

Lemma filter_key_in_drop (k : string) (X : gset string) (l : list url.URL) :
  k ∈ X ->
  filter (fun v => url.String v ∉ X) (filter (fun v => url.String v <> k) l)
  = filter (fun v => url.String v ∉ X) l.
Proof.
  intros Hk. rewrite list_filter_filter. apply list_filter_iff.
  intros v. split; [by intros [? _]|]. intros Hv. split; [done|].
  intros <-. done.
Qed.

Lemma uniqueURLs_from_spec (urls : list url.URL) (X : gset string)
    (unique : list url.URL) :
  uniqueURLs_from urls X unique
  = (unique ++ filter (fun v => url.String v ∉ X) (first_occurrences urls))%list.
Proof.
  revert X unique. induction urls as [|u rest IH]; intros X unique; simpl.
  - by rewrite app_nil_r.
  - case_bool_decide as Hin.
    + rewrite IH. f_equal. rewrite filter_cons_False by (intros H; done).
      by rewrite filter_key_in_drop.
    + rewrite IH. rewrite filter_cons_True by done.
      rewrite <- app_assoc. simpl. do 2 f_equal.
      apply filter_key_notin_cons.
Qed.

Lemma uniqueURLs_first_occurrences (urls : list url.URL) :
  uniqueURLs urls = first_occurrences urls.
Proof.
  unfold uniqueURLs. rewrite uniqueURLs_from_spec. simpl.
  induction (first_occurrences urls) as [|v l IH]; [done|].
  rewrite filter_cons_True by set_solver. by rewrite IH.
Qed.

Lemma first_occurrences_elem (urls : list url.URL) (u : url.URL) :
  u ∈ first_occurrences urls -> u ∈ urls.
Proof.
  induction urls as [|v rest IH]; simpl; [done|].
  intros H. apply elem_of_cons in H as [->|H]; [left|].
  apply list_elem_of_filter in H as [_ H]. right. auto.
Qed.

Lemma first_occurrences_NoDup (urls : list url.URL) :
  NoDup (map url.String (first_occurrences urls)).
Proof.
  induction urls as [|u rest IH]; simpl; [constructor|].
  constructor.
  - intros H. apply list_elem_of_fmap in H as (v & Hv & Hin).
    apply list_elem_of_filter in Hin as [Hne _]. congruence.
  - revert IH. generalize (first_occurrences rest). intros l.
    induction l as [|v l IHl]; intros Hnd; simpl; [constructor|].
    inversion Hnd as [|? ? Hnotin Hnd']; subst.
    destruct (decide (url.String v <> url.String u)).
    + rewrite filter_cons_True by done. simpl. constructor; [|auto].
      intros H. apply Hnotin.
      apply list_elem_of_fmap in H as (x & Hx & Hin).
      apply list_elem_of_filter in Hin as [_ Hin].
      apply list_elem_of_fmap. eauto.
    + rewrite filter_cons_False by done. auto.
Qed.

Lemma first_occurrences_complete (urls : list url.URL) (u : url.URL) :
  u ∈ urls -> url.String u ∈ map url.String (first_occurrences urls).
Proof.
  induction urls as [|v rest IH]; simpl; [by intros H; inversion H|].
  intros H. destruct (decide (url.String u = url.String v)) as [->|Hne].
  - left.
  - right. apply elem_of_cons in H as [->|H]; [done|].
    specialize (IH H). apply list_elem_of_fmap in IH as (x & Hx & Hin).
    apply list_elem_of_fmap. exists x. split; [done|].
    apply list_elem_of_filter. split; [congruence|done].
Qed.

End LinkFacts.

(** C8 as stated fails: a reference that starts with "/" replaces the whole
    path of the page, so "/relative/path" found on https://example.com/a/ is
    https://example.com/relative/path; and a reference without a scheme
    takes the scheme of the page, here http, before "https" is considered. *)
Lemma normalizeURL_absolute_path_counterexample :
  url.Parse "https://example.com/a/" = Some https_example_a
  /\ option_map url.String
       (normalizeURL (NewPage https_example_a 0) "/relative/path")
     = Some "https://example.com/relative/path"
  /\ option_map url.String
       (normalizeURL (NewPage https_example_a 0) "/relative/path")
     <> Some "https://example.com/a/relative/path"
  /\ option_map url.String
       (normalizeURL (NewPage http_example_root 0) "//example.com/x")
     = Some "http://example.com/x".
Proof. vm_compute. repeat split; discriminate. Qed.

(** C8 (amended): for every page and every extracted reference, only the
    part before the first "#" matters; an empty reference and a javascript:
    reference give no link; any other reference that parses gives the parsed
    URL when it has a scheme and otherwise its resolution against the page's
    own URL, with "https" filled in only if the scheme is still empty, so
    every link has a scheme ("relative/path" on https://example.com/a/ is
    https://example.com/a/relative/path, "/relative/path" is
    https://example.com/relative/path); and the link list of a page keeps
    the first occurrence of every URL string, in order, without duplicates. *)
Theorem normalizeURL_uniqueURLs_spec (p : Page.t) (raw : string) :
  normalizeURL p raw = normalizeURL p (without_fragment raw)
  /\ normalizeURL p "" = None
  /\ (forall s, normalizeURL p ("javascript:" ++ s) = None)
  /\ (forall u, normalizeURL p raw = Some u ->
        url.Scheme u <> ""
        /\ exists r, url.Parse (without_fragment raw) = Some r
           /\ u = scheme_or_https (resolved_against (Page.URL p) r))
  /\ option_map url.String
       (normalizeURL (NewPage https_example_a 0) "relative/path")
     = Some "https://example.com/a/relative/path"
  /\ option_map url.String
       (normalizeURL (NewPage https_example_a 0) "/relative/path#top")
     = Some "https://example.com/relative/path"
  /\ (forall urls,
        uniqueURLs urls = first_occurrences urls
        /\ NoDup (map url.String (uniqueURLs urls))
        /\ (forall u, u ∈ uniqueURLs urls -> u ∈ urls)
        /\ (forall u, u ∈ urls ->
              url.String u ∈ map url.String (uniqueURLs urls)))
  /\ (forall env u d,
        NoDup (map url.String (Page.Links (fst (Process env (NewPage u d)))))).
Proof.
  split.
  { rewrite !normalizeURL_cut. by rewrite without_fragment_idem. }
  split; [done|].
  split.
  { intros s. rewrite normalizeURL_cut. cbv zeta.
    rewrite without_fragment_javascript.
    assert (strings.HasPrefix ("javascript:" ++ without_fragment s)
              "javascript:" = true) as ->
      by (apply HasPrefix_spec; eauto).
    by rewrite orb_true_r. }
  split.
  { intros u. rewrite normalizeURL_cut. cbv zeta.
    destruct (_ || _); [done|].
    destruct (url.Parse (without_fragment raw)) as [r|]; [|done].
    simpl. intros [= <-]. split; [apply scheme_or_https_scheme|eauto]. }
  split; [by vm_compute|]. split; [by vm_compute|].
  split.
  { intros urls. rewrite uniqueURLs_first_occurrences.
    split; [done|]. split; [apply first_occurrences_NoDup|].
    split; [apply first_occurrences_elem|apply first_occurrences_complete]. }
  intros env u d. unfold Process, NewPage. simpl.
  destruct (Do env (url.String u)) as [| |status lastMod body]; simpl;
    try constructor.
  destruct (negb (status =? StatusOK)%Z); simpl; [constructor|].
  unfold parseHTML. destruct body as [doc|]; simpl; [|constructor].
  rewrite uniqueURLs_first_occurrences. apply first_occurrences_NoDup.
Qed.


(** ** queue.go: the frontier *)

Section QueueFacts.

Lemma Push_cons (u : url.URL) (urls : list url.URL) (d : Z) (q : URLQueue) :
  Push (u :: urls) d q = Push urls d (push_one d q u).
Proof. done. Qed.

Lemma push_one_baseHost d q u : baseHost (push_one d q u) = baseHost q.
Proof.
  unfold push_one. case_bool_decide; [done|].
  by destruct (negb _).
Qed.

Lemma Push_baseHost urls d q : baseHost (Push urls d q) = baseHost q.
Proof.
  revert q. induction urls as [|u urls IH]; intros q; [done|].
  rewrite Push_cons, IH. apply push_one_baseHost.
Qed.

Lemma push_one_admits d q u :
  admits q u ->
  push_one d q u
  = mkURLQueue (queue q ++ [QueueItem.mk u d]) ({[url.String u]} ∪ seen q)
      (baseHost q).
Proof.
  intros [Hs Hh]. unfold push_one.
  rewrite bool_decide_eq_false_2 by done.
  rewrite Hh, String.eqb_refl. done.
Qed.

Lemma push_one_rejects d q u : ~ admits q u -> push_one d q u = q.
Proof.
  intros Hn. unfold push_one. case_bool_decide as Hs; [done|].
  destruct (String.eqb_spec (url.Host u) (baseHost q)) as [Hh|Hh]; [|done].
  exfalso. apply Hn. by split.
Qed.

Lemma first_occurrences_filter_ne (k : string) (l : list url.URL) :
  first_occurrences (filter (fun v => url.String v <> k) l)
  = filter (fun v => url.String v <> k) (first_occurrences l).
Proof.
  induction l as [|v l IH]; [done|].
  destruct (decide (url.String v <> k)) as [Hv|Hv].
  - rewrite filter_cons_True by done. simpl.
    rewrite filter_cons_True by done. f_equal.
    rewrite IH, !list_filter_filter. apply list_filter_iff. tauto.
  - rewrite filter_cons_False by done. simpl.
    rewrite filter_cons_False by done. rewrite IH.
    rewrite list_filter_filter. apply list_filter_iff.
    intros x. assert (url.String v = k) as -> by (by destruct (decide (url.String v = k))).
    tauto.
Qed.

Lemma filter_admits_push (q : URLQueue) (u : url.URL) (d : Z)
    (l : list url.URL) :
  admits q u ->
  filter (admits (push_one d q u)) l
  = filter (fun v => url.String v <> url.String u) (filter (admits q) l).
Proof.
  intros Hu. rewrite list_filter_filter. apply list_filter_iff.
  intros v. rewrite (push_one_admits _ _ _ Hu). unfold admits. simpl.
  set_solver.
Qed.

(** The queue after [Push]: the admitted URLs are appended in input order,
    each string once. *)
Lemma Push_queue (urls : list url.URL) (d : Z) (q : URLQueue) :
  queue (Push urls d q)
  = (queue q
     ++ map (fun u => QueueItem.mk u d)
          (first_occurrences (filter (admits q) urls)))%list.
Proof.
  revert q. induction urls as [|u urls IH]; intros q.
  - simpl. by rewrite app_nil_r.
  - rewrite Push_cons, IH. destruct (decide (admits q u)) as [Hu|Hu].
    + rewrite filter_cons_True by done. simpl.
      rewrite (filter_admits_push _ _ _ _ Hu), first_occurrences_filter_ne.
      rewrite (push_one_admits _ _ _ Hu). simpl.
      by rewrite <- app_assoc.
    + rewrite filter_cons_False by done.
      by rewrite (push_one_rejects _ _ _ Hu).
Qed.

Lemma Push_seen (urls : list url.URL) (d : Z) (q : URLQueue) (s : string) :
  s ∈ seen (Push urls d q)
  <-> s ∈ seen q
      \/ exists u, u ∈ urls /\ url.String u = s /\ url.Host u = baseHost q.
Proof.
  revert q. induction urls as [|u urls IH]; intros q.
  - simpl. split; [by left|]. intros [H|(u & Hu & _)]; [done|].
    by apply elem_of_nil in Hu.
  - rewrite Push_cons, IH, push_one_baseHost.
    destruct (decide (admits q u)) as [Hu|Hu].
    + rewrite (push_one_admits _ _ _ Hu). simpl. destruct Hu as [Hs Hh].
      split.
      * intros [H|(v & Hv & Hk & Hhv)].
        -- apply elem_of_union in H as [H|H]; [|by left].
           apply elem_of_singleton in H as ->. right. exists u.
           split; [left|done].
        -- right. exists v. split; [by right|done].
      * intros [H|(v & Hv & Hk & Hhv)]; [left; set_solver|].
        apply elem_of_cons in Hv as [->|Hv].
        -- left. set_solver.
        -- right. eauto.
    + rewrite (push_one_rejects _ _ _ Hu). split.
      * intros [H|(v & Hv & Hk & Hhv)]; [by left|].
        right. exists v. split; [by right|done].
      * intros [H|(v & Hv & Hk & Hhv)]; [by left|].
        apply elem_of_cons in Hv as [->|Hv]; [|right; eauto].
        left. destruct (decide (url.String u ∈ seen q)) as [Hin|Hin];
          [by rewrite <- Hk|].
        exfalso. apply Hu. by split.
Qed.

Lemma Push_seen_mono urls d q : seen q ⊆ seen (Push urls d q).
Proof. intros s Hs. apply Push_seen. by left. Qed.

Lemma keys_filter_ne (k : string) (l : list url.URL) :
  ({[k]} ∪ list_to_set
             (map url.String (filter (fun v => url.String v <> k) l)) : gset string)
  = {[k]} ∪ list_to_set (map url.String l).
Proof.
  induction l as [|v l IH]; [done|].
  destruct (decide (url.String v <> k)) as [Hv|Hv].
  - rewrite filter_cons_True by done. simpl. set_solver.
  - rewrite filter_cons_False by done. simpl.
    assert (url.String v = k) as ->
      by (by destruct (decide (url.String v = k))).
    set_solver.
Qed.

(** The seen set after [Push] is the old one plus the keys of the items
    that were appended. *)
Lemma Push_seen_new (urls : list url.URL) (d : Z) (q : URLQueue) :
  seen (Push urls d q)
  = list_to_set (map url.String (first_occurrences (filter (admits q) urls)))
    ∪ seen q.
Proof.
  revert q. induction urls as [|u urls IH]; intros q.
  - simpl. set_solver.
  - rewrite Push_cons, IH. destruct (decide (admits q u)) as [Hu|Hu].
    + rewrite filter_cons_True by done. simpl.
      rewrite (filter_admits_push _ _ _ _ Hu), first_occurrences_filter_ne.
      rewrite (push_one_admits _ _ _ Hu). simpl.
      pose proof (keys_filter_ne (url.String u)
                    (first_occurrences (filter (admits q) urls))) as Hk.
      set_solver.
    + rewrite filter_cons_False by done.
      by rewrite (push_one_rejects _ _ _ Hu).
Qed.

Lemma Push_seen_noop (urls : list url.URL) (d : Z) (q : URLQueue) :
  (forall u, u ∈ urls -> ~ admits q u) -> Push urls d q = q.
Proof.
  revert q. induction urls as [|u urls IH]; intros q H; [done|].
  rewrite Push_cons, push_one_rejects by (apply H; left).
  apply IH. intros v Hv. apply H. by right.
Qed.

Lemma Push_twice (urls : list url.URL) (d d' : Z) (q : URLQueue) :
  Push urls d' (Push urls d q) = Push urls d q.
Proof.
  apply Push_seen_noop. intros u Hu [Hs Hh]. apply Hs.
  apply Push_seen. rewrite Push_baseHost in Hh. right. eauto.
Qed.

End QueueFacts.

(** C2 as stated fails: [Push] lets in a URL of the base host that the
    Admission Policy rejects, here an image. *)
Lemma Push_admits_image_counterexample :
  IsValid (mkURLValidator https_example_a [] []) example_logo = false
  /\ queue (Push [example_logo] 1 (NewURLQueue https_example_a))
     = [QueueItem.mk example_logo 1]
  /\ elements (seen (Push [example_logo] 1 (NewURLQueue https_example_a)))
     = ["https://example.com/logo.png"].
Proof. by vm_compute. Qed.

(** C2 (amended): for every batch of candidate URLs and depth, [Push] marks a
    URL seen and appends it as an item of the given depth if and only if its
    string is not in the seen set yet (earlier URLs of the batch included)
    and its host equals the base host; nothing else of the Admission Policy
    is consulted at admission. *)
Theorem Push_admission (urls : list url.URL) (d : Z) (q : URLQueue) :
  queue (Push urls d q)
  = (queue q
     ++ map (fun u => QueueItem.mk u d)
          (first_occurrences (filter (admits q) urls)))%list
  /\ seen (Push urls d q)
     = list_to_set
         (map url.String (first_occurrences (filter (admits q) urls)))
       ∪ seen q
  /\ baseHost (Push urls d q) = baseHost q
  /\ forall u,
       ((url.String u ∉ seen q) /\ url.Host u = baseHost q ->
        Push [u] d q
        = mkURLQueue (queue q ++ [QueueItem.mk u d])
            ({[url.String u]} ∪ seen q) (baseHost q))
       /\ (~ ((url.String u ∉ seen q) /\ url.Host u = baseHost q) ->
           Push [u] d q = q).
Proof.
  split; [apply Push_queue|]. split; [apply Push_seen_new|].
  split; [apply Push_baseHost|]. intros u. split; intros H.
  - apply (push_one_admits d q u H).
  - apply (push_one_rejects d q u H).
Qed.


(** ** page.go: [Process] *)

(** C9 as stated fails: a [Last-Modified] header that is present and parses,
    but to Go's zero time, is replaced by the current time. *)
Lemma Process_zero_date_counterexample :
  time_Parse_RFC1123 zero_date_world zero_date = Some 0%Z
  /\ Do zero_date_world (url.String example_root)
     = Response 200 zero_date (Some (anchors []))
  /\ Page.LastModified (fst (Process zero_date_world (NewPage example_root 0)))
     = time_Now zero_date_world
  /\ time_Now zero_date_world <> 0%Z.
Proof. by vm_compute. Qed.

(** C9 (amended): for every page fetched with final status 200, the page's
    [LastModified] (which the worker copies into the Result) is the value
    parsed from the [Last-Modified] header when the header is present and
    parses to a time other than the zero time; when the header is absent,
    does not parse, or parses to the zero time, it is the current time. *)
Theorem Process_LastModified (env : Env) (u : url.URL) (d : Z)
    (lastMod : string) (body : option Node) :
  Do env (url.String u) = Response StatusOK lastMod body ->
  let page := fst (Process env (NewPage u d)) in
  (forall t, lastMod <> "" -> time_Parse_RFC1123 env lastMod = Some t ->
             t <> 0%Z -> Page.LastModified page = t)
  /\ (lastMod = "" \/ time_Parse_RFC1123 env lastMod = None
      \/ time_Parse_RFC1123 env lastMod = Some 0%Z ->
      Page.LastModified page = time_Now env).
Proof.
  intros HDo page. subst page. unfold Process, NewPage. simpl. rewrite HDo.
  simpl. split.
  - intros t Hne Hp Ht.
    destruct (String.eqb_spec lastMod ""); [done|]. simpl. rewrite Hp.
    unfold IsZero. destruct (Z.eqb_spec t 0); [done|].
    by destruct body.
  - intros H.
    assert ((if negb (lastMod =? "")%string
             then match time_Parse_RFC1123 env lastMod with
                  | Some t => t
                  | None => 0%Z
                  end
             else 0%Z) = 0%Z) as ->.
    { destruct H as [->|[->| ->]]; [done| |]; by destruct (negb _). }
    simpl. by destruct body.
Qed.

Lemma Process_LastModified_witness :
  Do (world [("https://example.com/", ["/a"])]) (url.String example_root)
  = Response StatusOK "" (Some (anchors ["/a"]))
  /\ Page.LastModified
       (fst (Process (world [("https://example.com/", ["/a"])])
               (NewPage example_root 0)))
     = time_Now (world [("https://example.com/", ["/a"])]).
Proof.
  split; [reflexivity|].
  apply (Process_LastModified (world [("https://example.com/", ["/a"])])
           example_root 0 "" (Some (anchors ["/a"])) eq_refl).
  left. reflexivity.
Defined.

(** C6, evaluated where the code departs from it: the page answers 404, the
    fetch is an error that carries 404 and the body is not parsed (the page
    has no links), but the Result that is sent has [StatusCode] 200. *)
Lemma Result_StatusCode_on_404 :
  let env := world [] in
  let item := QueueItem.mk example_root 0 in
  let c := set_worker 0 (Fetching item) (Start (example_crawler 1 1)) in
  Do env (url.String example_root)
  = Response 404 "" (Some (anchors ["/never-parsed"]))
  /\ exists r c',
       worker_step env 0 c = Some (EvResult 0 item r, c')
       /\ Result.Error r = Some (ErrStatusCode 404)
       /\ workers c' = [Emitted item (NewPage example_root 0)
                          (Some (ErrStatusCode 404))]
       /\ Result.StatusCode r = 200%Z
       /\ Result.StatusCode r <> 404%Z.
Proof.
  split; [reflexivity|].
  eexists _, _. split; [vm_compute; reflexivity|]. by vm_compute.
Qed.


(** ** crawler.go: the steps of a worker *)

Section StepFacts.

Context (env : Env).

Lemma step_cases (c : Crawler) (ev : Event) (c' : Crawler) :
  step env c ev c' <-> step_case env c ev c'.
Proof.
  split.
  - intros [w c1 ev1 c1' H | c1 H]; [|by constructor].
    unfold worker_step in H.
    destruct (workers c1 !! w) as [[|item|item page err|]|] eqn:Hw;
      try discriminate.
    + destruct (ctx_done c1) eqn:Hd.
      { injection H as <- <-. constructor; auto. }
      unfold Pop in H. destruct (queue (q c1)) as [|item rest] eqn:Hq.
      { injection H as <- <-. constructor; auto. }
      destruct (IsValid (validator c1) (QueueItem.URL item)) eqn:Hv; simpl in H.
      * destruct (Z.ltb_spec (Config.MaxDepth (config c1))
                    (QueueItem.Depth item)).
        -- injection H as <- <-. econstructor; eauto.
        -- injection H as <- <-. econstructor; eauto.
      * injection H as <- <-. econstructor; eauto.
    + unfold result_of.
      destruct (Process env _) as [page err] eqn:Hp.
      injection H as <- <-.
      pose proof (case_result env c1 w item page err Hw Hp) as Hc.
      unfold result_of in Hc. by rewrite Hp in Hc.
    + destruct err as [e|]; injection H as <- <-; econstructor; eauto.
  - intros H. destruct H; try (by constructor);
      apply (step_worker env w); unfold worker_step;
      repeat match goal with Hw : workers _ !! _ = Some _ |- _ =>
                               rewrite Hw; clear Hw end; try done.
    + destruct H0 as [-> | Hq]; [done|].
      destruct (ctx_done c); [done|]. unfold Pop. by rewrite Hq.
    + rewrite H0. unfold Pop. rewrite H1.
      destruct H2 as [-> | Hd]; [done|].
      destruct (negb _); [done|].
      by destruct (Z.ltb_spec (Config.MaxDepth (config c))
                     (QueueItem.Depth item)); [|lia].
    + rewrite H0. unfold Pop. rewrite H1, H2. simpl.
      by destruct (Z.ltb_spec (Config.MaxDepth (config c))
                     (QueueItem.Depth item)); [lia|].
    + unfold result_of. by rewrite H0.
Qed.

Lemma run_cons (c : Crawler) (ev : Event) (c1 : Crawler) (tr : list Event)
    (c' : Crawler) :
  step env c ev c1 -> run env c1 tr c' -> run env c (ev :: tr) c'.
Proof.
  intros Hs Hr. induction Hr as [|tr c2 ev2 c3 Hr IH Hs2].
  - apply (run_snoc env c [] c ev c1); [constructor|done].
  - change (ev :: tr ++ [ev2])%list with ((ev :: tr) ++ [ev2])%list.
    by apply (run_snoc env c (ev :: tr) c2).
Qed.

(** Following a schedule is a run. *)
Lemma exec_run (sched : list (option nat)) (c : Crawler) :
  run env c (fst (exec env sched c)) (snd (exec env sched c)).
Proof.
  revert c. induction sched as [|[w|] sched IH]; intros c; simpl.
  - constructor.
  - destruct (worker_step env w c) as [[ev c1]|] eqn:Hw; [|apply IH].
    specialize (IH c1). destruct (exec env sched c1) as [tr c']. simpl in *.
    apply (run_cons c ev c1); [|done]. by apply (step_worker env w).
  - destruct (ctx_done c) eqn:Hd; [apply IH|].
    specialize (IH (cancel c)).
    destruct (exec env sched (cancel c)) as [tr c']. simpl in *.
    apply (run_cons c EvCancel (cancel c)); [|done]. by constructor.
Qed.

End StepFacts.

(** ** crawler.go: what every crawl keeps true *)

Section TraceFacts.

Lemma results_of_snoc tr ev :
  results_of (tr ++ [ev])
  = (results_of tr
     ++ match ev with EvResult _ _ r => [r] | _ => [] end)%list.
Proof. unfold results_of. rewrite omap_app. by destruct ev. Qed.

Lemma resulted_of_snoc tr ev :
  resulted_of (tr ++ [ev])
  = (resulted_of tr
     ++ match ev with EvResult _ it _ => [it] | _ => [] end)%list.
Proof. unfold resulted_of. rewrite omap_app. by destruct ev. Qed.

Lemma fetched_of_snoc tr ev :
  fetched_of (tr ++ [ev])
  = (fetched_of tr ++ match ev with EvFetch _ it => [it] | _ => [] end)%list.
Proof. unfold fetched_of. rewrite omap_app. by destruct ev. Qed.

Lemma skipped_of_snoc tr ev :
  skipped_of (tr ++ [ev])
  = (skipped_of tr ++ match ev with EvSkip _ it => [it] | _ => [] end)%list.
Proof. unfold skipped_of. rewrite omap_app. by destruct ev. Qed.

Lemma bind_insert (f : Worker -> list QueueItem.t) (ws : list Worker)
    (w : nat) (old new : Worker) :
  ws !! w = Some old ->
  exists R, ws ≫= f ≡ₚ (f old ++ R)%list
            /\ <[w:=new]> ws ≫= f ≡ₚ (f new ++ R)%list.
Proof.
  revert w. induction ws as [|x ws IH]; intros w Hw; [done|].
  destruct w as [|w]; simpl in Hw.
  - injection Hw as ->. exists (ws ≫= f).
    change (<[0:=new]> (old :: ws)) with (new :: ws). by rewrite !bind_cons.
  - destruct (IH w Hw) as (R & H1 & H2). exists (f x ++ R)%list.
    change (<[S w:=new]> (x :: ws)) with (x :: <[w:=new]> ws).
    rewrite !bind_cons, H1, H2. split; solve_Permutation.
Qed.

Lemma int_wrap_range (z : Z) : (- 2 ^ 63 <= int_wrap z < 2 ^ 63)%Z.
Proof.
  unfold int_wrap.
  pose proof (Z.mod_pos_bound (z + 2 ^ 63) (2 ^ 64) ltac:(lia)). lia.
Qed.

Lemma int_wrap_le (z : Z) : (- 2 ^ 63 <= z -> int_wrap z <= z)%Z.
Proof.
  intros H. unfold int_wrap.
  pose proof (Z.mod_le (z + 2 ^ 63) (2 ^ 64) ltac:(lia) ltac:(lia)). lia.
Qed.

Lemma int_add_1_small (d : Z) :
  (0 <= d < 2 ^ 63 - 1 -> int_add d 1 = d + 1)%Z.
Proof.
  intros H. unfold int_add, int_wrap. rewrite Z.mod_small; lia.
Qed.

Lemma sum_list_append (l1 l2 : list nat) :
  sum_list (l1 ++ l2) = sum_list l1 + sum_list l2.
Proof. induction l1 as [|x l1 IH]; simpl; lia. Qed.

Lemma sum_weight_insert (ws : list Worker) (w : nat) (old new : Worker) :
  ws !! w = Some old ->
  sum_list (map weight (<[w:=new]> ws)) + weight old
  = sum_list (map weight ws) + weight new.
Proof.
  revert w. induction ws as [|x ws IH]; intros w Hw; [done|].
  destruct w as [|w]; simpl in *.
  - injection Hw as ->. lia.
  - specialize (IH w Hw). lia.
Qed.

Lemma elements_list_union (K : list string) (X : gset string) :
  NoDup K -> (forall k, k ∈ K -> k ∉ X) ->
  elements (list_to_set K ∪ X) ≡ₚ (K ++ elements X)%list.
Proof.
  induction K as [|k K IH]; intros Hnd Hdis; simpl.
  - by rewrite (left_id_L ∅ (∪)).
  - inversion Hnd as [|? ? Hk Hnd']; subst.
    rewrite <- (assoc_L (∪)).
    rewrite elements_union_singleton.
    + rewrite IH; [done|done|]. intros k' Hk'. apply Hdis. by right.
    + intros Hin. apply elem_of_union in Hin as [Hin|Hin].
      * apply elem_of_list_to_set in Hin. done.
      * apply (Hdis k); [left|done].
Qed.

Lemma size_difference_list_union (V : gset string) (K : list string)
    (X : gset string) :
  NoDup K -> (forall k, k ∈ K -> k ∈ V /\ (k ∉ X)) ->
  size (V ∖ (list_to_set K ∪ X)) + length K = size (V ∖ X).
Proof.
  revert X. induction K as [|k K IH]; intros X Hnd HK; simpl.
  - rewrite (left_id_L ∅ (∪)). lia.
  - inversion Hnd as [|? ? Hk Hnd']; subst.
    destruct (HK k) as [HkV HkX]; [left|].
    replace ({[k]} ∪ list_to_set K ∪ X) with (list_to_set K ∪ ({[k]} ∪ X))
      by set_solver.
    specialize (IH ({[k]} ∪ X) Hnd').
    assert (size (V ∖ ({[k]} ∪ X)) + 1 = size (V ∖ X)) as Hone.
    { assert (V ∖ X = {[k]} ∪ V ∖ ({[k]} ∪ X)) as ->.
      { apply set_eq. intros x. destruct (decide (x = k)); set_solver. }
      pose proof (size_union (C := gset string) {[k]} (V ∖ ({[k]} ∪ X)))
        as Hsz.
      rewrite Hsz by set_solver. rewrite size_singleton. lia. }
    rewrite <- Hone, <- IH; [lia|].
    intros k' Hk'. destruct (HK k') as [? ?]; [by right|].
    split; [done|]. intros Hin. apply elem_of_union in Hin as [Hin|Hin].
    + apply elem_of_singleton in Hin as ->. done.
    + done.
Qed.

End TraceFacts.

Section CrawlInvariant.

Context (env : Env) (cfg : Config.t) (c0 : Crawler) (base : url.URL).
Hypothesis Hnew : NewCrawler env cfg = Some c0.
Hypothesis Hbase : Config.BaseURL cfg = Some base.

Lemma NewCrawler_fields :
  Validate cfg = None /\ config c0 = cfg /\ q c0 = NewURLQueue base
  /\ workers c0 = [] /\ ctx_done c0 = false
  /\ baseURL (validator c0) = base.
Proof.
  unfold NewCrawler in Hnew. rewrite Hbase in Hnew.
  destruct (Validate cfg); [done|].
  destruct (NewURLValidator _ _ _ _) as [v|] eqn:Hv; [|done].
  injection Hnew as <-. simpl. repeat split; try done.
  unfold NewURLValidator in Hv.
  destruct (compile_all _ _); [|done]. destruct (compile_all _ _); [|done].
  by injection Hv as <-.
Qed.

Lemma MaxConcurrent_pos : (1 <= Config.MaxConcurrent cfg)%Z.
Proof.
  destruct NewCrawler_fields as (Hv & _). unfold Validate in Hv.
  rewrite Hbase in Hv.
  destruct (Config.MaxDepth cfg <? 0)%Z; [done|].
  destruct (Z.ltb_spec (Config.MaxConcurrent cfg) 1); [done|lia].
Qed.

Lemma MaxDepth_nonneg : (0 <= Config.MaxDepth cfg)%Z.
Proof.
  destruct NewCrawler_fields as (Hv & _). unfold Validate in Hv.
  rewrite Hbase in Hv.
  destruct (Z.ltb_spec (Config.MaxDepth cfg) 0); [done|lia].
Qed.

Lemma Start_fields :
  config (Start c0) = cfg
  /\ validator (Start c0) = validator c0
  /\ q (Start c0)
     = mkURLQueue [QueueItem.mk base 0] ({[url.String base]} ∪ ∅)
         (url.Host base)
  /\ workers (Start c0)
     = replicate (Z.to_nat (Config.MaxConcurrent cfg)) Idle
  /\ ctx_done (Start c0) = false.
Proof.
  destruct NewCrawler_fields as (_ & Hc & Hq & _ & Hd & _).
  unfold Start. simpl. rewrite Hc, Hbase, Hq, Hd.
  repeat split; try done.
  unfold Push, NewURLQueue. simpl. unfold push_one. simpl.
  rewrite bool_decide_eq_false_2 by set_solver.
  by rewrite String.eqb_refl.
Qed.

Lemma inflight_replicate_Idle (n : nat) : replicate n Idle ≫= fetching = [].
Proof. induction n as [|n IH]; [done|]. simpl replicate. by rewrite bind_cons. Qed.

Lemma crawl_inv_Start : crawl_inv env cfg c0 base [] (Start c0).
Proof.
  destruct Start_fields as (Hc & Hv & Hq & Hw & Hd).
  constructor; unfold admitted, inflight; rewrite ?Hq, ?Hw; try done.
  - simpl. set_solver.
  - simpl. rewrite elements_union_singleton by set_solver.
    by rewrite elements_empty.
  - by rewrite inflight_replicate_Idle.
  - intros w it page err H. apply lookup_replicate in H as [? _]. done.
  - intros it H. by apply elem_of_nil in H.
  - intros it H. by apply elem_of_nil in H.
  - intros it H. left. simpl in H. by apply list_elem_of_singleton in H.
  - intros it l H. by apply elem_of_nil in H.
  - intros _ _. exists 0, Idle. split; [|done].
    apply lookup_replicate. split; [done|].
    pose proof MaxConcurrent_pos. lia.
  - simpl. left.
  - intros _ it H. simpl in H. by apply list_elem_of_singleton in H as ->.
Qed.

#[local] Abbreviation Inv := (crawl_inv env cfg c0 base).

Ltac snoc_trace :=
  unfold admitted, inflight;
  rewrite ?results_of_snoc, ?resulted_of_snoc, ?fetched_of_snoc,
    ?skipped_of_snoc;
  cbn [q workers config validator ctx_done cancel set_worker set_q
       count_stats queue seen baseHost];
  rewrite ?app_nil_r.

Ltac snoc_trace_in H :=
  unfold admitted, inflight in H;
  rewrite ?results_of_snoc, ?resulted_of_snoc, ?fetched_of_snoc,
    ?skipped_of_snoc in H;
  cbn [q workers config validator ctx_done cancel set_worker set_q
       count_stats queue seen baseHost] in H;
  rewrite ?app_nil_r in H.

Lemma inv_after_cancel tr c :
  Inv tr c -> ctx_done c = false -> Inv (tr ++ [EvCancel]) (cancel c).
Proof.
  intros [] Hd. constructor; snoc_trace; try done.
Qed.

Lemma lookup_insert_Emitted (ws : list Worker) (w w' : nat) (new : Worker)
    it page err :
  <[w:=new]> ws !! w' = Some (Emitted it page err) ->
  (w = w' /\ new = Emitted it page err)
  \/ (w <> w' /\ ws !! w' = Some (Emitted it page err)).
Proof.
  intros H. apply list_lookup_insert_Some in H as [(-> & -> & _)|(? & ?)];
    auto.
Qed.

Lemma inv_after_return tr c w :
  Inv tr c ->
  workers c !! w = Some Idle ->
  ctx_done c = true \/ queue (q c) = [] ->
  Inv (tr ++ [EvReturn w]) (set_worker w Stopped c).
Proof.
  intros [] Hw Hempty. constructor; snoc_trace; try done.
  - destruct (bind_insert fetching _ _ _ Stopped Hw) as (R & H1 & H2).
    rewrite H2. rewrite inv_fetched0. unfold inflight. by rewrite H1.
  - intros w' it page err H.
    apply lookup_insert_Emitted in H as [[_ ?]|[_ H]]; [done|eauto].
  - intros it l Hit Hl Hh.
    destruct (inv_closed0 it l Hit Hl Hh) as [(w' & page & Hw')|?]; [|auto].
    left. exists w', page. rewrite list_lookup_insert_ne; [done|].
    intros ->. congruence.
  - intros Hd Hq. destruct Hempty; congruence.
Qed.

Lemma admitted_skip_iff tr c item rest it :
  queue (q c) = item :: rest ->
  it ∈ (rest ++ (skipped_of tr ++ [item]) ++ fetched_of tr)%list
  <-> it ∈ admitted tr c.
Proof. unfold admitted. intros ->. set_solver. Qed.

Lemma admitted_fetch_iff tr c item rest it :
  queue (q c) = item :: rest ->
  it ∈ (rest ++ skipped_of tr ++ fetched_of tr ++ [item])%list
  <-> it ∈ admitted tr c.
Proof. unfold admitted. intros ->. set_solver. Qed.

Lemma inv_after_skip tr c w item rest :
  Inv tr c ->
  workers c !! w = Some Idle ->
  queue (q c) = item :: rest ->
  IsValid (validator c) (QueueItem.URL item) = false
  \/ (Config.MaxDepth (config c) < QueueItem.Depth item)%Z ->
  Inv (tr ++ [EvSkip w item])
    (set_q (mkURLQueue rest (seen (q c)) (baseHost (q c))) c).
Proof.
  intros [] Hw Hq Hbad. constructor; snoc_trace; try done.
  - rewrite <- inv_partition0. unfold admitted. rewrite Hq.
    rewrite !map_app. simpl. solve_Permutation.
  - intros it H. apply elem_of_app in H as [H|H]; [auto|].
    apply list_elem_of_singleton in H as ->.
    by rewrite <- inv_validator0, <- inv_config0.
  - intros it H. apply inv_origin0. by apply (admitted_skip_iff _ _ _ _ _ Hq).
  - intros _ _. exists w, Idle. done.
  - by apply (admitted_skip_iff _ _ _ _ _ Hq).
  - intros Hm it H. apply (inv_nonneg0 Hm).
    by apply (admitted_skip_iff _ _ _ _ _ Hq).
Qed.

Lemma inv_after_fetch tr c w item rest :
  Inv tr c ->
  workers c !! w = Some Idle ->
  queue (q c) = item :: rest ->
  IsValid (validator c) (QueueItem.URL item) = true ->
  (QueueItem.Depth item <= Config.MaxDepth (config c))%Z ->
  Inv (tr ++ [EvFetch w item])
    (set_worker w (Fetching item)
       (set_q (mkURLQueue rest (seen (q c)) (baseHost (q c))) c)).
Proof.
  intros [] Hw Hq Hv Hd. constructor; snoc_trace; try done.
  - rewrite <- inv_partition0. unfold admitted. rewrite Hq.
    rewrite !map_app. simpl. solve_Permutation.
  - destruct (bind_insert fetching _ _ _ (Fetching item) Hw) as (R & H1 & H2).
    rewrite H2. rewrite inv_fetched0. unfold inflight. rewrite H1.
    simpl. solve_Permutation.
  - intros w' it page err H.
    apply lookup_insert_Emitted in H as [[_ ?]|[_ H]]; [done|eauto].
  - intros it H. apply elem_of_app in H as [H|H]; [auto|].
    apply list_elem_of_singleton in H as ->.
    by rewrite <- inv_validator0, <- inv_config0.
  - intros it H. apply inv_origin0. by apply (admitted_fetch_iff _ _ _ _ _ Hq).
  - intros it l Hit Hl Hh.
    destruct (inv_closed0 it l Hit Hl Hh) as [(w' & page & Hw')|?]; [|auto].
    left. exists w', page. rewrite list_lookup_insert_ne; [done|].
    intros ->. congruence.
  - intros _ _. exists w, (Fetching item). split; [|done].
    apply list_lookup_insert_eq. by eapply lookup_lt_Some.
  - by apply (admitted_fetch_iff _ _ _ _ _ Hq).
  - intros Hm it H. apply (inv_nonneg0 Hm).
    by apply (admitted_fetch_iff _ _ _ _ _ Hq).
Qed.

Lemma links_of_Process it page err :
  Process env (NewPage (QueueItem.URL it) (QueueItem.Depth it)) = (page, err) ->
  links_of env it = match err with None => Page.Links page | Some _ => [] end.
Proof. intros H. unfold links_of. by rewrite H. Qed.

Lemma inv_after_result tr c w item page err :
  Inv tr c ->
  workers c !! w = Some (Fetching item) ->
  Process env (NewPage (QueueItem.URL item) (QueueItem.Depth item))
  = (page, err) ->
  Inv (tr ++ [EvResult w item (result_of env item)])
    (set_worker w (Emitted item page err) (count_stats err c)).
Proof.
  intros [] Hw Hp. constructor; snoc_trace; try done.
  - destruct (bind_insert fetching _ _ _ (Emitted item page err) Hw)
      as (R & H1 & H2).
    rewrite H2. rewrite inv_fetched0. unfold inflight. rewrite H1.
    simpl. solve_Permutation.
  - rewrite map_app. simpl. by rewrite inv_results0.
  - intros w' it page' err' H. rewrite elem_of_app.
    apply lookup_insert_Emitted in H as [[_ [= <- <- <-]]|[_ H]].
    + split; [right; left|done].
    + destruct (inv_emitted0 _ _ _ _ H). auto.
  - intros it H. destruct (inv_origin0 it H) as [?|(p & l & ? & ?)]; [auto|].
    right. exists p, l. rewrite elem_of_app. tauto.
  - intros it l Hit Hl Hh. apply elem_of_app in Hit as [Hit|Hit].
    + destruct (inv_closed0 it l Hit Hl Hh) as [(w' & pg & Hw')|?]; [|auto].
      left. exists w', pg. rewrite list_lookup_insert_ne; [done|].
      intros ->. congruence.
    + apply list_elem_of_singleton in Hit as ->.
      rewrite (links_of_Process _ _ _ Hp) in Hl.
      destruct err as [e|]; [by apply elem_of_nil in Hl|].
      left. exists w, page. apply list_lookup_insert_eq.
      by eapply lookup_lt_Some.
  - intros _ _. exists w, (Emitted item page err). split; [|done].
    apply list_lookup_insert_eq. by eapply lookup_lt_Some.
Qed.

Lemma inv_after_next_err tr c w item page e :
  Inv tr c ->
  workers c !! w = Some (Emitted item page (Some e)) ->
  Inv (tr ++ [EvNext w item]) (set_worker w Idle c).
Proof.
  intros [] Hw. constructor; snoc_trace; try done.
  - destruct (bind_insert fetching _ _ _ Idle Hw) as (R & H1 & H2).
    rewrite H2. rewrite inv_fetched0. unfold inflight. by rewrite H1.
  - intros w' it page' err' H.
    apply lookup_insert_Emitted in H as [[_ ?]|[_ H]]; [done|eauto].
  - intros it l Hit Hl Hh.
    destruct (inv_closed0 it l Hit Hl Hh) as [(w' & pg & Hw')|?]; [|auto].
    left. exists w', pg. rewrite list_lookup_insert_ne; [done|].
    intros ->. congruence.
  - intros _ _. exists w, Idle. split; [|done].
    apply list_lookup_insert_eq. by eapply lookup_lt_Some.
Qed.

Lemma new_items_keys (d : Z) (l : list url.URL) :
  map key (map (fun u => QueueItem.mk u d) l) = map url.String l.
Proof. induction l as [|u l IH]; [done|]. simpl. by rewrite IH. Qed.

Lemma new_items_fresh (qq : URLQueue) (links : list url.URL) (k : string) :
  k ∈ map url.String (first_occurrences (filter (admits qq) links)) ->
  (k ∉ seen qq)
  /\ exists l, l ∈ links /\ url.String l = k /\ url.Host l = baseHost qq.
Proof.
  intros H. apply list_elem_of_fmap in H as (l & -> & Hl).
  apply first_occurrences_elem in Hl.
  apply list_elem_of_filter in Hl as [[Hs Hh] Hl]. eauto.
Qed.

Lemma inv_after_next_ok tr c w item page :
  Inv tr c ->
  workers c !! w = Some (Emitted item page None) ->
  Inv (tr ++ [EvNext w item])
    (set_worker w Idle
       (set_q (Push (Page.Links page) (int_add (QueueItem.Depth item) 1)
                 (q c)) c)).
Proof.
  intros [] Hw. destruct (inv_emitted0 _ _ _ _ Hw) as [Hres Hp].
  pose proof (links_of_Process _ _ _ Hp) as Hlinks. simpl in Hlinks.
  constructor; snoc_trace; try done.
  - by rewrite Push_baseHost.
  - by apply Push_seen_mono.
  - rewrite Push_queue, Push_seen_new.
    rewrite elements_list_union.
    + rewrite <- inv_partition0. unfold admitted.
      rewrite !map_app, new_items_keys. solve_Permutation.
    + apply first_occurrences_NoDup.
    + intros k Hk. by apply new_items_fresh in Hk as [? _].
  - destruct (bind_insert fetching _ _ _ Idle Hw) as (R & H1 & H2).
    rewrite H2. rewrite inv_fetched0. unfold inflight. by rewrite H1.
  - intros w' it page' err' H.
    apply lookup_insert_Emitted in H as [[_ ?]|[_ H]]; [done|eauto].
  - intros it H. rewrite Push_queue in H.
    rewrite <- app_assoc in H. apply elem_of_app in H as [H|H].
    + apply inv_origin0. unfold admitted. rewrite elem_of_app. by left.
    + apply elem_of_app in H as [H|H].
      * right. apply list_elem_of_fmap in H as (l & -> & Hl).
        apply first_occurrences_elem in Hl.
        apply list_elem_of_filter in Hl as [[Hs Hh] Hl].
        exists item, l. rewrite Hlinks. rewrite inv_baseHost0 in Hh. done.
      * apply inv_origin0. unfold admitted. rewrite elem_of_app. by right.
  - intros it l Hit Hl Hh.
    destruct (inv_closed0 it l Hit Hl Hh) as [(w' & pg & Hw')|Hs].
    + destruct (decide (w' = w)) as [->|Hne].
      * right. rewrite Hw in Hw'. injection Hw' as <- <-.
        apply Push_seen. right. exists l. rewrite <- Hlinks.
        by rewrite inv_baseHost0.
      * left. exists w', pg. by rewrite list_lookup_insert_ne.
    + right. by apply Push_seen_mono.
  - intros _ _. exists w, Idle. split; [|done].
    apply list_lookup_insert_eq. by eapply lookup_lt_Some.
  - rewrite Push_queue. unfold admitted in inv_seed_admitted0. set_solver.
  - intros Hm it H. rewrite Push_queue in H.
    rewrite <- app_assoc in H. apply elem_of_app in H as [H|H].
    + apply (inv_nonneg0 Hm). unfold admitted. rewrite elem_of_app. by left.
    + apply elem_of_app in H as [H|H].
      * apply list_elem_of_fmap in H as (l & -> & Hl). simpl.
        assert (item ∈ fetched_of tr) as Hf
          by (rewrite inv_fetched0; apply elem_of_app; by right).
        destruct (inv_fetch_ok0 item Hf) as [_ Hle].
        assert (0 <= QueueItem.Depth item)%Z as Hge.
        { apply (inv_nonneg0 Hm). unfold admitted. rewrite !elem_of_app.
          by right; right. }
        rewrite int_add_1_small; lia.
      * apply (inv_nonneg0 Hm). unfold admitted. rewrite elem_of_app.
        by right.
Qed.

Lemma crawl_inv_step tr c ev c' :
  Inv tr c -> step env c ev c' -> Inv (tr ++ [ev]) c'.
Proof.
  intros HI Hs. apply step_cases in Hs. destruct Hs.
  - by apply inv_after_cancel.
  - by apply inv_after_return.
  - by apply inv_after_skip.
  - by apply inv_after_fetch.
  - by apply inv_after_result.
  - by apply inv_after_next_ok.
  - by eapply inv_after_next_err.
Qed.

Lemma crawl_inv_run tr c : run env (Start c0) tr c -> Inv tr c.
Proof.
  induction 1 as [|tr c ev c' Hr IH Hs]; [apply crawl_inv_Start|].
  by apply (crawl_inv_step tr c).
Qed.

Lemma resulted_in_seen tr c it :
  Inv tr c -> it ∈ resulted_of tr -> key it ∈ seen (q c).
Proof.
  intros [] Hit. apply elem_of_elements. rewrite <- inv_partition0.
  unfold admitted. rewrite !map_app, !elem_of_app. right. right.
  apply list_elem_of_fmap. exists it. split; [done|].
  rewrite inv_fetched0. apply elem_of_app. by right.
Qed.

Lemma admitted_NoDup tr c : Inv tr c -> NoDup (map key (admitted tr c)).
Proof. intros []. rewrite inv_partition0. apply NoDup_elements. Qed.

Lemma resulted_sub_fetched tr c it :
  Inv tr c -> it ∈ resulted_of tr -> it ∈ fetched_of tr.
Proof. intros [] H. rewrite inv_fetched0. apply elem_of_app. by right. Qed.

Lemma result_of_URL it : Result.URL (result_of env it) = key it.
Proof. unfold result_of. by destruct (Process env _). Qed.

Lemma result_of_Depth it :
  Result.Depth (result_of env it) = QueueItem.Depth it.
Proof. unfold result_of. by destruct (Process env _). Qed.

Lemma results_URLs tr c :
  Inv tr c -> map Result.URL (results_of tr) = map key (resulted_of tr).
Proof.
  intros []. rewrite inv_results0, map_map. apply map_ext.
  intros it. apply result_of_URL.
Qed.

Lemma results_NoDup tr c : Inv tr c -> NoDup (map Result.URL (results_of tr)).
Proof.
  intros HI. rewrite (results_URLs tr c HI).
  pose proof (admitted_NoDup tr c HI) as Hnd. destruct HI.
  unfold admitted in Hnd. rewrite !map_app in Hnd.
  apply NoDup_app in Hnd as (_ & _ & Hnd).
  apply NoDup_app in Hnd as (_ & _ & Hnd).
  rewrite inv_fetched0, map_app in Hnd.
  by apply NoDup_app in Hnd as (_ & _ & Hnd).
Qed.

(** A dropped item is never fetched and never gets a Result. *)
Lemma skipped_not_fetched tr c it :
  Inv tr c -> it ∈ skipped_of tr ->
  (key it ∉ map key (fetched_of tr))
  /\ (key it ∉ map Result.URL (results_of tr)).
Proof.
  intros HI Hit. pose proof (admitted_NoDup tr c HI) as Hnd.
  unfold admitted in Hnd. rewrite !map_app in Hnd.
  apply NoDup_app in Hnd as (_ & _ & Hnd).
  apply NoDup_app in Hnd as (_ & Hdis & _).
  assert (key it ∉ map key (fetched_of tr)) as Hnf.
  { apply Hdis. apply list_elem_of_fmap. eauto. }
  split; [done|]. rewrite (results_URLs tr c HI). intros Hin.
  apply Hnf. apply list_elem_of_fmap in Hin as (it' & Hk & Hin).
  apply list_elem_of_fmap. exists it'. split; [done|].
  by apply (resulted_sub_fetched tr c).
Qed.

Lemma admitted_depth tr c it :
  Inv tr c -> it ∈ admitted tr c ->
  (- 2 ^ 63 <= QueueItem.Depth it < 2 ^ 63
   /\ QueueItem.Depth it <= Config.MaxDepth cfg + 1)%Z.
Proof.
  intros HI Hit. pose proof MaxDepth_nonneg as Hm.
  assert (forall it', it' ∈ admitted tr c ->
            (- 2 ^ 63 <= QueueItem.Depth it' < 2 ^ 63)%Z) as Hrange.
  { intros it' H'.
    destruct (inv_origin _ _ _ _ _ _ HI it' H') as [->|(p & l & _ & _ & _ & ->)];
      simpl; [lia|apply int_wrap_range]. }
  split; [by apply Hrange|].
  destruct (inv_origin _ _ _ _ _ _ HI it Hit) as [->|(p & l & Hp & _ & _ & ->)];
    simpl; [lia|].
  apply (resulted_sub_fetched tr c p HI) in Hp.
  destruct (inv_fetch_ok _ _ _ _ _ _ HI p Hp) as [_ Hle].
  assert (p ∈ admitted tr c) as Hpa
    by (unfold admitted; rewrite !elem_of_app; by right; right).
  specialize (Hrange p Hpa). unfold int_add.
  pose proof (int_wrap_le (QueueItem.Depth p + 1)). lia.
Qed.

Lemma inflight_all_stopped c : all_stopped c -> inflight c = [].
Proof.
  unfold all_stopped, inflight. induction 1 as [|wk ws -> _ IH]; [done|].
  by rewrite bind_cons, IH.
Qed.

Lemma quiescent_queue_empty tr c :
  Inv tr c -> all_stopped c -> ctx_done c = false -> queue (q c) = [].
Proof.
  intros HI Hall Hd. destruct (queue (q c)) as [|it rest] eqn:Hq; [done|].
  destruct (inv_live _ _ _ _ _ _ HI Hd) as (w & wk & Hw & Hne);
    [by rewrite Hq|].
  exfalso. apply Hne. unfold all_stopped in Hall.
  rewrite Forall_lookup in Hall. by apply (Hall w).
Qed.

Section Termination.

Context (V : gset string).
Hypothesis Hclosed : link_closed env (url.Host base) V.
Hypothesis Hseed : url.String base ∈ V.

Lemma new_items_in_V tr c w item page k :
  Inv tr c -> seen (q c) ⊆ V ->
  workers c !! w = Some (Emitted item page None) ->
  k ∈ map url.String
        (first_occurrences (filter (admits (q c)) (Page.Links page))) ->
  k ∈ V /\ (k ∉ seen (q c)).
Proof.
  intros HI HV Hw Hk. apply new_items_fresh in Hk as (Hs & l & Hl & <- & Hh).
  split; [|done].
  destruct (inv_emitted _ _ _ _ _ _ HI _ _ _ _ Hw) as [Hres Hp].
  apply (Hclosed item l).
  - apply HV. by apply (resulted_in_seen tr c).
  - by rewrite (links_of_Process _ _ _ Hp).
  - by rewrite Hh, (inv_baseHost _ _ _ _ _ _ HI).
Qed.

Lemma seen_step tr c ev c' :
  Inv tr c -> seen (q c) ⊆ V -> step env c ev c' -> seen (q c') ⊆ V.
Proof.
  intros HI HV Hs. apply step_cases in Hs. destruct Hs; try done.
  cbn [q set_worker set_q]. rewrite Push_seen_new. intros k Hk.
  apply elem_of_union in Hk as [Hk|Hk]; [|auto].
  apply elem_of_list_to_set in Hk.
  by apply (new_items_in_V tr c w item page k) in Hk as [? _].
Qed.

Lemma seen_in_V tr c : run env (Start c0) tr c -> seen (q c) ⊆ V.
Proof.
  induction 1 as [|tr c ev c' Hr IH Hs].
  - destruct Start_fields as (_ & _ & -> & _). simpl. set_solver.
  - apply (seen_step tr c ev c'); [by apply crawl_inv_run|done|done].
Qed.

Lemma measure_step tr c ev c' :
  Inv tr c -> seen (q c) ⊆ V -> step env c ev c' ->
  measure V c' < measure V c.
Proof.
  intros HI HV Hs. apply step_cases in Hs.
  destruct Hs as [Hd|w Hw _|w item rest Hw Hd Hq _|w item rest Hw Hd Hq _ _
                   |w item page err Hw _|w item page Hw|w item page e Hw];
    unfold measure;
    cbn [q workers ctx_done cancel set_worker set_q count_stats queue seen].
  - rewrite Hd. lia.
  - pose proof (sum_weight_insert _ _ _ Stopped Hw). simpl in *. lia.
  - rewrite Hq. simpl. lia.
  - pose proof (sum_weight_insert _ _ _ (Fetching item) Hw).
    rewrite Hq. simpl in *. lia.
  - pose proof (sum_weight_insert _ _ _ (Emitted item page err) Hw).
    simpl in *. lia.
  - pose proof (sum_weight_insert _ _ _ Idle Hw) as Hsum.
    rewrite Push_queue, Push_seen_new, length_app, length_map.
    pose proof (size_difference_list_union V
                  (map url.String
                     (first_occurrences
                        (filter (admits (q c)) (Page.Links page))))
                  (seen (q c))) as Hsz.
    rewrite length_map in Hsz. simpl in Hsum.
    rewrite <- Hsz; [lia|apply first_occurrences_NoDup|].
    intros k Hk. by apply (new_items_in_V tr c w item page).
  - pose proof (sum_weight_insert _ _ _ Idle Hw). simpl in *. lia.
Qed.

Lemma run_bounded tr c :
  run env (Start c0) tr c ->
  measure V c + length tr <= measure V (Start c0).
Proof.
  induction 1 as [|tr c ev c' Hr IH Hs]; [simpl; lia|].
  pose proof (measure_step tr c ev c' (crawl_inv_run _ _ Hr)
                (seen_in_V _ _ Hr) Hs).
  rewrite length_app. simpl. lia.
Qed.

Lemma sum_weight_replicate_Idle (n : nat) :
  sum_list (map weight (replicate n Idle)) = n.
Proof. induction n as [|n IH]; simpl; [done|by rewrite IH]. Qed.

Lemma measure_Start :
  measure V (Start c0)
  = 3 * size V + Z.to_nat (Config.MaxConcurrent cfg) + 1.
Proof.
  destruct Start_fields as (_ & _ & Hq & Hw & Hd).
  unfold measure. rewrite Hq, Hw, Hd, sum_weight_replicate_Idle.
  cbn [queue seen length].
  pose proof (size_difference_list_union V [url.String base] ∅) as Hsz.
  assert (list_to_set [url.String base] ∪ ∅
          = ({[url.String base]} ∪ ∅ : gset string)) as Heq by set_solver.
  rewrite Heq, (difference_empty_L V) in Hsz. simpl in Hsz.
  rewrite <- Hsz; [lia|by apply NoDup_singleton|].
  intros k Hk. apply list_elem_of_singleton in Hk as ->. set_solver.
Qed.

End Termination.

End CrawlInvariant.

(** ** The claims about the worker loop *)

Lemma worker_step_total (env : Env) (c : Crawler) (w : nat) (wk : Worker) :
  workers c !! w = Some wk -> wk <> Stopped ->
  exists ev c', worker_step env w c = Some (ev, c').
Proof.
  intros Hw Hne. unfold worker_step. rewrite Hw.
  destruct wk as [|item|item page err|]; [| | |done].
  - destruct (ctx_done c); [eauto|].
    destruct (Pop (q c)) as [[item|] q']; [|eauto].
    destruct (negb _); [eauto|]. destruct (_ <? _)%Z; eauto.
  - destruct (Process env _). eauto.
  - eauto.
Qed.

(** C4: in every crawl, a worker that dequeues an item whose URL fails the
    Admission Policy or whose depth exceeds [MaxDepth] drops it: no request
    is issued and no Result is sent, at that step or later; every request
    and every Result is for an item that passed both tests. *)
Theorem skipped_items_never_fetched (env : Env) (cfg : Config.t)
    (c0 : Crawler) (base : url.URL) (tr : list Event) (c : Crawler) :
  NewCrawler env cfg = Some c0 ->
  Config.BaseURL cfg = Some base ->
  run env (Start c0) tr c ->
  (forall w item rest,
      workers c !! w = Some Idle -> ctx_done c = false ->
      queue (q c) = item :: rest ->
      IsValid (validator c) (QueueItem.URL item) = false
      \/ (Config.MaxDepth (config c) < QueueItem.Depth item)%Z ->
      worker_step env w c
      = Some (EvSkip w item,
              set_q (mkURLQueue rest (seen (q c)) (baseHost (q c))) c))
  /\ (forall it, it ∈ skipped_of tr ->
        (IsValid (validator c0) (QueueItem.URL it) = false
         \/ (Config.MaxDepth cfg < QueueItem.Depth it)%Z)
        /\ (key it ∉ map key (fetched_of tr))
        /\ (key it ∉ map Result.URL (results_of tr)))
  /\ (forall it, it ∈ fetched_of tr ->
        IsValid (validator c0) (QueueItem.URL it) = true
        /\ (QueueItem.Depth it <= Config.MaxDepth cfg)%Z)
  /\ (forall r, r ∈ results_of tr ->
        exists it, it ∈ fetched_of tr /\ r = result_of env it).
Proof.
  intros Hnew Hbase Hrun.
  pose proof (crawl_inv_run env cfg c0 base Hnew Hbase tr c Hrun) as HI.
  split.
  { intros w item rest Hw Hd Hq Hbad.
    unfold worker_step, Pop. rewrite Hw, Hd, Hq.
    destruct Hbad as [-> | Hdeep]; [done|].
    destruct (negb _); [done|].
    by destruct (Z.ltb_spec (Config.MaxDepth (config c))
                   (QueueItem.Depth item)); [|lia]. }
  split.
  { intros it Hit. split; [by apply (inv_skip _ _ _ _ _ _ HI)|].
    by apply (skipped_not_fetched env cfg c0 base tr c). }
  split; [apply (inv_fetch_ok _ _ _ _ _ _ HI)|].
  intros r Hr. rewrite (inv_results _ _ _ _ _ _ HI) in Hr.
  apply list_elem_of_fmap in Hr as (it & -> & Hit).
  exists it. split; [|done].
  by apply (resulted_sub_fetched env cfg c0 base tr c).
Qed.

Lemma skipped_items_never_fetched_witness :
  let env := world two_pages in
  let x := exec env (one_worker 10) (Start (example_crawler 1 1)) in
  NewCrawler env (example_config 1 1) = Some (example_crawler 1 1)
  /\ skipped_of (fst x) = [QueueItem.mk example_logo 1]
  /\ forall it, it ∈ fetched_of (fst x) ->
       IsValid (validator (example_crawler 1 1)) (QueueItem.URL it) = true
       /\ (QueueItem.Depth it <= Config.MaxDepth (example_config 1 1))%Z.
Proof.
  intros env x. split; [reflexivity|]. split; [reflexivity|].
  apply (skipped_items_never_fetched env (example_config 1 1)
           (example_crawler 1 1) example_root (fst x) (snd x)
           eq_refl eq_refl (exec_run env _ _)).
Defined.

(** C7: in every crawl each fetch attempt, whatever its outcome, is followed
    by exactly one Result that records the outcome in [Error]: an error
    when the request could not be built, when no response arrived (network
    failure, timeout), when the final status is not 200 and when the body
    could not be parsed, and no error otherwise; the worker then goes back
    to the top of its loop (nothing is raised, the other workers are
    untouched), and a page whose fetch failed hands no link to the
    frontier. *)
Theorem every_fetch_yields_one_result (env : Env) (cfg : Config.t)
    (c0 : Crawler) (base : url.URL) (tr : list Event) (c : Crawler) :
  NewCrawler env cfg = Some c0 ->
  Config.BaseURL cfg = Some base ->
  run env (Start c0) tr c ->
  fetched_of tr ≡ₚ (inflight c ++ resulted_of tr)%list
  /\ results_of tr = map (result_of env) (resulted_of tr)
  /\ (forall it,
        Result.URL (result_of env it) = key it
        /\ Result.Error (result_of env it)
           = snd (Process env (NewPage (QueueItem.URL it) (QueueItem.Depth it)))
        /\ Result.Error (result_of env it)
           = match Do env (key it) with
             | BadRequest => Some ErrCreateRequest
             | NoResponse => Some ErrFetchPage
             | Response status _ body =>
                 if (status =? 200)%Z then
                   match body with
                   | None => Some ErrParseHTML
                   | Some _ => None
                   end
                 else Some (ErrStatusCode status)
             end
        /\ (Result.Error (result_of env it) <> None -> links_of env it = []))
  /\ (forall w item,
        workers c !! w = Some (Fetching item) ->
        exists page err c1 c2,
          Process env (NewPage (QueueItem.URL item) (QueueItem.Depth item))
          = (page, err)
          /\ worker_step env w c = Some (EvResult w item (result_of env item), c1)
          /\ worker_step env w c1 = Some (EvNext w item, c2)
          /\ workers c2 = <[w:=Idle]> (workers c)
          /\ (err <> None -> q c2 = q c)
          /\ (err = None ->
              q c2 = Push (Page.Links page)
                       (int_add (QueueItem.Depth item) 1) (q c))).
Proof.
  intros Hnew Hbase Hrun.
  pose proof (crawl_inv_run env cfg c0 base Hnew Hbase tr c Hrun) as HI.
  split; [apply (inv_fetched _ _ _ _ _ _ HI)|].
  split; [apply (inv_results _ _ _ _ _ _ HI)|].
  split.
  { intros it. split; [apply result_of_URL|].
    split; [unfold result_of; by destruct (Process env _)|].
    split.
    - unfold result_of, Process, key, NewPage, parseHTML, StatusOK.
      cbn [Page.URL].
      destruct (Do env (url.String (QueueItem.URL it)))
        as [| |status lastMod body]; [done|done|].
      destruct (status =? 200)%Z; [|done]. by destruct body.
    - unfold result_of, links_of.
      destruct (Process env _) as [page err]. simpl. by destruct err. }
  intros w item Hw.
  destruct (Process env (NewPage (QueueItem.URL item) (QueueItem.Depth item)))
    as [page err] eqn:Hp.
  assert (w < length (workers c)) as Hlt by (by eapply lookup_lt_Some).
  exists page, err.
  exists (set_worker w (Emitted item page err) (count_stats err c)).
  eexists. split; [done|]. split.
  { unfold worker_step, result_of. by rewrite Hw, Hp. }
  split.
  { unfold worker_step. cbn [workers set_worker count_stats].
    rewrite list_lookup_insert_eq by done. reflexivity. }
  destruct err as [e|]; cbn [workers q set_worker set_q count_stats];
    rewrite list_insert_insert_eq; done.
Qed.

Lemma every_fetch_yields_one_result_witness :
  let env := world two_pages in
  let x := exec env (one_worker 10) (Start (example_crawler 1 1)) in
  NewCrawler env (example_config 1 1) = Some (example_crawler 1 1)
  /\ length (fetched_of (fst x)) = 3
  /\ results_of (fst x) = map (result_of env) (resulted_of (fst x)).
Proof.
  intros env x. split; [reflexivity|]. split; [reflexivity|].
  apply (every_fetch_yields_one_result env (example_config 1 1)
           (example_crawler 1 1) example_root (fst x) (snd x)
           eq_refl eq_refl (exec_run env _ _)).
Defined.

Lemma seen_mono_step (env : Env) (c : Crawler) (ev : Event) (c' : Crawler) :
  step env c ev c' -> seen (q c) ⊆ seen (q c').
Proof.
  intros Hs. apply step_cases in Hs. destruct Hs; try done.
  cbn [q set_worker set_q]. apply Push_seen_mono.
Qed.

(** C5: in every crawl no URL string is appended to the queue more than
    once, whatever is offered and however often: the keys of all items ever
    appended (queued, dropped or fetched) are pairwise different and all in
    the seen set; the seen set only grows; and offering to [Push] a URL
    whose string is already seen, or a batch a second time, changes
    nothing. *)
Theorem admission_at_most_once (env : Env) (cfg : Config.t)
    (c0 : Crawler) (base : url.URL) (tr : list Event) (c : Crawler) :
  NewCrawler env cfg = Some c0 ->
  Config.BaseURL cfg = Some base ->
  run env (Start c0) tr c ->
  NoDup (map key (admitted tr c))
  /\ (forall it, it ∈ admitted tr c -> key it ∈ seen (q c))
  /\ (forall ev c', step env c ev c' -> seen (q c) ⊆ seen (q c'))
  /\ (forall urls d (qq : URLQueue),
        seen qq ⊆ seen (Push urls d qq)
        /\ (forall d', Push urls d' (Push urls d qq) = Push urls d qq)
        /\ (forall u d', url.String u ∈ seen qq -> Push [u] d' qq = qq)
        /\ exists new,
             queue (Push urls d qq) = (queue qq ++ new)%list
             /\ NoDup (map key new)
             /\ forall it, it ∈ new ->
                  (key it ∉ seen qq) /\ key it ∈ seen (Push urls d qq)).
Proof.
  intros Hnew Hbase Hrun.
  pose proof (crawl_inv_run env cfg c0 base Hnew Hbase tr c Hrun) as HI.
  split; [by apply (admitted_NoDup env cfg c0 base)|].
  split.
  { intros it Hit. apply elem_of_elements.
    rewrite <- (inv_partition _ _ _ _ _ _ HI).
    apply list_elem_of_fmap. eauto. }
  split; [apply seen_mono_step|].
  intros urls d qq. split; [apply Push_seen_mono|].
  split; [intros d'; apply Push_twice|].
  split.
  { intros u d' Hu. apply Push_seen_noop. intros v Hv [Hs _].
    apply list_elem_of_singleton in Hv as ->. done. }
  exists (map (fun u => QueueItem.mk u d)
            (first_occurrences (filter (admits qq) urls))).
  split; [apply Push_queue|]. rewrite new_items_keys.
  split; [apply first_occurrences_NoDup|].
  intros it Hit.
  assert (key it ∈ map url.String
                     (first_occurrences (filter (admits qq) urls))) as Hk.
  { rewrite <- (new_items_keys d). apply list_elem_of_fmap. eauto. }
  split; [by apply new_items_fresh in Hk as [? _]|].
  rewrite Push_seen_new. apply elem_of_union. left.
  by apply elem_of_list_to_set.
Qed.

Lemma admission_at_most_once_witness :
  let env := world diamond in
  let x := exec env slow_b (Start (example_crawler 2 2)) in
  NewCrawler env (example_config 2 2) = Some (example_crawler 2 2)
  /\ map key (admitted (fst x) (snd x))
     = ["https://example.com/d"; "https://example.com/";
        "https://example.com/a"; "https://example.com/b";
        "https://example.com/c"]
  /\ NoDup (map key (admitted (fst x) (snd x))).
Proof.
  intros env x. split; [reflexivity|]. split; [reflexivity|].
  apply (admission_at_most_once env (example_config 2 2)
           (example_crawler 2 2) example_root (fst x) (snd x)
           eq_refl eq_refl (exec_run env _ _)).
Defined.

(** ** The depth bound *)

Section DepthZero.

Context (env : Env) (cfg : Config.t) (c0 : Crawler) (base : url.URL).
Hypothesis Hnew : NewCrawler env cfg = Some c0.
Hypothesis Hbase : Config.BaseURL cfg = Some base.
Hypothesis Hzero : Config.MaxDepth cfg = 0%Z.

Lemma fetched_is_seed tr c it :
  run env (Start c0) tr c -> it ∈ fetched_of tr -> it = QueueItem.mk base 0.
Proof.
  intros Hrun Hit.
  pose proof (crawl_inv_run env cfg c0 base Hnew Hbase tr c Hrun) as HI.
  assert (forall x, x ∈ fetched_of tr -> QueueItem.Depth x = 0%Z) as Hd.
  { intros x Hx. destruct (inv_fetch_ok _ _ _ _ _ _ HI x Hx) as [_ Hle].
    assert (0 <= QueueItem.Depth x)%Z; [|lia].
    apply (inv_nonneg _ _ _ _ _ _ HI); [rewrite Hzero; lia|].
    unfold admitted. rewrite !elem_of_app. by right; right. }
  assert (it ∈ admitted tr c) as Ha
    by (unfold admitted; rewrite !elem_of_app; by right; right).
  destruct (inv_origin _ _ _ _ _ _ HI it Ha) as [?|(p & l & Hp & _ & _ & ->)];
    [done|].
  apply (resulted_sub_fetched env cfg c0 base tr c p HI) in Hp.
  pose proof (Hd _ Hit) as Hd1. pose proof (Hd p Hp) as Hd2.
  simpl in Hd1. rewrite Hd2 in Hd1. by vm_compute in Hd1.
Qed.

Lemma queued_depth_zero tr c it :
  run env (Start c0) tr c -> it ∈ queue (q c) ->
  it = QueueItem.mk base 0 \/ QueueItem.Depth it = 1%Z.
Proof.
  intros Hrun Hit.
  pose proof (crawl_inv_run env cfg c0 base Hnew Hbase tr c Hrun) as HI.
  assert (it ∈ admitted tr c) as Ha
    by (unfold admitted; rewrite !elem_of_app; by left).
  destruct (inv_origin _ _ _ _ _ _ HI it Ha) as [?|(p & l & Hp & _ & _ & ->)];
    [by left|right].
  apply (resulted_sub_fetched env cfg c0 base tr c p HI) in Hp.
  by rewrite (fetched_is_seed tr c p Hrun Hp).
Qed.

Lemma same_elements_NoDup {A B : Type} (f : A -> B) (l : list A) (a : A) :
  NoDup (map f l) -> (forall x, x ∈ l -> x = a) -> l = [] \/ l = [a].
Proof.
  intros Hnd Hall. destruct l as [|x [|y l]]; [by left| |].
  - right. by rewrite (Hall x) by left.
  - exfalso. rewrite (Hall x), (Hall y) in Hnd by (set_solver).
    simpl in Hnd. inversion Hnd as [|? ? Hnotin _]; subst.
    apply Hnotin. left.
Qed.

Lemma results_depth_zero tr c :
  run env (Start c0) tr c ->
  results_of tr = [] \/ results_of tr = [result_of env (QueueItem.mk base 0)].
Proof.
  intros Hrun.
  pose proof (crawl_inv_run env cfg c0 base Hnew Hbase tr c Hrun) as HI.
  assert (resulted_of tr = [] \/ resulted_of tr = [QueueItem.mk base 0])
    as [He|He].
  { apply (same_elements_NoDup key).
    - rewrite <- (results_URLs env cfg c0 base tr c HI).
      by apply (results_NoDup env cfg c0 base tr c).
    - intros x Hx. apply (fetched_is_seed tr c x Hrun).
      by apply (resulted_sub_fetched env cfg c0 base tr c). }
  - left. by rewrite (inv_results _ _ _ _ _ _ HI), He.
  - right. by rewrite (inv_results _ _ _ _ _ _ HI), He.
Qed.

Lemma seed_result_when_done tr c :
  run env (Start c0) tr c ->
  all_stopped c -> ctx_done c = false ->
  IsValid (validator c0) base = true ->
  results_of tr = [result_of env (QueueItem.mk base 0)].
Proof.
  intros Hrun Hall Hd Hv.
  pose proof (crawl_inv_run env cfg c0 base Hnew Hbase tr c Hrun) as HI.
  destruct (results_depth_zero tr c Hrun) as [He|He]; [|done].
  exfalso.
  pose proof (inv_seed_admitted _ _ _ _ _ _ HI) as Hs.
  unfold admitted in Hs.
  rewrite (quiescent_queue_empty env cfg c0 base tr c HI Hall Hd) in Hs.
  simpl in Hs. apply elem_of_app in Hs as [Hs|Hs].
  - destruct (inv_skip _ _ _ _ _ _ HI _ Hs) as [Hbad|Hbad]; simpl in Hbad.
    + congruence.
    + rewrite Hzero in Hbad. lia.
  - rewrite (inv_fetched _ _ _ _ _ _ HI) in Hs.
    rewrite (inflight_all_stopped c Hall) in Hs. simpl in Hs.
    rewrite (inv_results _ _ _ _ _ _ HI) in He.
    destruct (resulted_of tr); [by apply elem_of_nil in Hs|done].
Qed.

End DepthZero.

(** C3 as stated fails: with [MaxDepth] 0 the links of the seed are put in
    the queue, at depth 1. *)
Lemma Push_beyond_MaxDepth_counterexample :
  let env := world diamond in
  let x := exec env (one_worker 3) (Start (example_crawler 0 1)) in
  NewCrawler env (example_config 0 1) = Some (example_crawler 0 1)
  /\ Config.MaxDepth (config (snd x)) = 0%Z
  /\ queue (q (snd x))
     = [QueueItem.mk (example_page "/a") 1; QueueItem.mk (example_page "/b") 1]
  /\ results_of (fst x) = [result_of env (QueueItem.mk example_root 0)].
Proof. by vm_compute. Qed.

(** C3 (amended): in every crawl no item of depth greater than
    [MaxDepth + 1] is ever appended to the queue and no item of depth greater
    than [MaxDepth] is fetched or gets a Result: the bound is enforced when
    an item is dequeued, and the links of a page at depth [MaxDepth] are
    queued at depth [MaxDepth + 1] and dropped there. With [MaxDepth] 0 the
    Result stream holds at most one Result, the seed's, and exactly that one
    when the crawl has ended without cancellation and the seed passes the
    Admission Policy; every other queued item has depth 1. *)
Theorem depth_bound_at_dequeue (env : Env) (cfg : Config.t)
    (c0 : Crawler) (base : url.URL) (tr : list Event) (c : Crawler) :
  NewCrawler env cfg = Some c0 ->
  Config.BaseURL cfg = Some base ->
  run env (Start c0) tr c ->
  (forall it, it ∈ admitted tr c ->
     (QueueItem.Depth it <= Config.MaxDepth cfg + 1)%Z)
  /\ (forall it, it ∈ fetched_of tr ->
        (QueueItem.Depth it <= Config.MaxDepth cfg)%Z)
  /\ (forall r, r ∈ results_of tr ->
        (Result.Depth r <= Config.MaxDepth cfg)%Z)
  /\ (Config.MaxDepth cfg = 0%Z ->
      (results_of tr = []
       \/ results_of tr = [result_of env (QueueItem.mk base 0)])
      /\ (forall it, it ∈ queue (q c) ->
            it = QueueItem.mk base 0 \/ QueueItem.Depth it = 1%Z)
      /\ (all_stopped c -> ctx_done c = false ->
          IsValid (validator c0) base = true ->
          results_of tr = [result_of env (QueueItem.mk base 0)])).
Proof.
  intros Hnew Hbase Hrun.
  pose proof (crawl_inv_run env cfg c0 base Hnew Hbase tr c Hrun) as HI.
  split.
  { intros it Hit. by apply (admitted_depth env cfg c0 base Hnew Hbase tr c). }
  split; [intros it Hit; by apply (inv_fetch_ok _ _ _ _ _ _ HI)|].
  split.
  { intros r Hr. rewrite (inv_results _ _ _ _ _ _ HI) in Hr.
    apply list_elem_of_fmap in Hr as (it & -> & Hit).
    rewrite result_of_Depth. apply (inv_fetch_ok _ _ _ _ _ _ HI).
    by apply (resulted_sub_fetched env cfg c0 base tr c). }
  intros Hzero.
  split; [apply (results_depth_zero env cfg c0 base Hnew Hbase Hzero tr c Hrun)|].
  split.
  { intros it.
    apply (queued_depth_zero env cfg c0 base Hnew Hbase Hzero tr c it Hrun). }
  apply (seed_result_when_done env cfg c0 base Hnew Hbase Hzero tr c Hrun).
Qed.

Lemma depth_bound_at_dequeue_witness :
  let env := world diamond in
  let x := exec env (one_worker 6) (Start (example_crawler 0 1)) in
  NewCrawler env (example_config 0 1) = Some (example_crawler 0 1)
  /\ workers (snd x) = [Stopped]
  /\ forall it, it ∈ admitted (fst x) (snd x) ->
       (QueueItem.Depth it <= Config.MaxDepth (example_config 0 1) + 1)%Z.
Proof.
  intros env x. split; [reflexivity|]. split; [reflexivity|].
  apply (depth_bound_at_dequeue env (example_config 0 1)
           (example_crawler 0 1) example_root (fst x) (snd x)
           eq_refl eq_refl (exec_run env _ _)).
Defined.


(** ** Termination *)

Lemma diamond_closed : link_closed (world diamond) "example.com" diamond_urls.
Proof.
  intros it l Hk Hl _. unfold links_of, Process in Hl.
  cbn [NewPage Page.URL] in Hl. unfold key in Hk.
  unfold diamond_urls in *. apply elem_of_list_to_set in Hk.
  apply elem_of_list_to_set.
  cbn [diamond map fst] in Hk.
  repeat match type of Hk with
         | _ ∈ _ :: _ => apply elem_of_cons in Hk as [Hk|Hk]
         | _ ∈ [] => by apply elem_of_nil in Hk
         end;
    rewrite Hk in Hl;
    match type of Hl with
    | _ ∈ ?L => let L' := eval vm_compute in L in change (l ∈ L') in Hl
    end;
    repeat match type of Hl with
           | _ ∈ _ :: _ => apply elem_of_cons in Hl as [->|Hl]
           | _ ∈ [] => by apply elem_of_nil in Hl
           end;
    match goal with
    | |- ?u ∈ _ => let u' := eval vm_compute in u in change u with u'
    end;
    repeat first [apply list_elem_of_here | apply list_elem_of_further].
Qed.

(** C1 as stated fails. With two workers on the diamond site, worker 1 stops
    for good on finding the queue empty while worker 0 is fetching the seed.
    And when worker 1 is slow to fetch /b, /d (two links from the seed,
    admissible, [MaxDepth] 2) is first offered by /c at depth 3, is dropped
    when dequeued and never gets a Result. *)
Lemma worker_stops_early_counterexample :
  let env := world diamond in
  let early := exec env [Some 0; Some 1] (Start (example_crawler 2 2)) in
  let x := exec env slow_b (Start (example_crawler 2 2)) in
  NewCrawler env (example_config 2 2) = Some (example_crawler 2 2)
  /\ workers (snd early)
     = [Fetching (QueueItem.mk example_root 0); Stopped]
  /\ ctx_done (snd early) = false
  /\ workers (snd x) = [Stopped; Stopped]
  /\ ctx_done (snd x) = false
  /\ links_of env (QueueItem.mk example_root 0)
     = [example_page "/a"; example_page "/b"]
  /\ links_of env (QueueItem.mk (example_page "/b") 1) = [example_page "/d"]
  /\ IsValid (validator (snd x)) (example_page "/d") = true
  /\ Config.MaxDepth (config (snd x)) = 2%Z
  /\ skipped_of (fst x) = [QueueItem.mk (example_page "/d") 3]
  /\ map Result.URL (results_of (fst x))
     = ["https://example.com/"; "https://example.com/a";
        "https://example.com/c"; "https://example.com/b"].
Proof. by vm_compute. Qed.

(** C1 (amended): for every finite link graph a crawl terminates under every
    interleaving of its workers: a run has at most
    [3 * |V| + MaxConcurrent + 1] steps, and no worker ever waits: a worker
    that has not stopped can take its next step in every state, so a run
    that no worker can continue has all its workers stopped. No URL appears
    twice in the Result stream. When all workers have stopped and the crawl was not cancelled,
    the queue is empty, nothing is in flight, the seen set holds the seed
    and every base-host link of every page that got a Result without error,
    and it consists exactly of the URLs that got a Result and the URLs
    whose item was dropped at dequeue time, for failing the Admission Policy
    or for a depth above [MaxDepth]. *)
Theorem crawl_terminates (env : Env) (cfg : Config.t) (c0 : Crawler)
    (base : url.URL) (V : gset string) (tr : list Event) (c : Crawler) :
  NewCrawler env cfg = Some c0 ->
  Config.BaseURL cfg = Some base ->
  link_closed env (url.Host base) V ->
  url.String base ∈ V ->
  run env (Start c0) tr c ->
  length tr <= 3 * size V + Z.to_nat (Config.MaxConcurrent cfg) + 1
  /\ NoDup (map Result.URL (results_of tr))
  /\ (forall w wk,
        workers c !! w = Some wk -> wk <> Stopped ->
        exists ev c',
          worker_step env w c = Some (ev, c') /\ step env c ev c'
          /\ length (tr ++ [ev])
             <= 3 * size V + Z.to_nat (Config.MaxConcurrent cfg) + 1)
  /\ ((forall w, worker_step env w c = None) -> all_stopped c)
  /\ (all_stopped c -> ctx_done c = false ->
      queue (q c) = [] /\ inflight c = []
      /\ url.String base ∈ seen (q c)
      /\ (forall it l,
            it ∈ resulted_of tr -> l ∈ links_of env it ->
            url.Host l = url.Host base -> url.String l ∈ seen (q c))
      /\ (forall s,
            s ∈ seen (q c)
            <-> s ∈ map Result.URL (results_of tr)
                \/ s ∈ map key (skipped_of tr))
      /\ (forall it, it ∈ skipped_of tr ->
            IsValid (validator c0) (QueueItem.URL it) = false
            \/ (Config.MaxDepth cfg < QueueItem.Depth it)%Z)
      /\ (forall it, it ∈ resulted_of tr ->
            IsValid (validator c0) (QueueItem.URL it) = true
            /\ (QueueItem.Depth it <= Config.MaxDepth cfg)%Z)).
Proof.
  intros Hnew Hbase Hclosed Hseed Hrun.
  pose proof (crawl_inv_run env cfg c0 base Hnew Hbase tr c Hrun) as HI.
  split.
  { pose proof (run_bounded env cfg c0 base Hnew Hbase V Hclosed Hseed tr c
                  Hrun) as Hb.
    rewrite (measure_Start env cfg c0 base Hnew Hbase V Hclosed Hseed) in Hb.
    lia. }
  split; [by apply (results_NoDup env cfg c0 base tr c)|].
  split.
  { intros w wk Hw Hne.
    destruct (worker_step_total env c w wk Hw Hne) as (ev & c' & Hstep).
    exists ev, c'. split; [done|].
    assert (step env c ev c') as Hs by (by apply (step_worker env w)).
    split; [done|].
    pose proof (run_bounded env cfg c0 base Hnew Hbase V Hclosed Hseed
                  (tr ++ [ev]) c' (run_snoc env _ tr c ev c' Hrun Hs)) as Hb.
    rewrite (measure_Start env cfg c0 base Hnew Hbase V Hclosed Hseed) in Hb.
    lia. }
  split.
  { intros Hnone. apply Forall_lookup. intros w wk Hw.
    destruct (decide (wk = Stopped)) as [|Hne]; [done|].
    destruct (worker_step_total env c w wk Hw Hne) as (ev & c' & Hstep).
    rewrite Hnone in Hstep. done. }
  intros Hall Hd.
  pose proof (quiescent_queue_empty env cfg c0 base tr c HI Hall Hd) as Hq.
  pose proof (inflight_all_stopped c Hall) as Hfl.
  split; [done|]. split; [done|].
  split; [apply (inv_seed _ _ _ _ _ _ HI)|].
  split.
  { intros it l Hit Hl Hh.
    destruct (inv_closed _ _ _ _ _ _ HI it l Hit Hl Hh)
      as [(w & page & Hw)|?]; [|done].
    unfold all_stopped in Hall. rewrite Forall_lookup in Hall.
    by specialize (Hall w _ Hw). }
  split.
  { intros s. rewrite <- elem_of_elements.
    rewrite <- (inv_partition _ _ _ _ _ _ HI). unfold admitted.
    rewrite Hq, (inv_fetched _ _ _ _ _ _ HI), Hfl. simpl.
    rewrite map_app, elem_of_app.
    rewrite (results_URLs env cfg c0 base tr c HI). tauto. }
  split; [apply (inv_skip _ _ _ _ _ _ HI)|].
  intros it Hit. apply (inv_fetch_ok _ _ _ _ _ _ HI).
  by apply (resulted_sub_fetched env cfg c0 base tr c).
Qed.

Lemma crawl_terminates_witness :
  let env := world diamond in
  let x := exec env slow_b (Start (example_crawler 2 2)) in
  NewCrawler env (example_config 2 2) = Some (example_crawler 2 2)
  /\ url.String example_root ∈ diamond_urls
  /\ size diamond_urls = 5
  /\ length (fst x)
     <= 3 * size diamond_urls
        + Z.to_nat (Config.MaxConcurrent (example_config 2 2)) + 1.
Proof.
  intros env x. split; [reflexivity|].
  assert (url.String example_root ∈ diamond_urls) as Hseed
    by (unfold diamond_urls; apply elem_of_list_to_set;
        apply list_elem_of_here).
  split; [exact Hseed|]. split; [vm_compute; reflexivity|].
  apply (crawl_terminates env (example_config 2 2) (example_crawler 2 2)
           example_root diamond_urls (fst x) (snd x)
           eq_refl eq_refl diamond_closed Hseed (exec_run env _ _)).
Defined.

(** ** More of queue.go *)

Section MoreQueueFacts.

Lemma push_one_behind (d : Z) (it : QueueItem.t) (rest : list QueueItem.t)
    (s : gset string) (h : string) (u : url.URL) :
  push_one d (mkURLQueue (it :: rest) s h) u
  = mkURLQueue (it :: queue (push_one d (mkURLQueue rest s h) u))
      (seen (push_one d (mkURLQueue rest s h) u)) h.
Proof.
  unfold push_one. simpl. case_bool_decide; [done|].
  by destruct (negb _).
Qed.

Lemma Push_behind (urls : list url.URL) (d : Z) (it : QueueItem.t)
    (rest : list QueueItem.t) (s : gset string) (h : string) :
  Push urls d (mkURLQueue (it :: rest) s h)
  = mkURLQueue (it :: queue (Push urls d (mkURLQueue rest s h)))
      (seen (Push urls d (mkURLQueue rest s h))) h.
Proof.
  revert rest s. induction urls as [|u urls IH]; intros rest s; [done|].
  rewrite !Push_cons, push_one_behind.
  pose proof (push_one_baseHost d (mkURLQueue rest s h) u) as Hh.
  destruct (push_one d (mkURLQueue rest s h) u) as [q1 s1 h1].
  simpl in *. subst h1. apply IH.
Qed.

Lemma NoDup_keys_size (l : list string) (X : gset string) :
  NoDup l -> (forall k, k ∈ l -> k ∈ X) -> length l <= size X.
Proof.
  intros Hnd Hsub.
  rewrite <- (size_list_to_set (C := gset string) l Hnd).
  apply subseteq_size. intros k Hk. apply Hsub.
  by apply elem_of_list_to_set in Hk.
Qed.

Lemma built_wf (base : url.URL) (q : URLQueue) :
  built base q ->
  baseHost q = url.Host base
  /\ NoDup (map key (queue q))
  /\ forall it, it ∈ queue q ->
       key it ∈ seen q /\ url.Host (QueueItem.URL it) = baseHost q.
Proof.
  induction 1 as [|q urls d _ (Hh & Hnd & Hin)|q _ (Hh & Hnd & Hin)
                  |q _ (Hh & Hnd & Hin)].
  - split; [done|]. split; [constructor|]. intros it H.
    by apply elem_of_nil in H.
  - rewrite Push_baseHost. split; [done|].
    rewrite Push_queue, map_app, new_items_keys. split.
    + apply NoDup_app. split; [done|]. split.
      * intros k Hk Hk'. apply new_items_fresh in Hk' as [Hfresh _].
        apply list_elem_of_fmap in Hk as (it & -> & Hit).
        by destruct (Hin it Hit).
      * apply first_occurrences_NoDup.
    + intros it Hit. apply elem_of_app in Hit as [Hit|Hit].
      * destruct (Hin it Hit). split; [by apply Push_seen_mono|done].
      * apply list_elem_of_fmap in Hit as (u & -> & Hu).
        split.
        -- rewrite Push_seen_new. apply elem_of_union. left.
           apply elem_of_list_to_set. apply list_elem_of_fmap. eauto.
        -- apply first_occurrences_elem in Hu.
           by apply list_elem_of_filter in Hu as [[_ ?] _].
  - unfold Pop. destruct (queue q) as [|it rest] eqn:Hq; simpl.
    + rewrite Hq. done.
    + split; [done|]. simpl in Hnd. inversion Hnd; subst.
      split; [done|]. intros it' Hit'. apply Hin. by right.
  - split; [done|]. split; [constructor|]. intros it H.
    by apply elem_of_nil in H.
Qed.

End MoreQueueFacts.

(** X1: Pushing behind a non-empty queue does not change what [Pop] returns
    next, and popping first or pushing first leaves the same queue. *)
Theorem Pop_Push_commute (urls : list url.URL) (d : Z) (q : URLQueue)
    (it : QueueItem.t) (rest : list QueueItem.t) :
  queue q = it :: rest ->
  Pop (Push urls d q) = (Some it, Push urls d (snd (Pop q))).
Proof.
  intros Hq. destruct q as [qq s h]. simpl in Hq. subst qq.
  rewrite Push_behind. unfold Pop at 1. cbn [queue seen baseHost].
  unfold Pop. cbn [queue snd seen baseHost].
  pose proof (Push_baseHost urls d (mkURLQueue rest s h)) as Hh.
  destruct (Push urls d (mkURLQueue rest s h)) as [q1 s1 h1].
  simpl in *. by subst h1.
Qed.

Lemma Pop_Push_commute_witness :
  Pop (Push [example_page "/b"] 1
         (Push [example_root; example_page "/a"] 0 (NewURLQueue example_root)))
  = (Some (QueueItem.mk example_root 0),
     Push [example_page "/b"] 1
       (snd (Pop (Push [example_root; example_page "/a"] 0
                    (NewURLQueue example_root))))).
Proof.
  apply (Pop_Push_commute [example_page "/b"] 1
           (Push [example_root; example_page "/a"] 0 (NewURLQueue example_root))
           (QueueItem.mk example_root 0)
           [QueueItem.mk (example_page "/a") 0]).
  reflexivity.
Defined.

(** X2: Every queue reached from [NewURLQueue] by [Push], [Pop] and [Clear]
    holds each URL string at most once, holds only URLs that [HasSeen]
    reports as seen and [IsInDomain] as in the domain, and has [Len] at most
    [SeenCount]. *)
Theorem built_queue_invariant (base : url.URL) (q : URLQueue) :
  built base q ->
  NoDup (map key (queue q))
  /\ (forall it, it ∈ queue q ->
        HasSeen q (QueueItem.URL it) = true
        /\ IsInDomain q (QueueItem.URL it) = true)
  /\ Len q <= SeenCount q.
Proof.
  intros Hb. destruct (built_wf base q Hb) as (Hh & Hnd & Hin).
  split; [done|]. split.
  - intros it Hit. destruct (Hin it Hit) as [Hs Hd]. split.
    + unfold HasSeen. by apply bool_decide_eq_true_2.
    + unfold IsInDomain. rewrite Hd. apply String.eqb_refl.
  - unfold Len, SeenCount. rewrite <- (length_map key).
    apply NoDup_keys_size; [done|].
    intros k Hk. apply list_elem_of_fmap in Hk as (it & -> & Hit).
    by destruct (Hin it Hit).
Qed.

Lemma built_queue_invariant_witness :
  let q := snd (Pop (Push [example_root; example_page "/a"; example_root] 0
                      (NewURLQueue example_root))) in
  queue q = [QueueItem.mk (example_page "/a") 0]
  /\ SeenCount q = 2
  /\ Len q <= SeenCount q.
Proof.
  intros q. split; [reflexivity|]. split; [reflexivity|].
  apply (built_queue_invariant example_root q).
  apply built_pop, built_push, built_new.
Defined.

(** ** More of validator.go and config.go *)

Section ValidatorFacts.

Lemma ToLower_app (a b : string) :
  strings.ToLower (a ++ b) = strings.ToLower a ++ strings.ToLower b.
Proof.
  induction a as [|x a IH]; [done|].
  change (String x a ++ b) with (String x (a ++ b)). simpl.
  rewrite IH. done.
Qed.

Lemma existsb_app_false {A : Type} (f : A -> bool) (l1 l2 : list A) :
  existsb f (l1 ++ l2) = false -> existsb f l1 = false.
Proof. rewrite existsb_app. by intros [? _]%orb_false_elim. Qed.

Lemma existsb_app_true {A : Type} (f : A -> bool) (l1 l2 : list A) :
  existsb f l1 = true -> existsb f (l1 ++ l2) = true.
Proof. rewrite existsb_app. by intros ->. Qed.

Lemma compile_all_None (C : string -> option Regexp) (l : list string) :
  compile_all C l = None <-> exists p, p ∈ l /\ C p = None.
Proof.
  induction l as [|p l IH]; simpl.
  - split; [done|]. intros (p & Hp & _). by apply elem_of_nil in Hp.
  - destruct (C p) as [re|] eqn:Hp.
    + destruct (compile_all C l) as [res|].
      * split; [done|]. intros (p' & Hin & Hn).
        apply elem_of_cons in Hin as [->|Hin]; [congruence|].
        assert (None = Some res -> False) by done.
        destruct IH as [_ IH]. discriminate IH. eauto.
      * split; [|done]. intros _. destruct IH as [IH _].
        destruct (IH eq_refl) as (p' & Hin & Hn). exists p'.
        split; [by right|done].
    + split; [|done]. intros _. exists p. split; [left|done].
Qed.

Lemma compile_all_Some (C : string -> option Regexp) (l : list string)
    (res : list Regexp) :
  compile_all C l = Some res -> Forall2 (fun p re => C p = Some re) l res.
Proof.
  revert res. induction l as [|p l IH]; intros res; simpl.
  - intros [= <-]. constructor.
  - destruct (C p) as [re|] eqn:Hp; [|done].
    destruct (compile_all C l) as [res'|]; [|done].
    intros [= <-]. constructor; [done|]. by apply IH.
Qed.

Lemma NewURLValidator_None (C : string -> option Regexp) (base : url.URL)
    (exclude include : list string) :
  NewURLValidator C base exclude include = None
  <-> exists p, (p ∈ exclude \/ p ∈ include) /\ C p = None.
Proof.
  unfold NewURLValidator.
  destruct (compile_all C exclude) as [ex|] eqn:Hex.
  - destruct (compile_all C include) as [inc|] eqn:Hinc.
    + split; [done|]. intros (p & [Hp|Hp] & Hn).
      * assert (compile_all C exclude = None)
          by (apply compile_all_None; eauto). congruence.
      * assert (compile_all C include = None)
          by (apply compile_all_None; eauto). congruence.
    + split; [|done]. intros _.
      apply compile_all_None in Hinc as (p & Hp & Hn). eauto.
  - split; [|done]. intros _.
    apply compile_all_None in Hex as (p & Hp & Hn). eauto.
Qed.

End ValidatorFacts.

(** X3: A path that ends in a listed extension, in any letter case, is a
    non-content file, and no validator accepts a URL with such a path. *)
Theorem extension_rejected_in_any_case (v : URLValidator) (u : url.URL)
    (p e ext : string) :
  In ext nonContentExts ->
  strings.ToLower e = ext ->
  url.Path u = p ++ e ->
  isNonContentFile (url.Path u) = true /\ IsValid v u = false.
Proof.
  intros Hext He Hp.
  assert (isNonContentFile (url.Path u) = true) as Hnc.
  { unfold isNonContentFile. apply existsb_exists. exists ext.
    split; [done|]. rewrite Hp, ToLower_app, He.
    apply HasSuffix_spec. eauto. }
  split; [done|]. unfold IsValid. rewrite Hnc.
  destruct (_ =? _)%string; [done|]. destruct (_ && _); [done|].
  by destruct (negb _).
Qed.

Lemma extension_rejected_in_any_case_witness :
  IsValid (mkURLValidator example_root [] []) (example_page "/img/Logo.PNG")
  = false.
Proof.
  apply (extension_rejected_in_any_case (mkURLValidator example_root [] [])
           (example_page "/img/Logo.PNG") "/img/Logo" ".PNG" ".png").
  - vm_compute. tauto.
  - reflexivity.
  - reflexivity.
Defined.

(** X4: Patterns only restrict: a URL valid under more exclude patterns is valid
    under fewer, a URL valid under some include patterns is valid with none,
    and adding include patterns to a non-empty list keeps valid URLs
    valid. *)
Theorem IsValid_monotone (base : url.URL) (ex ex' inc inc' : list Regexp)
    (u : url.URL) :
  (IsValid (mkURLValidator base (ex ++ ex') inc) u = true ->
   IsValid (mkURLValidator base ex inc) u = true)
  /\ (IsValid (mkURLValidator base ex inc) u = true ->
      IsValid (mkURLValidator base ex []) u = true)
  /\ (inc <> [] ->
      IsValid (mkURLValidator base ex inc) u = true ->
      IsValid (mkURLValidator base ex (inc ++ inc')) u = true).
Proof.
  unfold IsValid. simpl.
  destruct (_ =? _)%string; [done|]. destruct (_ && _); [done|].
  destruct (negb _); [done|]. destruct (isNonContentFile _); [done|].
  split; [|split].
  - destruct (existsb _ (ex ++ ex')) eqn:Hex; [done|].
    by rewrite (existsb_app_false _ _ _ Hex).
  - by destruct (existsb _ ex).
  - intros Hne. destruct (existsb _ ex); [done|].
    destruct inc as [|r inc]; [done|]. simpl length. simpl Nat.ltb.
    cbn [app length Nat.ltb Nat.leb]. intros H.
    change (r :: inc ++ inc')%list with ((r :: inc) ++ inc')%list.
    by apply existsb_app_true.
Qed.

(** X5: [NewURLValidator] fails exactly when some exclude or include pattern
    does not compile; when it succeeds the validator holds the base URL and
    the compiled patterns, one per pattern and in order. *)
Theorem NewURLValidator_result (C : string -> option Regexp) (base : url.URL)
    (exclude include : list string) :
  (NewURLValidator C base exclude include = None
   <-> exists p, (p ∈ exclude \/ p ∈ include) /\ C p = None)
  /\ forall v,
       NewURLValidator C base exclude include = Some v ->
       baseURL v = base
       /\ Forall2 (fun p re => C p = Some re) exclude (excludePatterns v)
       /\ Forall2 (fun p re => C p = Some re) include (includePatterns v).
Proof.
  split; [apply NewURLValidator_None|]. unfold NewURLValidator.
  - intros v. destruct (compile_all C exclude) as [ex|] eqn:Hex; [|done].
    destruct (compile_all C include) as [inc|] eqn:Hinc; [|done].
    intros [= <-]. simpl. split; [done|].
    split; by apply compile_all_Some.
Qed.

(** X6: The default configuration of a URL that parses passes [Validate], and
    a crawler can be built from it in any environment: it starts with an
    empty queue, nothing seen and both counters at zero. A URL that does not
    parse has no default configuration. *)
Theorem DefaultConfig_valid (env : Env) (baseURL : string) (cfg : Config.t) :
  DefaultConfig baseURL = Some cfg ->
  Config.BaseURL cfg = url.Parse baseURL
  /\ Validate cfg = None
  /\ exists c,
       NewCrawler env cfg = Some c
       /\ queue (q c) = [] /\ seen (q c) = ∅ /\ Stats c = (0%Z, 0%Z)
       /\ workers c = [].
Proof.
  unfold DefaultConfig. destruct (url.Parse baseURL) as [parsed|]; [|done].
  intros [= <-]. split; [done|]. split; [done|].
  eexists. split; [reflexivity|]. done.
Qed.

Lemma DefaultConfig_valid_witness :
  exists cfg,
    DefaultConfig "https://example.com/" = Some cfg
    /\ Config.BaseURL cfg = Some example_root
    /\ Validate cfg = None.
Proof.
  eexists. split; [reflexivity|].
  destruct (DefaultConfig_valid (world []) "https://example.com/" _ eq_refl)
    as (Hb & Hv & _).
  split; [exact Hb|exact Hv].
Defined.

(** X7: On a configuration that passes [Validate], an option keeps it passing
    exactly when the value it sets is in range; the pattern options and
    [WithFollowRedirects] always do, since [Validate] does not look at
    patterns. *)
Theorem options_keep_valid (cfg : Config.t) (n : Z) (s : string) (b : bool)
    (ps : list string) :
  Validate cfg = None ->
  (Validate (WithMaxDepth n cfg) = None <-> (0 <= n)%Z)
  /\ (Validate (WithMaxConcurrent n cfg) = None <-> (1 <= n)%Z)
  /\ (Validate (WithRequestTimeout n cfg) = None <-> (Second <= n)%Z)
  /\ (Validate (WithRateLimit n cfg) = None <-> (0 <= n)%Z)
  /\ (Validate (WithUserAgent s cfg) = None <-> s <> "")
  /\ Validate (WithFollowRedirects b cfg) = None
  /\ Validate (WithExcludePatterns ps cfg) = None
  /\ Validate (WithIncludePatterns ps cfg) = None.
Proof.
  unfold Validate. destruct cfg as [bu md mc rt rl ua fr ex inc]. simpl.
  destruct bu as [base|]; [|done].
  destruct (Z.ltb_spec md 0); [done|].
  destruct (Z.ltb_spec mc 1); [done|].
  destruct (Z.ltb_spec rt Second); [done|].
  destruct (Z.ltb_spec rl 0); [done|].
  destruct (String.eqb_spec ua ""); [done|]. intros _.
  repeat split; try done;
    try (destruct (Z.ltb_spec n 0); (done || lia));
    try (destruct (Z.ltb_spec n 1); (done || lia));
    try (destruct (Z.ltb_spec n Second); (done || lia));
    try (destruct (String.eqb_spec s ""); (done || congruence)).
Qed.

Lemma options_keep_valid_witness :
  Validate (example_config 1 1) = None
  /\ (Validate (WithMaxConcurrent 0 (example_config 1 1)) = None
      <-> (1 <= 0)%Z).
Proof.
  split; [reflexivity|].
  apply (options_keep_valid (example_config 1 1) 0 "" true [] eq_refl).
Defined.

(** X8: [NewCrawler] fails exactly when the configuration does not pass
    [Validate] or one of its patterns does not compile. *)
Theorem NewCrawler_fails_iff (env : Env) (cfg : Config.t) :
  NewCrawler env cfg = None
  <-> Validate cfg <> None
      \/ exists p,
           (p ∈ Config.ExcludePatterns cfg \/ p ∈ Config.IncludePatterns cfg)
           /\ Compile env p = None.
Proof.
  unfold NewCrawler. destruct (Validate cfg) as [msg|] eqn:Hv.
  { split; [by left|done]. }
  destruct (Config.BaseURL cfg) as [base|] eqn:Hb.
  - pose proof (NewURLValidator_None (Compile env) base
                  (Config.ExcludePatterns cfg) (Config.IncludePatterns cfg))
      as Hnone.
    destruct (NewURLValidator _ _ _ _) as [v|].
    + split; [done|]. intros [?|Hp]; [done|].
      by apply Hnone in Hp.
    + split; [|done]. intros _. right. by apply Hnone.
  - unfold Validate in Hv. by rewrite Hb in Hv.
Qed.

(** ** More of NormalizePath and IsSubpath *)

Section SubpathFacts.

Lemma NormalizePath_no_trailing (p : string) :
  strings.HasPrefix p "/" = true -> strings.HasSuffix p "/" = false ->
  NormalizePath p = p.
Proof.
  intros Hp Hs. unfold NormalizePath. rewrite Hs, andb_false_r. by rewrite Hp.
Qed.

Lemma HasPrefix_refl (x : string) : strings.HasPrefix x x = true.
Proof. apply HasPrefix_spec. exists "". by rewrite string_app_nil_r. Qed.

Lemma HasPrefix_trans (a b c : string) :
  strings.HasPrefix b a = true -> strings.HasPrefix c b = true ->
  strings.HasPrefix c a = true.
Proof.
  intros [x ->]%HasPrefix_spec [y ->]%HasPrefix_spec.
  apply HasPrefix_spec. exists (x ++ y). apply string_app_assoc.
Qed.

End SubpathFacts.

(** X9: A single trailing slash does not matter to [NormalizePath]: a path that
    does not end in a slash and the same path followed by one slash have the
    same normal form. *)
Theorem NormalizePath_trailing_slash (p : string) :
  strings.HasSuffix p "/" = false ->
  NormalizePath (p ++ "/") = NormalizePath p.
Proof.
  intros Hs. destruct p as [|a p]; [done|].
  unfold NormalizePath.
  assert ((String a p ++ "/" =? "/")%string = false) as ->.
  { apply String.eqb_neq. change (String a p ++ "/") with (String a (p ++ "/")).
    intros [= _ H]. by destruct p. }
  assert (strings.HasSuffix (String a p ++ "/") "/" = true) as ->
    by (apply HasSuffix_spec; eauto).
  rewrite TrimSuffix_app, Hs, andb_false_r. done.
Qed.

Lemma NormalizePath_trailing_slash_witness :
  NormalizePath ("docs/api" ++ "/") = NormalizePath "docs/api".
Proof. apply (NormalizePath_trailing_slash "docs/api"). reflexivity. Defined.

(** X10: [IsSubpath] is reflexive and transitive, and the root path (written "/"
    or empty) is a parent of every path. *)
Theorem IsSubpath_preorder (a b c : string) :
  IsSubpath a a = true
  /\ IsSubpath "/" c = true
  /\ IsSubpath "" c = true
  /\ (IsSubpath a b = true -> IsSubpath b c = true -> IsSubpath a c = true).
Proof.
  unfold IsSubpath. split; [apply HasPrefix_refl|].
  split; [apply NormalizePath_leading_slash|].
  split; [apply NormalizePath_leading_slash|].
  apply HasPrefix_trans.
Qed.

(** X11: [IsSubpath] compares strings, not path segments: any path that starts
    with "/" is a parent of every path that extends it as a string and does
    not end in a slash, whether or not the extension begins at a segment
    boundary ("/a" is a parent of "/ab"). *)
Theorem IsSubpath_string_prefix (p s : string) :
  strings.HasPrefix p "/" = true ->
  strings.HasSuffix (p ++ s) "/" = false ->
  IsSubpath p (p ++ s) = true.
Proof.
  intros Hp Hs. unfold IsSubpath.
  assert (strings.HasPrefix (p ++ s) "/" = true) as Hps.
  { apply HasPrefix_spec in Hp as [p' ->]. apply HasPrefix_spec.
    exists (p' ++ s). apply string_app_assoc. }
  rewrite (NormalizePath_no_trailing (p ++ s) Hps Hs).
  unfold NormalizePath.
  destruct (String.eqb_spec p "/") as [->|Hne]; simpl.
  { apply HasPrefix_spec. eauto. }
  destruct (strings.HasSuffix p "/") eqn:Hsuf.
  - apply HasSuffix_spec in Hsuf as [x ->]. rewrite TrimSuffix_app.
    destruct (strings.HasPrefix x "/") eqn:Hx; simpl.
    + apply HasPrefix_spec. exists ("/" ++ s). by rewrite string_app_assoc.
    + destruct x as [|c x]; [done|].
      apply HasPrefix_spec in Hp as [p' Hp'].
      change (String c x ++ "/") with (String c (x ++ "/")) in Hp'.
      change ("/" ++ p') with (String "/" p') in Hp'.
      injection Hp' as -> _.
      assert (strings.HasPrefix (String "/" x) "/" = true)
        by (apply HasPrefix_spec; by exists x).
      congruence.
  - rewrite Hp. simpl. apply HasPrefix_spec. eauto.
Qed.

Lemma IsSubpath_string_prefix_witness :
  IsSubpath "/a" ("/a" ++ "b") = true.
Proof. apply (IsSubpath_string_prefix "/a" "b"); reflexivity. Defined.

(** ** More of page.go *)

Section PageFacts.

Lemma normalizeURL_URL_only (p p' : Page.t) (raw : string) :
  Page.URL p = Page.URL p' -> normalizeURL p raw = normalizeURL p' raw.
Proof. intros H. unfold normalizeURL. by rewrite H. Qed.

Lemma append_link_Forall (P : url.URL -> Prop) (p : Page.t)
    (links : list url.URL) (raw : string) :
  (forall raw l, normalizeURL p raw = Some l -> P l) ->
  Forall P links -> Forall P (append_link links (normalizeURL p raw)).
Proof.
  intros HP Hl. destruct (normalizeURL p raw) as [l|] eqn:Hn; simpl; [|done].
  apply Forall_app. split; [done|]. constructor; [eauto|constructor].
Qed.

(** Whatever holds of every result of [normalizeURL] holds of every link
    [traverse] collects. *)
Lemma traverse_Forall (P : url.URL -> Prop) (p : Page.t) :
  (forall raw l, normalizeURL p raw = Some l -> P l) ->
  forall n links, Forall P links -> Forall P (traverse p n links).
Proof.
  intros HP. fix IH 1. intros [ty data attrs children] links Hl.
  cbn [traverse].
  match goal with
  | |- Forall P (fold_left _ _ ?start) =>
      assert (Forall P start) as Hstart
  end.
  { destruct ty; try done.
    assert (Forall P
              (if (data =? "a")%string
               then match first_href attrs with
                    | Some val => append_link links (normalizeURL p val)
                    | None => links
                    end
               else links)) as Ha.
    { destruct (data =? "a")%string; [|done].
      destruct (first_href attrs); [|done]. by apply append_link_Forall. }
    destruct (data =? "link")%string; [|done].
    destruct (rel_href attrs) as [rel href].
    destruct (_ && _); [|done]. by apply append_link_Forall. }
  match goal with
  | |- Forall P (fold_left _ _ ?start) => generalize dependent start
  end.
  induction children as [|c cs IHcs]; intros start Hstart; simpl; [done|].
  apply IHcs. by apply IH.
Qed.

End PageFacts.

(** X13: [Process] never changes the URL, the depth or the [Error] field of the
    page (the error is returned, not stored); a failed fetch leaves the
    links as they were; and when no response with status 200 arrived the
    page is returned as it was given. *)
Theorem Process_keeps_page (env : Env) (p p' : Page.t) (err : option error) :
  Process env p = (p', err) ->
  Page.URL p' = Page.URL p
  /\ Page.Depth p' = Page.Depth p
  /\ Page.Error p' = Page.Error p
  /\ (err <> None -> Page.Links p' = Page.Links p)
  /\ (err <> None -> err <> Some ErrParseHTML -> p' = p).
Proof.
  unfold Process.
  destruct (Do env _) as [| |status lastMod body];
    try (intros [= <- <-]; done).
  destruct (negb _); [intros [= <- <-]; done|].
  unfold parseHTML. destruct body as [doc|]; intros [= <- <-]; done.
Qed.

Lemma Process_keeps_page_witness :
  fst (Process (world []) (NewPage example_root 0)) = NewPage example_root 0.
Proof.
  apply (Process_keeps_page (world []) (NewPage example_root 0) _
           (Some (ErrStatusCode 404)) eq_refl); done.
Defined.

(** X14: When a response with status 200 arrived, whether or not its body could
    be parsed, the page's [LastModified] is not the zero time, as long as
    the clock itself is not at the zero time. *)
Theorem Process_LastModified_set (env : Env) (p p' : Page.t)
    (err : option error) :
  time_Now env <> 0%Z ->
  Process env p = (p', err) ->
  err = None \/ err = Some ErrParseHTML ->
  Page.LastModified p' <> 0%Z.
Proof.
  intros Hnow. unfold Process.
  destruct (Do env _) as [| |status lastMod body];
    try (intros [= <- <-] [?|?]; done).
  destruct (negb _); [intros [= <- <-] [?|?]; done|].
  set (t := if negb (lastMod =? "")%string then _ else _).
  unfold parseHTML.
  assert ((if IsZero t then time_Now env else t) <> 0%Z) as Hnz.
  { unfold IsZero. by destruct (Z.eqb_spec t 0). }
  destruct body as [doc|]; intros [= <- <-] _; done.
Qed.

Lemma Process_LastModified_set_witness :
  Page.LastModified
    (fst (Process zero_date_world (NewPage example_root 0))) <> 0%Z.
Proof.
  apply (Process_LastModified_set zero_date_world (NewPage example_root 0) _
           None); [done|reflexivity|by left].
Defined.

Section TraverseOrder.

Context (p : Page.t).

Lemma append_link_acc (links : list url.URL) (x : option url.URL) :
  append_link links x = (links ++ append_link [] x)%list.
Proof. destruct x; simpl; [done|by rewrite app_nil_r]. Qed.

(** The links [traverse] adds do not depend on the links collected so far. *)
Lemma traverse_acc :
  forall n links, traverse p n links = (links ++ traverse p n [])%list.
Proof.
  fix IH 1. intros [ty data attrs children] links. cbn [traverse].
  match goal with
  | |- fold_left _ _ ?a = (_ ++ fold_left _ _ ?b)%list =>
      assert (a = (links ++ b)%list) as ->
  end.
  { destruct ty; try (by rewrite app_nil_r).
    destruct (data =? "a")%string.
    - destruct (first_href attrs) as [val|].
      + rewrite (append_link_acc links).
        destruct (data =? "link")%string; [|done].
        destruct (rel_href attrs) as [rel href].
        destruct (_ && _); [|done].
        rewrite (append_link_acc (links ++ _)),
          (append_link_acc (append_link [] _)).
        by rewrite app_assoc.
      + destruct (data =? "link")%string; [|by rewrite app_nil_r].
        destruct (rel_href attrs) as [rel href].
        destruct (_ && _); [|by rewrite app_nil_r].
        apply append_link_acc.
    - destruct (data =? "link")%string; [|by rewrite app_nil_r].
      destruct (rel_href attrs) as [rel href].
      destruct (_ && _); [|by rewrite app_nil_r].
      apply append_link_acc. }
  match goal with
  | |- fold_left _ _ (_ ++ ?b)%list = _ => generalize b
  end.
  induction children as [|c cs IHcs]; intros start; simpl; [done|].
  rewrite (IH c (links ++ start)%list), (IH c start).
  rewrite <- app_assoc. apply IHcs.
Qed.

Lemma fold_traverse_concat (cs : list Node) (start : list url.URL) :
  fold_left (fun acc c => traverse p c acc) cs start
  = (start ++ concat (map (fun c => traverse p c []) cs))%list.
Proof.
  revert start. induction cs as [|c cs IH]; intros start; simpl.
  - by rewrite app_nil_r.
  - rewrite IH, (traverse_acc c start). by rewrite <- app_assoc.
Qed.

End TraverseOrder.

(** X15: Links are collected in document order: what a node contributes does not
    depend on what was collected before it, and a node's links are its own
    followed by those of its children, child by child. *)
Theorem traverse_document_order (p : Page.t) (ty : NodeType) (data : string)
    (attrs : list Attribute) (children : list Node) (links : list url.URL) :
  traverse p (mkNode ty data attrs children) links
  = (links ++ traverse p (mkNode ty data attrs []) []
     ++ concat (map (fun c => traverse p c []) children))%list.
Proof.
  rewrite traverse_acc. f_equal. cbn [traverse].
  rewrite fold_traverse_concat. done.
Qed.

(** ** More of crawler.go and its caller *)

Section MoreCrawlFacts.

Lemma int_wrap_add_l (a b : Z) : int_wrap (int_wrap a + b) = int_wrap (a + b).
Proof.
  unfold int_wrap.
  replace ((a + 2 ^ 63) mod 2 ^ 64 - 2 ^ 63 + b + 2 ^ 63)%Z
    with ((a + 2 ^ 63) mod 2 ^ 64 + b)%Z by lia.
  rewrite Zplus_mod_idemp_l. f_equal. f_equal. lia.
Qed.

Lemma int_wrap_0 : int_wrap 0 = 0%Z.
Proof. reflexivity. Qed.

Lemma consume_spec (results : list Result.t) (a b : Z)
    (added : list (string * Time)) :
  consume results (int_wrap a) (int_wrap b) added
  = (int_wrap (a + Z.of_nat (length (filter
                  (fun r => ~ is_Some (Result.Error r)) results))),
     int_wrap (b + Z.of_nat (length (filter
                  (fun r => is_Some (Result.Error r)) results))),
     (added
      ++ map (fun r => (Result.URL r, Result.LastMod r))
           (filter (fun r => ~ is_Some (Result.Error r)) results))%list).
Proof.
  revert a b added. induction results as [|r rs IH]; intros a b added.
  - simpl. by rewrite !Z.add_0_r, app_nil_r.
  - simpl consume. destruct (Result.Error r) as [e|] eqn:He.
    + unfold int_add. rewrite int_wrap_add_l, IH.
      rewrite (filter_cons_True (fun r => is_Some (Result.Error r)))
        by (rewrite He; eauto).
      rewrite (filter_cons_False (fun r => ~ is_Some (Result.Error r)))
        by (rewrite He; intros H; apply H; eauto).
      simpl length. rewrite Nat2Z.inj_succ.
      repeat (apply pair_equal_spec; split); try done; f_equal; lia.
    + unfold int_add. rewrite int_wrap_add_l, IH.
      rewrite (filter_cons_False (fun r => is_Some (Result.Error r)))
        by (rewrite He; by intros [? ?]).
      rewrite (filter_cons_True (fun r => ~ is_Some (Result.Error r)))
        by (rewrite He; by intros [? ?]).
      simpl length. simpl map. rewrite <- app_assoc, Nat2Z.inj_succ. simpl.
      repeat (apply pair_equal_spec; split); try done; f_equal; lia.
Qed.

Lemma workers_length_run (env : Env) (c0 : Crawler) (tr : list Event)
    (c : Crawler) :
  run env c0 tr c -> length (workers c) = length (workers c0).
Proof.
  induction 1 as [|tr c ev c' Hr IH Hs]; [done|].
  apply step_cases in Hs.
  destruct Hs; cbn [workers cancel set_worker set_q count_stats];
    by rewrite ?length_insert.
Qed.

Lemma fetching_length (ws : list Worker) :
  length (ws ≫= fetching) <= length ws.
Proof.
  induction ws as [|wk ws IH]; [done|].
  rewrite bind_cons, length_app. destruct wk; simpl; lia.
Qed.

Lemma IsValid_true (v : URLValidator) (u : url.URL) :
  IsValid v u = true ->
  (url.Scheme u = "http" \/ url.Scheme u = "https")
  /\ url.Host u = url.Host (baseURL v)
  /\ isNonContentFile (url.Path u) = false
  /\ existsb (fun re => MatchString re (url.String u)) (excludePatterns v)
     = false.
Proof.
  unfold IsValid. destruct (_ =? _)%string; [done|].
  destruct (String.eqb_spec (url.Scheme u) "http") as [Hh|Hh];
    destruct (String.eqb_spec (url.Scheme u) "https") as [Hs|Hs];
    simpl; try done;
    (destruct (String.eqb_spec (url.Host u) (url.Host (baseURL v)));
     simpl; [|done]);
    (destruct (isNonContentFile _); [done|]);
    (destruct (existsb _ (excludePatterns v)); [done|]); auto.
Qed.

End MoreCrawlFacts.

Section RunFacts.

Context (env : Env).

Lemma NewCrawler_inv (cfg : Config.t) (c0 : Crawler) :
  NewCrawler env cfg = Some c0 ->
  exists base v,
    Config.BaseURL cfg = Some base
    /\ NewURLValidator (Compile env) base (Config.ExcludePatterns cfg)
         (Config.IncludePatterns cfg) = Some v
    /\ c0 = mkCrawler cfg (NewURLQueue base) v 0%Z 0%Z [] false.
Proof.
  unfold NewCrawler. destruct (Validate cfg); [done|].
  destruct (Config.BaseURL cfg) as [base|]; [|done].
  destruct (NewURLValidator _ _ _ _) as [v|] eqn:Hv; [|done].
  intros [= <-]. by exists base, v.
Qed.

Lemma popped_of_snoc (tr : list Event) (ev : Event) :
  popped_of (tr ++ [ev])
  = (popped_of tr
     ++ match ev with EvSkip _ it | EvFetch _ it => [it] | _ => [] end)%list.
Proof. unfold popped_of. rewrite omap_app. by destruct ev. Qed.

Lemma Forall2_existsb_false {A B : Type} (P : A -> B -> Prop) (f : B -> bool)
    (l : list A) (res : list B) :
  Forall2 P l res -> existsb f res = false ->
  forall p, p ∈ l -> exists re, P p re /\ f re = false.
Proof.
  induction 1 as [|p re l res Hp _ IH]; simpl; intros He p' Hin.
  - by apply elem_of_nil in Hin.
  - apply orb_false_iff in He as [He1 He2].
    apply elem_of_cons in Hin as [->|Hin]; eauto.
Qed.

Lemma Forall2_existsb_true {A B : Type} (P : A -> B -> Prop) (f : B -> bool)
    (l : list A) (res : list B) :
  Forall2 P l res -> existsb f res = true ->
  exists p re, p ∈ l /\ P p re /\ f re = true.
Proof.
  induction 1 as [|p re l res Hp _ IH]; simpl; intros He; [done|].
  apply orb_true_iff in He as [He|He].
  - exists p, re. split; [left|done].
  - destruct (IH He) as (p' & re' & Hin & HP & Hf).
    exists p', re'. split; [by right|done].
Qed.

Lemma IsValid_include (v : URLValidator) (u : url.URL) :
  IsValid v u = true ->
  includePatterns v = []
  \/ existsb (fun re => MatchString re (url.String u)) (includePatterns v)
     = true.
Proof.
  unfold IsValid. destruct (_ =? _)%string; [done|].
  destruct (_ && _); [done|]. destruct (negb _); [done|].
  destruct (isNonContentFile _); [done|].
  destruct (existsb _ (excludePatterns v)); [done|].
  destruct (includePatterns v) as [|re res]; [by left|].
  simpl length. cbn [Nat.ltb Nat.leb]. by right.
Qed.

Lemma single_lookup (wk x : Worker) (w : nat) :
  [wk] !! w = Some x -> w = 0 /\ wk = x.
Proof. destruct w as [|w]; [by intros [= ->]|done]. Qed.

Lemma sorted_same_depth (L : list url.URL) (d : Z) :
  StronglySorted Z.le
    (map QueueItem.Depth (map (fun u => QueueItem.mk u d) L)).
Proof.
  induction L as [|u L IH]; simpl; constructor; [done|].
  clear IH. induction L as [|u' L IH]; simpl; constructor; [lia|done].
Qed.

Lemma Forall_same_depth (L : list url.URL) (d : Z) (P : QueueItem.t -> Prop) :
  (forall u, P (QueueItem.mk u d)) ->
  Forall P (map (fun u => QueueItem.mk u d) L).
Proof. intros HP. induction L as [|u L IH]; simpl; constructor; auto. Qed.

Lemma sorted_snoc (l : list Z) (x : Z) :
  StronglySorted Z.le l -> Forall (fun y => (y <= x)%Z) l ->
  StronglySorted Z.le (l ++ [x]).
Proof.
  intros Hs Hb. apply StronglySorted_app. split; [|split; [done|]].
  - intros x1 x2 H1 H2. apply list_elem_of_singleton in H2 as ->.
    rewrite Forall_forall in Hb. by apply Hb.
  - repeat constructor.
Qed.

Section SingleWorker.

Context (cfg : Config.t).
Hypothesis Hmax : (Config.MaxDepth cfg < 2 ^ 63 - 1)%Z.

Lemma bfs_pop (tr : list Event) (c : Crawler) (d0 : Z) (ev : Event)
    (item : QueueItem.t) (rest : list QueueItem.t) (wk : Worker) :
  bfs_inv cfg tr c d0 ->
  queue (q c) = item :: rest ->
  popped_of (tr ++ [ev]) = (popped_of tr ++ [item])%list ->
  results_of (tr ++ [ev]) = results_of tr ->
  (forall it, it ∈ held wk ->
     it = item /\ (QueueItem.Depth item <= Config.MaxDepth cfg)%Z) ->
  bfs_inv cfg (tr ++ [ev])
    (mkCrawler (config c) (mkURLQueue rest (seen (q c)) (baseHost (q c)))
       (validator c) (processed c) (errors c) [wk] (ctx_done c))
    (QueueItem.Depth item).
Proof.
  intros [Hc Hn _ Hps Hpb Hqs Hqb Hrs Hrb] Hq Hpop Hres Hheld.
  rewrite Hq in Hqs, Hqb. simpl in Hqs.
  apply StronglySorted_cons in Hqs as [Hhd Hqs].
  apply Forall_cons in Hqb as [Hitem Hqb].
  rewrite Forall_forall in Hhd. rewrite Forall_forall in Hqb.
  rewrite Forall_forall in Hpb. rewrite Forall_forall in Hrb.
  constructor; simpl; rewrite ?Hpop, ?Hres; try done.
  - lia.
  - exists wk. split; [done|]. intros it Hit.
    destruct (Hheld it Hit) as [-> ?]. done.
  - rewrite map_app. apply sorted_snoc; [done|].
    apply Forall_forall. intros d (it & -> & Hit)%list_elem_of_fmap.
    specialize (Hpb it Hit). simpl in Hpb. lia.
  - apply Forall_app. split; [|by repeat constructor].
    apply Forall_forall. intros it Hit. specialize (Hpb it Hit).
    simpl in Hpb. lia.
  - apply Forall_forall. intros it Hit. specialize (Hqb it Hit).
    simpl in Hqb. split; [|lia]. apply Hhd.
    apply list_elem_of_fmap. by exists it.
  - apply Forall_forall. intros r Hr. specialize (Hrb r Hr).
    simpl in Hrb. lia.
Qed.

Lemma bfs_step (tr : list Event) (c : Crawler) (d0 : Z) (ev : Event)
    (c' : Crawler) :
  bfs_inv cfg tr c d0 -> step env c ev c' ->
  exists d1, bfs_inv cfg (tr ++ [ev]) c' d1.
Proof.
  intros HI Hs. pose proof HI as [Hc Hn (wk & Hwk & Hheld) Hps Hpb Hqs Hqb Hrs Hrb].
  apply step_cases in Hs.
  destruct Hs as [Hd|w Hw _|w item rest Hw Hd Hq _|w item rest Hw Hd Hq _ Hdep
                  |w item page err Hw Hp|w item page Hw|w item page e Hw];
    try (rewrite Hwk in Hw; apply single_lookup in Hw as [-> ->]).
  - exists d0. constructor; rewrite ?popped_of_snoc, ?results_of_snoc,
      ?app_nil_r; simpl; eauto.
  - exists d0. constructor; rewrite ?popped_of_snoc, ?results_of_snoc,
      ?app_nil_r; simpl; try done.
    rewrite Hwk. exists Stopped. split; [done|].
    by intros it Hit%elem_of_nil.
  - exists (QueueItem.Depth item). unfold set_q. simpl. rewrite Hwk.
    apply (bfs_pop tr c d0); try done.
    + by rewrite popped_of_snoc.
    + by rewrite results_of_snoc, app_nil_r.
    + by intros it Hit%elem_of_nil.
  - exists (QueueItem.Depth item). unfold set_q, set_worker. simpl.
    rewrite Hwk. simpl.
    apply (bfs_pop tr c d0); try done.
    + by rewrite popped_of_snoc.
    + by rewrite results_of_snoc, app_nil_r.
    + intros it Hit%list_elem_of_singleton. by rewrite <- Hc.
  - exists d0. destruct (Hheld item) as [Hdi Hdm]; [by left|].
    rewrite Forall_forall in Hrb.
    constructor; rewrite ?popped_of_snoc, ?results_of_snoc,
      ?app_nil_r; simpl; try done.
    + rewrite Hwk. exists (Emitted item page err). split; [done|].
      intros it Hit%list_elem_of_singleton. by subst it.
    + rewrite map_app. simpl. rewrite result_of_Depth, Hdi.
      apply sorted_snoc; [done|].
      apply Forall_forall. intros d (r & -> & Hr)%list_elem_of_fmap.
      by apply Hrb.
    + apply Forall_app. split; [by apply Forall_forall|].
      repeat constructor. rewrite result_of_Depth. lia.
  - exists d0. destruct (Hheld item) as [Hdi Hdm]; [by left|].
    assert (int_add (QueueItem.Depth item) 1 = (d0 + 1)%Z) as Hadd
      by (rewrite Hdi; apply int_add_1_small; lia).
    rewrite Forall_forall in Hqb.
    constructor; rewrite ?popped_of_snoc, ?results_of_snoc,
      ?app_nil_r; simpl; try done.
    + rewrite Hwk. exists Idle. split; [done|].
      by intros it Hit%elem_of_nil.
    + rewrite Push_queue, Hadd, map_app. apply StronglySorted_app.
      split; [|split; [done|apply sorted_same_depth]].
      intros x1 x2 (it & -> & Hit)%list_elem_of_fmap
        (it2 & -> & Hit2)%list_elem_of_fmap.
      apply list_elem_of_fmap in Hit2 as (u & -> & _). simpl.
      specialize (Hqb it Hit). simpl in Hqb. lia.
    + rewrite Push_queue, Hadd. apply Forall_app.
      split; [by apply Forall_forall|].
      apply Forall_same_depth. intros u. simpl. lia.
  - exists d0. constructor; rewrite ?popped_of_snoc, ?results_of_snoc,
      ?app_nil_r; simpl; try done.
    rewrite Hwk. exists Idle. split; [done|].
    by intros it Hit%elem_of_nil.
Qed.

Lemma bfs_run (c0 : Crawler) (tr : list Event) (c : Crawler) :
  NewCrawler env cfg = Some c0 ->
  Config.MaxConcurrent cfg = 1%Z ->
  run env (Start c0) tr c -> exists d0, bfs_inv cfg tr c d0.
Proof.
  intros Hnew Hone. induction 1 as [|tr c ev c' Hr [d0 IH] Hs].
  - apply NewCrawler_inv in Hnew as (base & v & Hb & _ & ->).
    exists 0%Z. unfold Start. simpl. rewrite Hb, Hone.
    constructor; simpl; try done.
    + exists Idle. split; [done|]. by intros it Hit%elem_of_nil.
    + constructor.
    + change (push_one 0 (NewURLQueue base) base)
        with (Push [base] 0 (NewURLQueue base)).
      rewrite Push_queue. simpl. apply sorted_same_depth.
    + change (push_one 0 (NewURLQueue base) base)
        with (Push [base] 0 (NewURLQueue base)).
      rewrite Push_queue. simpl. apply Forall_same_depth.
      intros u. simpl. lia.
    + constructor.
  - by apply (bfs_step tr c d0).
Qed.

End SingleWorker.

End RunFacts.

(** X18: With one worker the crawl is breadth-first: items leave the queue in
    the order of their depths and the queue continues that order, the
    Results are sent in the order of their depths, and the queue never holds
    depths more than one apart. [MaxDepth] is below the largest [int], so
    that [item.Depth+1] does not wrap around. *)
Theorem single_worker_breadth_first (env : Env) (cfg : Config.t)
    (c0 : Crawler) (tr : list Event) (c : Crawler) :
  NewCrawler env cfg = Some c0 ->
  Config.MaxConcurrent cfg = 1%Z ->
  (Config.MaxDepth cfg < 2 ^ 63 - 1)%Z ->
  run env (Start c0) tr c ->
  StronglySorted Z.le
    (map QueueItem.Depth (popped_of tr ++ queue (q c))%list)
  /\ StronglySorted Z.le (map Result.Depth (results_of tr))
  /\ (forall a b, a ∈ queue (q c) -> b ∈ queue (q c) ->
        (QueueItem.Depth a <= QueueItem.Depth b + 1)%Z).
Proof.
  intros Hnew Hone Hmax Hrun.
  destruct (bfs_run env cfg Hmax c0 tr c Hnew Hone Hrun)
    as [d0 [_ _ _ Hps Hpb Hqs Hqb Hrs _]].
  rewrite Forall_forall in Hpb. rewrite Forall_forall in Hqb.
  split; [|split; [done|]].
  - rewrite map_app. apply StronglySorted_app. split; [|done].
    intros x1 x2 (a & -> & Ha)%list_elem_of_fmap
      (b & -> & Hb)%list_elem_of_fmap.
    specialize (Hpb a Ha). specialize (Hqb b Hb). simpl in *. lia.
  - intros a b Ha Hb. specialize (Hqb a Ha) as Ha'.
    specialize (Hqb b Hb). simpl in *. lia.
Qed.

Lemma single_worker_breadth_first_witness :
  let env := world diamond in
  let x := exec env (one_worker 20) (Start (example_crawler 2 1)) in
  map QueueItem.Depth (popped_of (fst x)) = [0; 1; 1; 2; 2]%Z
  /\ StronglySorted Z.le (map Result.Depth (results_of (fst x))).
Proof.
  intros env x. split; [vm_compute; reflexivity|].
  apply (single_worker_breadth_first env (example_config 2 1)
           (example_crawler 2 1) (fst x) (snd x) eq_refl eq_refl
           ltac:(vm_compute; reflexivity) (exec_run env _ _)).
Defined.

(** X19: Every URL a worker hands to [page.Process], the first request of a
    fetch, is for a page of the site: it has the scheme http or https and
    the host of the base URL, its path has none of the listed extensions, no
    exclude pattern of the configuration matches it and, when the
    configuration has include patterns, one of them does. The redirects the
    client follows from there are not held to the site: [CheckRedirect]
    decides by [FollowRedirects] and the number of requests made so far,
    whatever the URL of the next request, so up to ten requests of one
    fetch may go anywhere. *)
Theorem fetched_items_on_site (env : Env) (cfg : Config.t) (c0 : Crawler)
    (base : url.URL) (tr : list Event) (c : Crawler) :
  NewCrawler env cfg = Some c0 ->
  Config.BaseURL cfg = Some base ->
  run env (Start c0) tr c ->
  (forall it, it ∈ fetched_of tr ->
    let u := QueueItem.URL it in
    (url.Scheme u = "http" \/ url.Scheme u = "https")
    /\ url.Host u = url.Host base
    /\ isNonContentFile (url.Path u) = false
    /\ (forall pat, pat ∈ Config.ExcludePatterns cfg ->
          exists re, Compile env pat = Some re
                     /\ MatchString re (url.String u) = false)
    /\ (Config.IncludePatterns cfg = []
        \/ exists pat re,
             pat ∈ Config.IncludePatterns cfg /\ Compile env pat = Some re
             /\ MatchString re (url.String u) = true))
  /\ (forall req via,
        CheckRedirect (config c) req via = None
        <-> Config.FollowRedirects cfg = true /\ length via < 10)
  /\ (forall req via,
        Config.FollowRedirects cfg = true -> length via < 10 ->
        ShouldFollowRedirect (validator c) req = false ->
        CheckRedirect (config c) req via = None).
Proof.
  intros Hnew Hbase Hrun.
  assert (forall req via,
            CheckRedirect (config c) req via = None
            <-> Config.FollowRedirects cfg = true /\ length via < 10) as Hcr.
  { intros req via.
    pose proof (crawl_inv_run env cfg c0 base Hnew Hbase tr c Hrun) as HI.
    rewrite (inv_config _ _ _ _ _ _ HI). unfold CheckRedirect.
    destruct (Config.FollowRedirects cfg); simpl; [|by split; [|intros []]].
    destruct (Z.leb_spec 10 (Z.of_nat (length via))).
    - split; [done|]. intros [_ ?]. lia.
    - split; [|done]. intros _. split; [done|lia]. }
  split; [|split; [done|]]; [|intros req via Hf Hv _; by apply Hcr].
  intros it Hit u.
  pose proof (crawl_inv_run env cfg c0 base Hnew Hbase tr c Hrun) as HI.
  destruct (inv_fetch_ok _ _ _ _ _ _ HI it Hit) as [Hv _].
  destruct (NewCrawler_inv env cfg c0 Hnew) as (base' & v & Hb & Hnv & ->).
  assert (base' = base) as -> by congruence. simpl in Hv.
  unfold NewURLValidator in Hnv.
  destruct (compile_all _ (Config.ExcludePatterns cfg)) as [ex|] eqn:Hex;
    [|done].
  destruct (compile_all _ (Config.IncludePatterns cfg)) as [inc|] eqn:Hinc;
    [|done].
  injection Hnv as <-.
  apply compile_all_Some in Hex, Hinc.
  destruct (IsValid_true _ _ Hv) as (Hs & Hh & Hn & He).
  pose proof (IsValid_include _ _ Hv) as Hi. simpl in *.
  repeat split; try done.
  - intros pat Hpat.
    apply (Forall2_existsb_false _ _ _ _ Hex He pat Hpat).
  - destruct Hi as [->|Hi].
    + left. by inversion Hinc.
    + right. apply (Forall2_existsb_true _ _ _ _ Hinc Hi).
Qed.

Lemma fetched_items_on_site_witness :
  let env := world two_pages in
  let x := exec env (one_worker 13) (Start (example_crawler 2 1)) in
  length (fetched_of (fst x)) = 3
  /\ (forall it, it ∈ fetched_of (fst x) ->
        url.Host (QueueItem.URL it) = "example.com")
  /\ CheckRedirect (config (snd x))
       (url.mkURL "https" "" "elsewhere.org" "/x.png" false false "" "")
       [example_root] = None.
Proof.
  intros env x. split; [reflexivity|].
  destruct (fetched_items_on_site env (example_config 2 1)
              (example_crawler 2 1) example_root (fst x) (snd x)
              eq_refl eq_refl (exec_run env _ _)) as (Hsite & _ & Hany).
  split; [intros it Hit; apply (Hsite it Hit)|].
  apply Hany; [reflexivity|simpl; lia|reflexivity].
Defined.

(** X20: The pool is bounded: a crawl has [MaxConcurrent] workers from [Start]
    to the end, so at most [MaxConcurrent] requests are without their
    Result at any time, and no Result is sent without a request. *)
Theorem requests_in_flight_bounded (env : Env) (cfg : Config.t)
    (c0 : Crawler) (base : url.URL) (tr : list Event) (c : Crawler) :
  NewCrawler env cfg = Some c0 ->
  Config.BaseURL cfg = Some base ->
  run env (Start c0) tr c ->
  length (workers c) = Z.to_nat (Config.MaxConcurrent cfg)
  /\ length (inflight c) <= Z.to_nat (Config.MaxConcurrent cfg)
  /\ length (fetched_of tr) = length (results_of tr) + length (inflight c)
  /\ (1 <= Config.MaxConcurrent cfg)%Z.
Proof.
  intros Hnew Hbase Hrun.
  pose proof (crawl_inv_run env cfg c0 base Hnew Hbase tr c Hrun) as HI.
  pose proof (workers_length_run env _ tr c Hrun) as Hlen.
  destruct (NewCrawler_inv env cfg c0 Hnew) as (base' & v & Hb & _ & ->).
  unfold Start in Hlen. simpl in Hlen. rewrite length_replicate in Hlen.
  pose proof (fetching_length (workers c)) as Hfl.
  pose proof (inv_fetched _ _ _ _ _ _ HI) as Hf.
  apply Permutation_length in Hf. rewrite length_app in Hf.
  rewrite (inv_results _ _ _ _ _ _ HI), length_map.
  unfold inflight in *. repeat split; try lia.
  unfold NewCrawler, Validate in Hnew. rewrite Hb in Hnew.
  destruct (Config.MaxDepth cfg <? 0)%Z; [done|].
  destruct (Z.ltb_spec (Config.MaxConcurrent cfg) 1); [done|lia].
Qed.

Lemma requests_in_flight_bounded_witness :
  let env := world diamond in
  let x := exec env slow_b (Start (example_crawler 2 2)) in
  length (workers (snd x)) = 2
  /\ length (inflight (snd x)) <= 2.
Proof.
  intros env x.
  destruct (requests_in_flight_bounded env (example_config 2 2)
              (example_crawler 2 2) example_root (fst x) (snd x)
              eq_refl eq_refl (exec_run env _ _)) as (H1 & H2 & _).
  split; [exact H1|exact H2].
Defined.

(** X22: The queue and the validator of a crawl keep one notion of the site:
    [GetDomain] is the host of the base URL, [ShouldFollowRedirect] and
    [IsInDomain] give the same answer for every URL, a URL that [IsValid]
    accepts passes both, and so does every item that was ever queued. *)
Theorem same_site_tests_agree (env : Env) (cfg : Config.t) (c0 : Crawler)
    (base : url.URL) (tr : list Event) (c : Crawler) :
  NewCrawler env cfg = Some c0 ->
  Config.BaseURL cfg = Some base ->
  run env (Start c0) tr c ->
  GetDomain (validator c) = url.Host base
  /\ (forall u, ShouldFollowRedirect (validator c) u = IsInDomain (q c) u)
  /\ (forall u, IsValid (validator c) u = true -> IsInDomain (q c) u = true)
  /\ (forall it, it ∈ admitted tr c ->
        IsInDomain (q c) (QueueItem.URL it) = true).
Proof.
  intros Hnew Hbase Hrun.
  pose proof (crawl_inv_run env cfg c0 base Hnew Hbase tr c Hrun) as HI.
  pose proof (inv_validator _ _ _ _ _ _ HI) as Hv.
  pose proof (inv_baseHost _ _ _ _ _ _ HI) as Hh.
  destruct (NewCrawler_inv env cfg c0 Hnew) as (base' & v & Hb & Hnv & ->).
  assert (base' = base) as -> by congruence. simpl in Hv.
  assert (baseURL v = base) as Hbu.
  { unfold NewURLValidator in Hnv.
    destruct (compile_all _ _); [|done]. destruct (compile_all _ _); [|done].
    by injection Hnv as <-. }
  unfold GetDomain, ShouldFollowRedirect, IsInDomain.
  rewrite Hv, Hbu, Hh. repeat split; try done.
  - intros u Hu. destruct (IsValid_true _ _ Hu) as (_ & -> & _).
    rewrite Hbu. apply String.eqb_refl.
  - intros it Hit.
    destruct (inv_origin _ _ _ _ _ _ HI it Hit)
      as [->|(parent & l & _ & _ & Hl & ->)]; simpl.
    + apply String.eqb_refl.
    + rewrite Hl. apply String.eqb_refl.
Qed.

Lemma same_site_tests_agree_witness :
  let env := world two_pages in
  let x := exec env (one_worker 13) (Start (example_crawler 2 1)) in
  GetDomain (validator (snd x)) = "example.com"
  /\ IsInDomain (q (snd x)) (example_page "/a") = true.
Proof.
  intros env x.
  destruct (same_site_tests_agree env (example_config 2 1)
              (example_crawler 2 1) example_root (fst x) (snd x)
              eq_refl eq_refl (exec_run env _ _)) as (H1 & _ & _ & _).
  split; [exact H1|reflexivity].
Defined.

(** ** pkg/sitemap *)

Section SitemapFacts.

Lemma validate_urls_None (l : list sitemap.URL.t) :
  sitemap.validate_urls l = None
  <-> Forall (fun u => sitemap.validate_url u = None) l.
Proof.
  induction l as [|u l IH]; simpl.
  - split; [constructor|done].
  - rewrite Forall_cons. destruct (sitemap.validate_url u) as [e|].
    + split; [done|]. by intros [? _].
    + rewrite IH. tauto.
Qed.

Lemma validate_urls_Some (l : list sitemap.URL.t)
    (e : sitemap.ValidationError) :
  sitemap.validate_urls l = Some e ->
  exists u, u ∈ l /\ sitemap.validate_url u = Some e.
Proof.
  induction l as [|u l IH]; simpl; [done|].
  destruct (sitemap.validate_url u) as [e'|] eqn:Hu.
  - intros [= ->]. exists u. split; [left|done].
  - intros H. destruct (IH H) as (u' & Hin & Hu').
    exists u'. split; [by right|done].
Qed.

Lemma Validate_None (us : sitemap.URLSet.t) :
  sitemap.URLSet.Validate us = None
  <-> 0 < length (sitemap.URLSet.URLs us)
      /\ (Z.of_nat (length (sitemap.URLSet.URLs us)) <= 50000)%Z
      /\ Forall (fun u => sitemap.validate_url u = None)
           (sitemap.URLSet.URLs us).
Proof.
  unfold sitemap.URLSet.Validate.
  destruct (Nat.eqb_spec (length (sitemap.URLSet.URLs us)) 0) as [H0|H0].
  { split; [done|]. intros [? _]. lia. }
  destruct (Z.ltb_spec 50000 (Z.of_nat (length (sitemap.URLSet.URLs us)))).
  { split; [done|]. intros (_ & ? & _). lia. }
  rewrite validate_urls_None. split; [|tauto].
  intros H'. repeat split; [lia|lia|done].
Qed.

Lemma Validate_perm (us us' : sitemap.URLSet.t) :
  sitemap.URLSet.URLs us ≡ₚ sitemap.URLSet.URLs us' ->
  sitemap.URLSet.Validate us = None -> sitemap.URLSet.Validate us' = None.
Proof.
  intros Hp. rewrite !Validate_None. intros (H0 & Hmax & Hall).
  rewrite <- Hp. repeat split; try done.
Qed.

Lemma insert_sorted_perm (less : sitemap.URL.t -> sitemap.URL.t -> bool)
    (x : sitemap.URL.t) (l : list sitemap.URL.t) :
  sitemap.insert_sorted less x l ≡ₚ x :: l.
Proof.
  induction l as [|y l IH]; simpl; [done|].
  destruct (less x y); [done|]. rewrite IH. apply Permutation_swap.
Qed.

Lemma insertion_sort_perm (less : sitemap.URL.t -> sitemap.URL.t -> bool)
    (l : list sitemap.URL.t) :
  sitemap.insertion_sort less l ≡ₚ l.
Proof.
  unfold sitemap.insertion_sort. induction l as [|x l IH]; simpl; [done|].
  by rewrite insert_sorted_perm, IH.
Qed.

End SitemapFacts.

(** X23: Whether [Validate] accepts a sitemap does not depend on the order of
    its entries, so sorting it, in whichever of the sorted orders, does
    not change the verdict; nor does [Clone]. *)
Theorem Validate_order_independent (sort_Slice : sitemap.Sorter)
    (us us' : sitemap.URLSet.t) :
  (forall less l, sort_Slice less l ≡ₚ l) ->
  sitemap.URLSet.URLs us ≡ₚ sitemap.URLSet.URLs us' ->
  (sitemap.URLSet.Validate us = None
   <-> sitemap.URLSet.Validate us' = None)
  /\ (sitemap.URLSet.Validate (sitemap.URLSet.SortByLastMod sort_Slice us)
      = None
      <-> sitemap.URLSet.Validate us = None)
  /\ sitemap.URLSet.Validate (sitemap.Clone us) = sitemap.URLSet.Validate us
  /\ sitemap.URLSet.Size (sitemap.URLSet.SortByLastMod sort_Slice us)
     = sitemap.URLSet.Size us.
Proof.
  intros Hsort Hp. split; [|split; [|split]].
  - split; apply Validate_perm; [done|by symmetry].
  - split; apply Validate_perm; simpl; [apply Hsort|symmetry; apply Hsort].
  - done.
  - unfold sitemap.URLSet.Size. simpl. by rewrite Hsort.
Qed.

Lemma Validate_order_independent_witness :
  let a := sitemap.URL.mk "https://example.com/" "2024-01-01" "weekly" 0.5
             10%Z in
  let b := sitemap.URL.mk "https://example.com/a" "" "" 0 20%Z in
  let us := sitemap.URLSet.mk "" [a; b] in
  sitemap.URLSet.URLs
    (sitemap.URLSet.SortByLastMod sitemap.insertion_sort us) = [b; a]
  /\ sitemap.URLSet.Validate us = None
  /\ (sitemap.URLSet.Validate
        (sitemap.URLSet.SortByLastMod sitemap.insertion_sort us) = None
      <-> sitemap.URLSet.Validate us = None).
Proof.
  intros a b us. split; [reflexivity|]. split; [reflexivity|].
  destruct (Validate_order_independent sitemap.insertion_sort us us
              insertion_sort_perm (Permutation_refl _)) as (_ & H & _).
  exact H.
Defined.

(** X24: [Build] keeps the entries and loses none: it returns the builder's
    sitemap, with the entries in some order, exactly when [Validate] accepts
    the entries as they were added, and the validation error otherwise; a
    builder without entries, new or cleared, always fails to build. Without
    [SortByLastMod] the builder is left as it was. *)
Theorem Build_result (sort_Slice : sitemap.Sorter) (b : sitemap.Builder.t) :
  (forall less l, sort_Slice less l ≡ₚ l) ->
  let b' := fst (sitemap.Builder.Build sort_Slice b) in
  let r := snd (sitemap.Builder.Build sort_Slice b) in
  sitemap.Builder.baseURL b' = sitemap.Builder.baseURL b
  /\ sitemap.Builder.options b' = sitemap.Builder.options b
  /\ sitemap.Builder.GetURLs b' ≡ₚ sitemap.Builder.GetURLs b
  /\ sitemap.Builder.Count b' = sitemap.Builder.Count b
  /\ (sitemap.BuilderOptions.SortByLastMod (sitemap.Builder.options b) = false
      -> b' = b)
  /\ (sitemap.URLSet.Validate (sitemap.Builder.urlset b) = None
      <-> r = inl (sitemap.Builder.urlset b'))
  /\ (sitemap.URLSet.Validate (sitemap.Builder.urlset b) <> None
      <-> exists err, r = inr err)
  /\ (sitemap.Builder.Count b = 0%Z -> r = inr sitemap.ErrNoURLs)
  /\ snd (sitemap.Builder.Build sort_Slice (sitemap.Builder.Clear b))
     = inr sitemap.ErrNoURLs.
Proof.
  intros Hsort b' r.
  set (b1 := if sitemap.BuilderOptions.SortByLastMod (sitemap.Builder.options b)
             then sitemap.Builder.with_URLs b
                    (sort_Slice sitemap.byLastMod
                       (sitemap.URLSet.URLs (sitemap.Builder.urlset b)))
             else b).
  assert (sitemap.Builder.GetURLs b1 ≡ₚ sitemap.Builder.GetURLs b) as Hp.
  { unfold b1, sitemap.Builder.GetURLs.
    destruct (sitemap.BuilderOptions.SortByLastMod _); [apply Hsort|done]. }
  assert (sitemap.Builder.baseURL b1 = sitemap.Builder.baseURL b
          /\ sitemap.Builder.options b1 = sitemap.Builder.options b) as [Hb Ho].
  { unfold b1. by destruct (sitemap.BuilderOptions.SortByLastMod _). }
  assert (b' = b1) as Hb'.
  { unfold b', sitemap.Builder.Build. fold b1.
    by destruct (sitemap.URLSet.Validate (sitemap.Builder.urlset b1)). }
  assert (sitemap.URLSet.Validate (sitemap.Builder.urlset b) = None
          <-> sitemap.URLSet.Validate (sitemap.Builder.urlset b1) = None)
    as Hv by (split; apply Validate_perm; [by symmetry|done]).
  assert (r = match sitemap.URLSet.Validate (sitemap.Builder.urlset b1) with
              | Some err => inr err
              | None => inl (sitemap.Builder.urlset b1)
              end) as Hr.
  { unfold r, sitemap.Builder.Build. fold b1.
    by destruct (sitemap.URLSet.Validate (sitemap.Builder.urlset b1)). }
  rewrite Hb'. repeat split; try done.
  - unfold sitemap.Builder.Count. unfold sitemap.Builder.GetURLs in Hp.
    by rewrite Hp.
  - intros Hs. unfold b1. by rewrite Hs.
  - intros H. apply Hv in H. by rewrite Hr, H.
  - intros H. apply Hv. rewrite Hr in H.
    by destruct (sitemap.URLSet.Validate (sitemap.Builder.urlset b1)).
  - intros H. rewrite Hr.
    destruct (sitemap.URLSet.Validate (sitemap.Builder.urlset b1)) as [e|];
      [by exists e|]. destruct H. by apply Hv.
  - intros [e He] H. apply Hv in H. rewrite Hr, H in He. done.
  - intros Hc. rewrite Hr. unfold sitemap.Builder.Count in Hc.
    unfold sitemap.Builder.GetURLs in Hp.
    apply Permutation_length in Hp.
    unfold sitemap.URLSet.Validate.
    destruct (sitemap.URLSet.URLs (sitemap.Builder.urlset b1));
      [done|simpl in *; lia].
  - unfold sitemap.Builder.Build, sitemap.Builder.Clear. simpl.
    destruct (sitemap.BuilderOptions.SortByLastMod _); simpl; [|done].
    specialize (Hsort sitemap.byLastMod []).
    apply Permutation_nil_r in Hsort. by rewrite Hsort.
Qed.

Lemma Build_result_witness :
  let F := fun _ : Time => "2024-01-01" in
  let b0 := sitemap.NewBuilder example_root sitemap.DefaultBuilderOptions in
  let b1 := fst (sitemap.Builder.AddURL F b0 "https://example.com/a?x=1" 10%Z) in
  let b2 := fst (sitemap.Builder.AddURL F b1 "https://example.com/b" 20%Z) in
  let r := sitemap.Builder.Build sitemap.insertion_sort b2 in
  map sitemap.URL.Loc (sitemap.Builder.GetURLs (fst r))
  = ["https://example.com/b"; "https://example.com/a"]
  /\ snd r = inl (sitemap.Builder.urlset (fst r)).
Proof.
  intros F b0 b1 b2 r. split; [vm_compute; reflexivity|].
  destruct (Build_result sitemap.insertion_sort b2 insertion_sort_perm)
    as (_ & _ & _ & _ & _ & H & _).
  apply H. vm_compute. reflexivity.
Defined.

Section BuilderFacts.

Lemma append_nonempty_l (a b : string) : a <> "" -> (a ++ b)%string <> "".
Proof. destruct a; [done|]. intros _. by change (String a a0 ++ b)%string with (String a (a0 ++ b)). Qed.

Lemma append_nonempty_r (a b : string) : b <> "" -> (a ++ b)%string <> "".
Proof.
  destruct a as [|c a]; [done|]. intros _.
  by change (String c a ++ b)%string with (String c (a ++ b)).
Qed.

Ltac solve_nonempty :=
  solve [ assumption | done
        | apply append_nonempty_l; solve_nonempty
        | apply append_nonempty_r; solve_nonempty ].

Lemma url_String_nonempty (u : url.URL) :
  url.Host u <> "" -> url.String u <> "".
Proof.
  intros Hh. unfold url.String. cbv zeta.
  pose proof Hh as Hh'. apply String.eqb_neq in Hh'. rewrite Hh'.
  simpl negb. rewrite ?orb_true_r, ?andb_false_r. simpl.
  destruct (String.eqb_spec (url.Opaque u) "") as [Ho|Ho]; simpl negb;
    cbv iota;
    repeat match goal with
    | |- context [strings.Cut ?a ?b] =>
        destruct (strings.Cut a b) as [[? ?] ?]
    | |- context [if ?c then _ else _] => destruct c
    end;
    solve_nonempty.
Qed.

Lemma existsb_eqb_In (f : string) (l : list string) :
  existsb (String.eqb f) l = true <-> In f l.
Proof.
  rewrite existsb_exists. split.
  - intros (x & Hin & Hx). apply String.eqb_eq in Hx. by subst x.
  - intros Hin. exists f. split; [done|apply String.eqb_refl].
Qed.

(** What [AddURL] does, case by case. *)
Lemma AddURL_cases (Format : Time -> string) (b : sitemap.Builder.t)
    (loc : string) (lastMod : Time) :
  let o := sitemap.Builder.options b in
  let b' := fst (sitemap.Builder.AddURL Format b loc lastMod) in
  b' = b
  \/ exists parsed u,
       url.Parse loc = Some parsed
       /\ url.Host parsed = url.Host (sitemap.Builder.baseURL b)
       /\ ~ In (url.Path parsed) (sitemap.BuilderOptions.ExcludePaths o)
       /\ sitemap.URL.Loc u
          = url.String
              (if sitemap.BuilderOptions.StripQueryParams o
               then url.mkURL (url.Scheme parsed) (url.Opaque parsed)
                      (url.Host parsed) (url.Path parsed)
                      (url.OmitHost parsed) (url.ForceQuery parsed) ""
                      (url.Fragment parsed)
               else parsed)
       /\ sitemap.URL.LastMod u
          = (if sitemap.BuilderOptions.IncludeLastMod o
             then Format lastMod else "")
       /\ sitemap.URL.ChangeFreq u = sitemap.BuilderOptions.DefaultChangeFreq o
       /\ sitemap.URL.Priority u
          = (if PrimFloat.eqb (sitemap.BuilderOptions.DefaultPriority o) 0
             then 0%float else sitemap.BuilderOptions.DefaultPriority o)
       /\ sitemap.URL.LastModded u = lastMod
       /\ b' = sitemap.Builder.with_URLs b
                 (sitemap.URLSet.URLs (sitemap.Builder.urlset b) ++ [u]).
Proof.
  intros o b'. unfold b', sitemap.Builder.AddURL.
  destruct (url.Parse loc) as [parsed|]; [|by left].
  destruct (String.eqb_spec (url.Host parsed)
              (url.Host (sitemap.Builder.baseURL b))) as [Hh|Hh];
    simpl negb; cbv iota; [|by left].
  destruct (existsb _ (sitemap.BuilderOptions.ExcludePaths _)) eqn:Hex;
    [by left|].
  right. eexists parsed, _. split; [done|]. split; [done|].
  split.
  { intros Hin. apply existsb_eqb_In in Hin.
    exact (eq_true_false_abs _ Hin Hex). }
  fold o. repeat split; simpl; try done.
  - by destruct (String.eqb_spec
                   (sitemap.BuilderOptions.DefaultChangeFreq o) "").
  - by destruct (PrimFloat.eqb (sitemap.BuilderOptions.DefaultPriority o) 0).
Qed.

End BuilderFacts.

(** X25: With the default change frequency and priority (whatever the other
    options, as [runGenerate] sets them), every entry [AddURL] makes parses
    on the host of the base URL, carries "weekly" and 0.5, and so never
    fails the frequency or priority test of [Validate]: such a sitemap is
    only rejected for having no entry, more than 50000, an entry longer than
    2048 bytes or, when the base URL has no host, an empty one. [AddURL]
    never changes the base URL or the options. *)
Theorem default_entries_pass (base : url.URL) (o : sitemap.BuilderOptions.t)
    (b : sitemap.Builder.t) :
  sitemap.filled base o b ->
  sitemap.BuilderOptions.DefaultChangeFreq o
  = sitemap.BuilderOptions.DefaultChangeFreq sitemap.DefaultBuilderOptions ->
  sitemap.BuilderOptions.DefaultPriority o
  = sitemap.BuilderOptions.DefaultPriority sitemap.DefaultBuilderOptions ->
  sitemap.Builder.baseURL b = base
  /\ sitemap.Builder.options b = o
  /\ (forall u, u ∈ sitemap.Builder.GetURLs b ->
        sitemap.URL.ChangeFreq u = "weekly"
        /\ sitemap.URL.Priority u = 0.5%float
        /\ exists parsed,
             url.Host parsed = url.Host base
             /\ ~ In (url.Path parsed) (sitemap.BuilderOptions.ExcludePaths o)
             /\ (sitemap.BuilderOptions.StripQueryParams o = true ->
                 url.RawQuery parsed = "")
             /\ sitemap.URL.Loc u = url.String parsed)
  /\ (forall err,
        sitemap.URLSet.Validate (sitemap.Builder.urlset b) = Some err ->
        err = sitemap.ErrNoURLs \/ err = sitemap.ErrTooManyURLs
        \/ (exists loc, err = sitemap.ErrLocTooLong loc)
        \/ (err = sitemap.ErrEmptyLoc /\ url.Host base = "")).
Proof.
  intros Hf Hfreq Hprio. simpl in Hfreq, Hprio.
  assert (sitemap.Builder.baseURL b = base
          /\ sitemap.Builder.options b = o
          /\ forall u, u ∈ sitemap.Builder.GetURLs b ->
               sitemap.URL.ChangeFreq u = "weekly"
               /\ sitemap.URL.Priority u = 0.5%float
               /\ exists parsed,
                    url.Host parsed = url.Host base
                    /\ ~ In (url.Path parsed)
                           (sitemap.BuilderOptions.ExcludePaths o)
                    /\ (sitemap.BuilderOptions.StripQueryParams o = true ->
                        url.RawQuery parsed = "")
                    /\ sitemap.URL.Loc u = url.String parsed)
    as (Hb & Ho & Hall).
  { induction Hf as [|Format b loc lastMod Hf (Hb & Ho & Hall)].
    - split; [done|]. split; [done|]. by intros u Hu%elem_of_nil.
    - destruct (AddURL_cases Format b loc lastMod)
        as [->|(parsed & u & Hp & Hh & Hex & Hloc & _ & Hcf & Hpr & _ & ->)];
        [done|].
      rewrite Ho in Hex, Hloc, Hcf, Hpr. rewrite Hb in Hh.
      split; [done|]. split; [done|].
      intros u' Hu'. unfold sitemap.Builder.GetURLs in Hu'. simpl in Hu'.
      apply elem_of_app in Hu' as [Hu'|Hu'%list_elem_of_singleton];
        [by apply Hall|]. subst u'.
      split; [by rewrite Hcf|]. split; [by rewrite Hpr, Hprio|].
      destruct (sitemap.BuilderOptions.StripQueryParams o) eqn:Hs.
      + eexists. split; [|split; [|split; [|exact Hloc]]]; done.
      + exists parsed. split; [done|]. split; [done|]. split; [done|].
        exact Hloc. }
  split; [done|]. split; [done|]. split; [done|].
  intros err. unfold sitemap.URLSet.Validate.
  destruct (_ =? _)%nat; [intros [= <-]; by left|].
  destruct (_ <? _)%Z; [intros [= <-]; right; by left|].
  intros (u & Hu & He)%validate_urls_Some.
  destruct (Hall u Hu) as (Hcf & Hpr & parsed & Hh & _ & _ & Hloc).
  unfold sitemap.validate_url in He. rewrite Hcf, Hpr in He.
  destruct (String.eqb_spec (sitemap.URL.Loc u) "") as [He0|_].
  { injection He as <-. right. right. right. split; [done|].
    destruct (String.eqb_spec (url.Host base) "") as [|Hne]; [done|].
    rewrite <- Hh in Hne. apply url_String_nonempty in Hne. congruence. }
  destruct (_ <? _)%Z.
  { injection He as <-. right. right. left. eauto. }
  vm_compute in He. done.
Qed.

Lemma default_entries_pass_witness :
  let F := fun _ : Time => "2024-01-01" in
  let o := sitemap.BuilderOptions.mk "weekly" 0.5 false false ["/admin"]
             false in
  let b0 := sitemap.NewBuilder example_root o in
  let b1 := fst (sitemap.Builder.AddURL F b0 "https://example.com/a?x=1" 10%Z) in
  let b2 := fst (sitemap.Builder.AddURL F b1 "https://example.com/admin" 20%Z) in
  map sitemap.URL.Loc (sitemap.Builder.GetURLs b2)
  = ["https://example.com/a?x=1"]
  /\ sitemap.Builder.options b2 = o.
Proof.
  intros F o b0 b1 b2. split; [vm_compute; reflexivity|].
  destruct (default_entries_pass example_root o b2) as (_ & H & _).
  - apply sitemap.filled_add, sitemap.filled_add, sitemap.filled_new.
  - reflexivity.
  - reflexivity.
  - exact H.
Defined.

Section CompareFacts.

Lemma by_Loc_snoc (urls : list sitemap.URL.t) (x : sitemap.URL.t) :
  sitemap.by_Loc (urls ++ [x])
  = <[sitemap.URL.Loc x := x]> (sitemap.by_Loc urls).
Proof. unfold sitemap.by_Loc. by rewrite foldl_app. Qed.

Lemma by_Loc_last (urls : list sitemap.URL.t) (l : string) :
  sitemap.by_Loc urls !! l
  = last (filter (fun u => sitemap.URL.Loc u = l) urls).
Proof.
  induction urls as [|x urls IH] using rev_ind; [done|].
  rewrite by_Loc_snoc, filter_app.
  destruct (decide (sitemap.URL.Loc x = l)) as [Hx|Hx].
  - rewrite filter_cons_True, filter_nil by done.
    rewrite last_snoc. subst l. by rewrite lookup_insert_eq.
  - rewrite filter_cons_False, filter_nil, app_nil_r by done.
    by rewrite lookup_insert_ne.
Qed.

Lemma by_Loc_Some (urls : list sitemap.URL.t) (l : string)
    (u : sitemap.URL.t) :
  sitemap.by_Loc urls !! l = Some u -> sitemap.URL.Loc u = l /\ u ∈ urls.
Proof.
  rewrite by_Loc_last. intros H. apply last_Some_elem_of in H.
  apply list_elem_of_filter in H. tauto.
Qed.

Lemma by_Loc_None (urls : list sitemap.URL.t) (l : string) :
  sitemap.by_Loc urls !! l = None <-> l ∉ map sitemap.URL.Loc urls.
Proof.
  induction urls as [|x urls IH] using rev_ind.
  - split; [intros _ H; by apply elem_of_nil in H|done].
  - rewrite by_Loc_snoc, map_app, elem_of_app. simpl.
    rewrite list_elem_of_singleton.
    destruct (decide (sitemap.URL.Loc x = l)) as [Hx|Hx].
    + subst l. rewrite lookup_insert_eq. split; [done|]. intros H.
      destruct H. by right.
    + rewrite lookup_insert_ne by done. rewrite IH. split.
      * intros H [?|?]; [done|]. by apply Hx.
      * intros H ?. apply H. by left.
Qed.

Lemma missing_from_elem (m : gmap string sitemap.URL.t)
    (visited : list (string * sitemap.URL.t)) (u : sitemap.URL.t) :
  u ∈ sitemap.missing_from m visited
  <-> exists loc, (loc, u) ∈ visited /\ m !! loc = None.
Proof.
  unfold sitemap.missing_from. rewrite list_elem_of_omap. split.
  - intros ([loc u'] & Hin & Hu). destruct (m !! loc) eqn:Hm; [done|].
    injection Hu as ->. eauto.
  - intros (loc & Hin & Hm). exists (loc, u). by rewrite Hm.
Qed.

Lemma missing_from_NoDup (m : gmap string sitemap.URL.t)
    (visited : list (string * sitemap.URL.t)) :
  NoDup visited.*1 ->
  (forall loc u, (loc, u) ∈ visited -> sitemap.URL.Loc u = loc) ->
  NoDup (map sitemap.URL.Loc (sitemap.missing_from m visited)).
Proof.
  induction visited as [|[loc u] visited IH]; intros Hnd Hloc.
  - constructor.
  - apply NoDup_cons in Hnd as [Hnot Hnd].
    assert (NoDup (map sitemap.URL.Loc (sitemap.missing_from m visited)))
      as IH' by (apply IH; [done|]; intros ? ? ?; apply Hloc; by right).
    unfold sitemap.missing_from in *. csimpl.
    destruct (m !! loc); [done|]. csimpl. apply NoDup_cons. split; [|done].
    intros Hin. apply list_elem_of_fmap in Hin as (u' & Hu' & Hin).
    apply (missing_from_elem m visited u') in Hin as (loc' & Hin & _).
    assert (sitemap.URL.Loc u' = loc') by (apply Hloc; by right).
    assert (sitemap.URL.Loc u = loc) by (apply Hloc; left).
    apply Hnot. apply list_elem_of_fmap. exists (loc', u').
    split; [simpl; congruence|done].
Qed.

End CompareFacts.

(** X26: [Compare] looks at locations only. Whatever the order in which Go
    visits the two maps: an entry is reported as added exactly when it is
    the last entry of the new sitemap with its location and the original has
    no entry with that location, and as removed the other way round; no
    location is reported twice; and nothing at all is reported exactly when
    the two sitemaps have the same locations, whatever else differs. *)
Theorem Compare_by_location
    (range : gmap string sitemap.URL.t -> list (string * sitemap.URL.t))
    (original new : sitemap.URLSet.t) :
  (forall m, range m ≡ₚ map_to_list m) ->
  let added := fst (sitemap.Compare range original new) in
  let removed := snd (sitemap.Compare range original new) in
  let locs := fun us => map sitemap.URL.Loc (sitemap.URLSet.URLs us) in
  let last_at := fun us u =>
    last (filter (fun x => sitemap.URL.Loc x = sitemap.URL.Loc u)
            (sitemap.URLSet.URLs us)) = Some u in
  (forall u, u ∈ added
             <-> last_at new u /\ (sitemap.URL.Loc u ∉ locs original))
  /\ (forall u, u ∈ removed
                <-> last_at original u /\ (sitemap.URL.Loc u ∉ locs new))
  /\ NoDup (map sitemap.URL.Loc added)
  /\ NoDup (map sitemap.URL.Loc removed)
  /\ (added = [] /\ removed = []
      <-> forall l, l ∈ locs original <-> l ∈ locs new).
Proof.
  intros Hrange added removed locs last_at.
  assert (forall m loc u, (loc, u) ∈ range m <-> m !! loc = Some u) as Hin.
  { intros m loc u. rewrite (Hrange m). apply elem_of_map_to_list. }
  assert (forall a b u,
            u ∈ sitemap.missing_from (sitemap.by_Loc (sitemap.URLSet.URLs a))
                  (range (sitemap.by_Loc (sitemap.URLSet.URLs b)))
            <-> last_at b u /\ (sitemap.URL.Loc u ∉ locs a)) as Hmem.
  { intros a b u. rewrite missing_from_elem. unfold last_at, locs.
    rewrite <- by_Loc_last, <- by_Loc_None. split.
    - intros (loc & Hl & Hn). apply Hin in Hl.
      destruct (by_Loc_Some _ _ _ Hl) as [<- _]. done.
    - intros [Hl Hn]. exists (sitemap.URL.Loc u). by rewrite Hin. }
  assert (forall a b,
            NoDup (map sitemap.URL.Loc
                     (sitemap.missing_from
                        (sitemap.by_Loc (sitemap.URLSet.URLs a))
                        (range (sitemap.by_Loc (sitemap.URLSet.URLs b))))))
    as Hnd.
  { intros a b. apply missing_from_NoDup.
    - rewrite (Hrange _). apply NoDup_fst_map_to_list.
    - intros loc u Hl%Hin. by destruct (by_Loc_Some _ _ _ Hl). }
  assert (forall a b,
            sitemap.missing_from (sitemap.by_Loc (sitemap.URLSet.URLs a))
              (range (sitemap.by_Loc (sitemap.URLSet.URLs b))) = []
            <-> forall l, l ∈ locs b -> l ∈ locs a) as Hnil.
  { intros a b. split.
    - intros He l Hl.
      destruct (sitemap.by_Loc (sitemap.URLSet.URLs a) !! l) eqn:Ha.
      + destruct (decide (l ∈ locs a)) as [|Hn]; [done|].
        apply by_Loc_None in Hn. congruence.
      + destruct (sitemap.by_Loc (sitemap.URLSet.URLs b) !! l) as [u|] eqn:Hb.
        * assert (u ∈ sitemap.missing_from
                        (sitemap.by_Loc (sitemap.URLSet.URLs a))
                        (range (sitemap.by_Loc (sitemap.URLSet.URLs b))))
            as Hu by (apply missing_from_elem; exists l; by rewrite Hin).
          rewrite He in Hu. by apply elem_of_nil in Hu.
        * apply by_Loc_None in Hb. done.
    - intros Hsub. apply elem_of_nil_inv. intros u Hu.
      apply Hmem in Hu as [Hl Hn]. apply Hn, Hsub.
      apply last_Some_elem_of, list_elem_of_filter in Hl as [_ Hl].
      apply list_elem_of_fmap. by exists u. }
  split; [apply Hmem|]. split; [apply Hmem|].
  split; [apply Hnd|]. split; [apply Hnd|].
  unfold added, removed, sitemap.Compare. simpl.
  rewrite (Hnil original new), (Hnil new original).
  split; [intros [H1 H2] l; split; auto|].
  intros H. split; intros l; apply H.
Qed.

Lemma Compare_by_location_witness :
  let e := fun loc t => sitemap.URL.mk loc "" "" 0 t in
  let original := sitemap.URLSet.mk "" [e "/a" 1%Z; e "/b" 1%Z] in
  let new := sitemap.URLSet.mk "" [e "/b" 2%Z; e "/c" 1%Z; e "/c" 2%Z] in
  sitemap.Compare map_to_list original new = ([e "/c" 2%Z], [e "/a" 1%Z])
  /\ NoDup (map sitemap.URL.Loc
              (fst (sitemap.Compare map_to_list original new))).
Proof.
  intros e original new. split; [vm_compute; reflexivity|].
  destruct (Compare_by_location map_to_list original new
              (fun m => Permutation_refl _)) as (_ & _ & H & _).
  exact H.
Defined.

Section SetterFacts.

Lemma priority_test (e l0 l1 : bool) :
  negb e && (l0 || l1) = false <-> e = true \/ (l0 = false /\ l1 = false).
Proof. destruct e, l0, l1; simpl; intuition congruence. Qed.

Lemma frequency_test (f : string) :
  negb (String.eqb f "") && negb (existsb (String.eqb f) sitemap.validFreqs)
  = false
  <-> f = "" \/ In f sitemap.validFreqs.
Proof.
  rewrite <- existsb_eqb_In.
  generalize (existsb (String.eqb f) sitemap.validFreqs). intros e.
  destruct (String.eqb_spec f "") as [Hf|Hf]; simpl; [tauto|].
  destruct e; simpl.
  - split; [by right|done].
  - split; [done|]. by intros [?|?].
Qed.

Lemma validate_url_None (u : sitemap.URL.t) :
  sitemap.validate_url u = None
  <-> (sitemap.URL.Loc u <> ""
       /\ (Z.of_nat (String.length (sitemap.URL.Loc u)) <= 2048)%Z)
      /\ (PrimFloat.eqb (sitemap.URL.Priority u) 0 = true
          \/ (PrimFloat.ltb (sitemap.URL.Priority u) 0 = false
              /\ PrimFloat.ltb 1 (sitemap.URL.Priority u) = false))
      /\ (sitemap.URL.ChangeFreq u = ""
          \/ In (sitemap.URL.ChangeFreq u) sitemap.validFreqs).
Proof.
  rewrite <- priority_test, <- frequency_test.
  unfold sitemap.validate_url.
  destruct (String.eqb_spec (sitemap.URL.Loc u) "") as [Hl|Hl].
  { split; [done|]. by intros [[? _] _]. }
  destruct (Z.ltb_spec 2048 (Z.of_nat (String.length (sitemap.URL.Loc u)))).
  { split; [done|]. intros [[_ ?] _]. lia. }
  destruct (negb (PrimFloat.eqb (sitemap.URL.Priority u) 0) && _).
  { split; [done|]. by intros (_ & ? & _). }
  destruct (negb (String.eqb (sitemap.URL.ChangeFreq u) "") && _).
  { split; [done|]. by intros (_ & _ & ?). }
  split; [|done]. intros _. repeat split; [done|lia].
Qed.

End SetterFacts.

(** X27: The setters do not check what they set; [Validate] does, at [Build]:
    on a builder whose sitemap is valid, [SetChangeFreq] leaves it valid
    exactly when the frequency is empty or one of the seven of the protocol,
    and [SetPriority] exactly when the priority is zero or neither below 0
    nor above 1. Neither changes the number or the locations of the
    entries. *)
Theorem setters_checked_at_Build (b : sitemap.Builder.t) (freq : string)
    (priority : float) :
  sitemap.URLSet.Validate (sitemap.Builder.urlset b) = None ->
  (sitemap.URLSet.Validate
     (sitemap.Builder.urlset (sitemap.Builder.SetChangeFreq freq b)) = None
   <-> freq = "" \/ In freq sitemap.validFreqs)
  /\ (sitemap.URLSet.Validate
        (sitemap.Builder.urlset (sitemap.Builder.SetPriority priority b))
      = None
      <-> PrimFloat.eqb priority 0 = true
          \/ (PrimFloat.ltb priority 0 = false
              /\ PrimFloat.ltb 1 priority = false))
  /\ map sitemap.URL.Loc
       (sitemap.Builder.GetURLs (sitemap.Builder.SetChangeFreq freq b))
     = map sitemap.URL.Loc (sitemap.Builder.GetURLs b)
  /\ map sitemap.URL.Loc
       (sitemap.Builder.GetURLs (sitemap.Builder.SetPriority priority b))
     = map sitemap.URL.Loc (sitemap.Builder.GetURLs b).
Proof.
  intros Hv. apply Validate_None in Hv as (H0 & Hmax & Hall).
  rewrite !Validate_None. unfold sitemap.Builder.GetURLs. simpl.
  rewrite !length_map, !map_map. simpl.
  rewrite !Forall_forall. rewrite Forall_forall in Hall.
  split; [|split; [|done]].
  - split.
    + intros (_ & _ & H).
      destruct (sitemap.URLSet.URLs (sitemap.Builder.urlset b)) as [|u l];
        [simpl in H0; lia|].
      specialize (H _ (list_elem_of_here _ _)).
      apply validate_url_None in H. simpl in H. tauto.
    + intros Hf. split; [done|]. split; [done|].
      intros u' (u & -> & Hu)%list_elem_of_fmap.
      specialize (Hall u Hu). apply validate_url_None in Hall.
      apply validate_url_None. simpl. tauto.
  - split.
    + intros (_ & _ & H).
      destruct (sitemap.URLSet.URLs (sitemap.Builder.urlset b)) as [|u l];
        [simpl in H0; lia|].
      specialize (H _ (list_elem_of_here _ _)).
      apply validate_url_None in H. simpl in H. tauto.
    + intros Hf. split; [done|]. split; [done|].
      intros u' (u & -> & Hu)%list_elem_of_fmap.
      specialize (Hall u Hu). apply validate_url_None in Hall.
      apply validate_url_None. simpl. tauto.
Qed.

Lemma setters_checked_at_Build_witness :
  let F := fun _ : Time => "2024-01-01" in
  let b0 := sitemap.NewBuilder example_root sitemap.DefaultBuilderOptions in
  let b1 := fst (sitemap.Builder.AddURL F b0 "https://example.com/a" 10%Z) in
  sitemap.URLSet.Validate
    (sitemap.Builder.urlset (sitemap.Builder.SetChangeFreq "sometimes" b1))
  = Some (sitemap.ErrChangeFreq "https://example.com/a" "sometimes")
  /\ sitemap.URLSet.Validate
       (sitemap.Builder.urlset (sitemap.Builder.SetChangeFreq "daily" b1))
     = None.
Proof.
  intros F b0 b1. split; [vm_compute; reflexivity|].
  destruct (setters_checked_at_Build b1 "daily" 0%float) as (H & _).
  - vm_compute. reflexivity.
  - apply H. right. simpl. tauto.
Defined.

Section ReferenceFacts.

Context (p : Page.t).

Lemma node_refs_links (ty : NodeType) (data : string)
    (attrs : list Attribute) :
  traverse p (mkNode ty data attrs []) []
  = omap (normalizeURL p) (node_refs ty data attrs).
Proof.
  cbn [traverse fold_left]. unfold node_refs.
  destruct ty; try done.
  destruct (data =? "a")%string.
  - destruct (first_href attrs) as [val|].
    + destruct (data =? "link")%string.
      * destruct (rel_href attrs) as [rel href].
        destruct (_ && _); csimpl;
          destruct (normalizeURL p val); csimpl;
          try destruct (normalizeURL p href); done.
      * csimpl. by destruct (normalizeURL p val).
    + destruct (data =? "link")%string; [|done].
      destruct (rel_href attrs) as [rel href].
      destruct (_ && _); csimpl; [|done].
      by destruct (normalizeURL p href).
  - destruct (data =? "link")%string; [|done].
    destruct (rel_href attrs) as [rel href].
    destruct (_ && _); csimpl; [|done].
    by destruct (normalizeURL p href).
Qed.

(** The links [traverse] collects are what [normalizeURL] makes of the
    references of the document, in their order. *)
Lemma traverse_refs :
  forall n, traverse p n [] = omap (normalizeURL p) (refs n).
Proof.
  fix IH 1. intros [ty data attrs children].
  cbn [refs]. rewrite omap_app, <- node_refs_links.
  cbn [traverse]. rewrite fold_traverse_concat.
  cbn [fold_left]. f_equal.
  induction children as [|c cs IHc]; [done|].
  cbn [map concat]. by rewrite omap_app, IH, IHc.
Qed.

End ReferenceFacts.

(** X12: The links of a page that was fetched with status 200 and parsed are
    exactly what [normalizeURL] makes of the references found in its
    document (the first [href] of every [<a>], the [href] of every
    canonical or alternate [<link>]), in document order and without
    repetition: every link comes from such a reference and has a scheme,
    and every reference that [normalizeURL] accepts is among the links, up
    to the string of its URL. A document without references has no
    links. *)
Theorem Process_links_normalized (env : Env) (u : url.URL) (d : Z)
    (lastMod : string) (doc : Node) :
  Do env (url.String u) = Response StatusOK lastMod (Some doc) ->
  let links := Page.Links (fst (Process env (NewPage u d))) in
  links = uniqueURLs (omap (normalizeURL (NewPage u d)) (refs doc))
  /\ (forall l, l ∈ links ->
        url.Scheme l <> ""
        /\ exists raw,
             raw ∈ refs doc /\ normalizeURL (NewPage u d) raw = Some l)
  /\ (forall raw l,
        raw ∈ refs doc -> normalizeURL (NewPage u d) raw = Some l ->
        url.String l ∈ map url.String links)
  /\ NoDup (map url.String links)
  /\ (refs doc = [] -> links = []).
Proof.
  intros HDo links.
  assert (links = uniqueURLs (omap (normalizeURL (NewPage u d)) (refs doc)))
    as Hlinks.
  { unfold links, Process. cbn [NewPage Page.URL]. rewrite HDo.
    unfold StatusOK. rewrite Z.eqb_refl. cbn [negb parseHTML Page.Links fst].
    rewrite traverse_refs. f_equal. }
  split; [done|]. rewrite Hlinks, uniqueURLs_first_occurrences.
  split; [|split; [|split]].
  - intros l Hl%first_occurrences_elem.
    apply list_elem_of_omap in Hl as (raw & Hraw & Hn). split; [|eauto].
    rewrite normalizeURL_cut in Hn. cbv zeta in Hn.
    destruct (_ || _); [done|].
    destruct (url.Parse _); [|done]. simpl in Hn. injection Hn as <-.
    apply scheme_or_https_scheme.
  - intros raw l Hraw Hn. apply first_occurrences_complete.
    apply list_elem_of_omap. eauto.
  - apply first_occurrences_NoDup.
  - by intros ->.
Qed.

Lemma Process_links_normalized_witness :
  let links := Page.Links (fst (Process (world two_pages)
                                  (NewPage example_root 0))) in
  links = [example_page "/a"; example_page "/b"; example_page "/logo.png"]
  /\ NoDup (map url.String links).
Proof.
  intros links. split; [vm_compute; reflexivity|].
  destruct (Process_links_normalized (world two_pages) example_root 0
              "" (anchors ["/a"; "/b"; "/logo.png"]) eq_refl)
    as (_ & _ & _ & H & _).
  exact H.
Defined.

(** ** The worker loop operation by operation *)

Section StepsFacts.

Context (env : Env).

Lemma Steps_next_shared (w : nat) (s : Steps.State) (p : Steps.Point)
    (ev : Steps.Event) (p' : Steps.Point) (s1 : Steps.State) :
  Steps.next env w s p = Some (ev, p', s1) ->
  Steps.workers s1 = Steps.workers s
  /\ Steps.ctx_done s1 = Steps.ctx_done s
  /\ Steps.config s1 = Steps.config s
  /\ ev <> Steps.EvCancel.
Proof.
  destruct p as [| |item|item page err|item page err|item page err|]; simpl.
  - destruct (Steps.ctx_done s) eqn:Hd; by intros [= <- <- <-].
  - destruct (Pop (Steps.q s)) as [[item|] q']; [|by intros [= <- <- <-]].
    destruct (negb _); [by intros [= <- <- <-]|].
    destruct (_ <? _)%Z; by intros [= <- <- <-].
  - destruct (Process env _). by intros [= <- <- <-].
  - by intros [= <- <- <-].
  - by intros [= <- <- <-].
  - destruct err; by intros [= <- <- <-].
  - done.
Qed.

Lemma Steps_step_cases (s : Steps.State) (ev : Steps.Event)
    (s' : Steps.State) :
  Steps.step env s ev s'
  <-> (ev = Steps.EvCancel /\ Steps.ctx_done s = false /\ s' = Steps.cancel s)
      \/ exists w p p' s1,
           Steps.workers s !! w = Some p
           /\ Steps.next env w s p = Some (ev, p', s1)
           /\ s' = Steps.set_worker w p' s1.
Proof.
  split.
  - intros [w s0 ev0 s0' Hw|s0 Hd]; [|by left].
    right. unfold Steps.worker_step in Hw.
    destruct (Steps.workers s0 !! w) as [p|] eqn:Hp; [|done].
    destruct (Steps.next env w s0 p) as [[[e p'] s1]|] eqn:Hn; [|done].
    injection Hw as <- <-. by exists w, p, p', s1.
  - intros [(-> & Hd & ->)|(w & p & p' & s1 & Hp & Hn & ->)].
    + by constructor.
    + apply (Steps.step_worker env w). unfold Steps.worker_step.
      by rewrite Hp, Hn.
Qed.

Lemma Steps_run_cons (s : Steps.State) (ev : Steps.Event) (s1 : Steps.State)
    (tr : list Steps.Event) (s' : Steps.State) :
  Steps.step env s ev s1 -> Steps.run env s1 tr s' ->
  Steps.run env s (ev :: tr) s'.
Proof.
  intros Hs Hr. induction Hr as [|tr s2 ev2 s3 Hr IH Hs2].
  - apply (Steps.run_snoc env s [] s ev s1); [constructor|done].
  - change (ev :: tr ++ [ev2])%list with ((ev :: tr) ++ [ev2])%list.
    by apply (Steps.run_snoc env s (ev :: tr) s2).
Qed.

Lemma Steps_exec_run (sched : list (option nat)) (s : Steps.State) :
  Steps.run env s (fst (Steps.exec env sched s))
    (snd (Steps.exec env sched s)).
Proof.
  revert s. induction sched as [|[w|] sched IH]; intros s; simpl.
  - constructor.
  - destruct (Steps.worker_step env w s) as [[ev s1]|] eqn:Hw; [|apply IH].
    specialize (IH s1). destruct (Steps.exec env sched s1) as [tr s'].
    simpl in *. apply (Steps_run_cons s ev s1); [|done].
    by apply (Steps.step_worker env w).
  - destruct (Steps.ctx_done s) eqn:Hd; [apply IH|].
    specialize (IH (Steps.cancel s)).
    destruct (Steps.exec env sched (Steps.cancel s)) as [tr s'].
    simpl in *. apply (Steps_run_cons s Steps.EvCancel (Steps.cancel s));
      [|done]. by constructor.
Qed.

Lemma Steps_run_app_inv (s0 : Steps.State) (t1 t2 : list Steps.Event)
    (s : Steps.State) :
  Steps.run env s0 (t1 ++ t2) s ->
  exists sm, Steps.run env s0 t1 sm /\ Steps.run env sm t2 s.
Proof.
  revert s. induction t2 as [|ev t2 IH] using rev_ind; intros s Hr.
  - rewrite app_nil_r in Hr. exists s. split; [done|constructor].
  - rewrite app_assoc in Hr. inversion Hr as [Hnil|tr s1 ev' s' Hr' Hs Heq].
    + by destruct (t1 ++ t2)%list.
    + apply app_inj_tail in Heq as [-> ->].
      destruct (IH s1 Hr') as (sm & H1 & H2). exists sm.
      split; [done|]. by apply (Steps.run_snoc env sm t2 s1).
Qed.

Lemma Steps_run_singleton (s : Steps.State) (ev : Steps.Event)
    (s' : Steps.State) :
  Steps.run env s [ev] s' -> Steps.step env s ev s'.
Proof.
  inversion 1 as [|tr s1 ev' s2 Hr Hs Heq].
  destruct tr as [|e tr].
  - simpl in Heq. injection Heq as ->.
    inversion Hr as [|tr' ? ? ? _ _ Hnil]; [done|]. by destruct tr'.
  - injection Heq as _ Heq. by destruct tr.
Qed.

Lemma Steps_workers_length (s0 : Steps.State) (tr : list Steps.Event)
    (s : Steps.State) :
  Steps.run env s0 tr s ->
  length (Steps.workers s) = length (Steps.workers s0).
Proof.
  induction 1 as [|tr s ev s' Hr IH Hs]; [done|].
  apply Steps_step_cases in Hs
    as [(_ & _ & ->)|(w & p & p' & s1 & Hp & Hn & ->)]; [done|].
  destruct (Steps_next_shared _ _ _ _ _ _ Hn) as (Hw & _).
  simpl. by rewrite length_insert, Hw.
Qed.

Lemma Steps_cancel_once (s0 : Steps.State) (tr : list Steps.Event)
    (s : Steps.State) :
  Steps.run env s0 tr s -> Steps.EvCancel ∈ tr -> Steps.ctx_done s = true.
Proof.
  induction 1 as [|tr s ev s' Hr IH Hs]; [by intros H%elem_of_nil|].
  intros Hin.
  apply Steps_step_cases in Hs
    as [(-> & _ & ->)|(w & p & p' & s1 & Hp & Hn & ->)]; [done|].
  destruct (Steps_next_shared _ _ _ _ _ _ Hn) as (_ & Hd & _ & Hne).
  simpl. rewrite Hd. apply IH.
  apply elem_of_app in Hin as [|Hin%list_elem_of_singleton]; [done|].
  by subst ev.
Qed.

Lemma sum_map_insert {A : Type} (f : A -> nat) (l : list A) (i : nat)
    (old new : A) :
  l !! i = Some old ->
  sum_list (map f (<[i:=new]> l)) + f old = sum_list (map f l) + f new.
Proof.
  revert i. induction l as [|x l IH]; intros i Hi; [done|].
  destruct i as [|i]; simpl in *.
  - injection Hi as ->. lia.
  - specialize (IH i Hi). lia.
Qed.

Lemma sum_map_bound {A : Type} (f : A -> nat) (k : nat) (l : list A) :
  (forall x, f x <= k) -> sum_list (map f l) <= k * length l.
Proof.
  intros Hk. induction l as [|x l IH]; simpl; [lia|].
  specialize (Hk x). lia.
Qed.

Lemma length_bind_sum {A B : Type} (f : A -> list B) (l : list A) :
  length (l ≫= f) = sum_list (map (fun x => length (f x)) l).
Proof.
  induction l as [|x l IH]; [done|].
  rewrite bind_cons, length_app, IH. done.
Qed.

Lemma filter_bind_sum {A B : Type} (P : B -> Prop) `{!forall x, Decision (P x)}
    (f : A -> list B) (l : list A) :
  length (filter P (l ≫= f))
  = sum_list (map (fun x => length (filter P (f x))) l).
Proof.
  induction l as [|x l IH]; [done|].
  rewrite bind_cons, filter_app, length_app, IH. done.
Qed.

Lemma Steps_count_snoc (kind : Steps.Event -> bool) (tr : list Steps.Event)
    (ev : Steps.Event) :
  Steps.count kind (tr ++ [ev])
  = Steps.count kind tr + (if kind ev then 1 else 0).
Proof.
  unfold Steps.count. rewrite filter_app, length_app. f_equal.
  destruct (kind ev) eqn:Hk.
  - by rewrite filter_cons_True.
  - rewrite filter_cons_False; [done|]. by rewrite Hk.
Qed.

Lemma Steps_results_of_snoc (tr : list Steps.Event) (ev : Steps.Event) :
  Steps.results_of (tr ++ [ev])
  = (Steps.results_of tr
     ++ match ev with Steps.EvResult _ _ r => [r] | _ => [] end)%list.
Proof. unfold Steps.results_of. rewrite omap_app. by destruct ev. Qed.

(** Once [ctx] is done, what a worker still does is paid for by what its
    point allows. *)
Lemma Steps_after_cancel (kind : Steps.Event -> bool)
    (allowed : Steps.Point -> nat) :
  (forall w s p ev p' s1,
      Steps.ctx_done s = true ->
      Steps.next env w s p = Some (ev, p', s1) ->
      (if kind ev then 1 else 0) + allowed p' <= allowed p) ->
  forall s tr s',
    Steps.run env s tr s' -> Steps.ctx_done s = true ->
    Steps.ctx_done s' = true
    /\ (Steps.EvCancel ∉ tr)
    /\ Steps.count kind tr + sum_list (map allowed (Steps.workers s'))
       <= sum_list (map allowed (Steps.workers s)).
Proof.
  intros Hpay s tr s' Hr Hd.
  induction Hr as [|tr s1 ev s2 Hr (Hd1 & Hc & IH) Hs].
  - split; [done|]. split; [by intros H%elem_of_nil|].
    unfold Steps.count. simpl. lia.
  - apply Steps_step_cases in Hs
      as [(_ & Hf & _)|(w & p & p' & s3 & Hp & Hn & ->)]; [congruence|].
    destruct (Steps_next_shared _ _ _ _ _ _ Hn) as (Hw & Hd3 & _ & Hne).
    specialize (Hpay _ _ _ _ _ _ Hd1 Hn).
    rewrite Steps_count_snoc. simpl. rewrite Hw, Hd3.
    pose proof (sum_map_insert allowed (Steps.workers s1) w p p' Hp) as Hsum.
    split; [done|]. split; [|lia].
    rewrite elem_of_app, list_elem_of_singleton. by intros [?|?].
Qed.

Lemma Steps_Start_fields (cfg : Config.t) (c0 : Crawler) :
  NewCrawler env cfg = Some c0 ->
  Steps.workers (Steps.Start c0)
  = replicate (Z.to_nat (Config.MaxConcurrent cfg)) Steps.AtSelect
  /\ Steps.processed (Steps.Start c0) = 0%Z
  /\ Steps.errors (Steps.Start c0) = 0%Z
  /\ Steps.ctx_done (Steps.Start c0) = false
  /\ Steps.config (Steps.Start c0) = cfg.
Proof.
  by intros (base & v & Hb & _ & ->)%NewCrawler_inv.
Qed.

(** The statistics count the Results sent and those about to be sent. *)
Lemma Steps_counters (cfg : Config.t) (c0 : Crawler)
    (tr : list Steps.Event) (s : Steps.State) :
  NewCrawler env cfg = Some c0 ->
  Steps.run env (Steps.Start c0) tr s ->
  Steps.processed s
  = int_wrap (Z.of_nat
                (length (Steps.results_of tr)
                 + sum_list (map (fun p => length (Steps.counted p))
                               (Steps.workers s))))
  /\ Steps.errors s
     = int_wrap (Z.of_nat
                   (length (filter (fun r => is_Some (Result.Error r))
                              (Steps.results_of tr))
                    + sum_list
                        (map (fun p => length (filter is_Some
                                                 (Steps.counted p)))
                           (Steps.workers s)))).
Proof.
  intros Hnew. induction 1 as [|tr s ev s' Hr [IHp IHe] Hs].
  - destruct (Steps_Start_fields cfg c0 Hnew) as (-> & -> & -> & _).
    simpl. split; f_equal.
    + induction (Z.to_nat _) as [|n IH]; simpl; [done|lia].
    + induction (Z.to_nat _) as [|n IH]; simpl; [done|lia].
  - apply Steps_step_cases in Hs
      as [(-> & _ & ->)|(w & p & p' & s1 & Hp & Hn & ->)].
    { rewrite Steps_results_of_snoc, app_nil_r. done. }
    pose proof (sum_map_insert (fun p => length (Steps.counted p))
                  (Steps.workers s) w p p' Hp) as H1.
    pose proof (sum_map_insert
                  (fun p => length (filter is_Some (Steps.counted p)))
                  (Steps.workers s) w p p' Hp) as H2.
    rewrite Steps_results_of_snoc.
    destruct p as [| |item|item page err|item page err|item page err|];
      simpl in Hn.
    + destruct (Steps.ctx_done s); injection Hn as <- <- <-;
        rewrite app_nil_r; simpl in *; rewrite IHp, IHe;
        split; f_equal; lia.
    + destruct (Pop (Steps.q s)) as [[item|] q'];
        [destruct (negb _); [|destruct (_ <? _)%Z]|];
        injection Hn as <- <- <-; rewrite app_nil_r; simpl in *;
        rewrite IHp, IHe; split; f_equal; lia.
    + destruct (Process env _). injection Hn as <- <- <-.
      rewrite app_nil_r. simpl in *. rewrite IHp, IHe. split; f_equal; lia.
    + injection Hn as <- <- <-. rewrite app_nil_r.
      destruct err as [e|]; simpl in *; rewrite IHp, IHe; unfold int_add;
        rewrite ?int_wrap_add_l; split; f_equal; lia.
    + injection Hn as <- <- <-. rewrite filter_app, !length_app.
      destruct err as [e|]; simpl in *; rewrite IHp, IHe;
        split; f_equal; lia.
    + destruct err; injection Hn as <- <- <-; rewrite app_nil_r;
        simpl in *; rewrite IHp, IHe; split; f_equal; lia.
    + done.
Qed.

End StepsFacts.

(** X17: The counters run ahead of the Result stream by what is counted and
    not sent yet: a worker updates the statistics, releases their mutex and
    only then sends the Result. At every point of every crawl [Stats]
    reports as processed the number of Results sent plus the number of
    workers that stand before their send, at most [MaxConcurrent], and as
    errors the number of Results sent with an error plus the number of
    those workers whose fetch failed; once every worker has returned the
    two agree with the stream. The loop of [runGenerate], fed the stream,
    counts the same errors, counts the Results without error apart, and
    hands exactly those to [builder.AddURL], in order. *)
Theorem Stats_ahead_of_results (env : Env) (cfg : Config.t) (c0 : Crawler)
    (tr : list Steps.Event) (s : Steps.State) :
  NewCrawler env cfg = Some c0 ->
  Steps.run env (Steps.Start c0) tr s ->
  let results := Steps.results_of tr in
  let pending := Steps.workers s ≫= Steps.counted in
  let failed := filter (fun r => is_Some (Result.Error r)) results in
  let ok := filter (fun r => ~ is_Some (Result.Error r)) results in
  Steps.Stats s
  = (int_wrap (Z.of_nat (length results + length pending)),
     int_wrap (Z.of_nat (length failed + length (filter is_Some pending))))
  /\ length pending <= Z.to_nat (Config.MaxConcurrent cfg)
  /\ (Forall (fun p => p = Steps.Returned) (Steps.workers s) ->
      Steps.Stats s = (int_wrap (Z.of_nat (length results)),
                       int_wrap (Z.of_nat (length failed))))
  /\ consume results 0 0 []
     = (int_wrap (Z.of_nat (length ok)), int_wrap (Z.of_nat (length failed)),
        map (fun r => (Result.URL r, Result.LastMod r)) ok)
  /\ length results = length ok + length failed.
Proof.
  intros Hnew Hrun results pending failed ok.
  destruct (Steps_counters env cfg c0 tr s Hnew Hrun) as [Hp He].
  pose proof (Steps_workers_length env _ tr s Hrun) as Hlen.
  destruct (Steps_Start_fields env cfg c0 Hnew) as (Hw & _).
  rewrite Hw, length_replicate in Hlen.
  assert (Steps.Stats s
          = (int_wrap (Z.of_nat (length results + length pending)),
             int_wrap (Z.of_nat (length failed
                                 + length (filter is_Some pending)))))
    as HS.
  { unfold Steps.Stats, pending.
    by rewrite Hp, He, length_bind_sum, filter_bind_sum. }
  split; [done|]. split.
  { unfold pending. rewrite length_bind_sum.
    pose proof (sum_map_bound (fun p => length (Steps.counted p)) 1
                  (Steps.workers s)) as Hb.
    rewrite Hlen in Hb. etrans; [apply Hb|lia].
    intros p. destruct p; simpl; lia. }
  split.
  { intros Hall. rewrite HS.
    assert (forall ps, Forall (fun p => p = Steps.Returned) ps ->
                       ps ≫= Steps.counted = []) as Hnil.
    { clear. induction 1 as [|p ps -> _ IH]; [done|].
      by rewrite bind_cons, IH. }
    unfold pending. rewrite (Hnil _ Hall). simpl. by rewrite !Nat.add_0_r. }
  split.
  - rewrite <- int_wrap_0 at 1 2. rewrite consume_spec. simpl. done.
  - subst ok failed. clear.
    induction results as [|r rs IH]; [done|].
    destruct (decide (is_Some (Result.Error r))) as [Hs|Hs].
    + rewrite (filter_cons_True (fun r => is_Some (Result.Error r))) by done.
      rewrite (filter_cons_False (fun r => ~ is_Some (Result.Error r)))
        by (intros H; by apply H).
      simpl. lia.
    + rewrite (filter_cons_False (fun r => is_Some (Result.Error r))) by done.
      rewrite (filter_cons_True (fun r => ~ is_Some (Result.Error r))) by done.
      simpl. lia.
Qed.

Lemma Stats_ahead_of_results_witness :
  let env := world two_pages in
  let x := Steps.exec env (one_worker 4) (Steps.Start (example_crawler 2 1)) in
  Steps.results_of (fst x) = []
  /\ Steps.Stats (snd x) = (1%Z, 0%Z)
  /\ length (Steps.workers (snd x) ≫= Steps.counted) <= 1.
Proof.
  intros env x. split; [reflexivity|]. split; [reflexivity|].
  destruct (Stats_ahead_of_results env (example_config 2 1)
              (example_crawler 2 1) (fst x) (snd x) eq_refl
              (Steps_exec_run env _ _)) as (_ & H & _).
  exact H.
Defined.

(** X21: Cancelling [ctx] ends a crawl whatever the site. [ctx] is
    cancelled at most once and stays cancelled. After the cancellation no
    [select] takes its default branch any more, so every worker finishes at
    most the pass of the loop it is in: a worker that was past its [select]
    may still pop an item and fetch it, so that at most [MaxConcurrent]
    items leave the queue, at most [MaxConcurrent] pages are requested and
    at most [MaxConcurrent] Results are sent after the cancellation, and
    all activity ends within six operations per worker. *)
Theorem cancel_stops_crawl (env : Env) (cfg : Config.t) (c0 : Crawler)
    (tr1 tr2 : list Steps.Event) (s : Steps.State) :
  NewCrawler env cfg = Some c0 ->
  Steps.run env (Steps.Start c0) (tr1 ++ Steps.EvCancel :: tr2) s ->
  let n := Z.to_nat (Config.MaxConcurrent cfg) in
  Steps.ctx_done s = true
  /\ (Steps.EvCancel ∉ tr1) /\ (Steps.EvCancel ∉ tr2)
  /\ Steps.count Steps.is_default tr2 = 0
  /\ Steps.count Steps.is_pop tr2 <= n
  /\ Steps.count Steps.is_process tr2 <= n
  /\ Steps.count Steps.is_result tr2 <= n
  /\ length tr2 <= 6 * n.
Proof.
  intros Hnew Hrun n.
  apply Steps_run_app_inv in Hrun as (sm & Hr1 & Hr2).
  change (Steps.EvCancel :: tr2) with ([Steps.EvCancel] ++ tr2)%list in Hr2.
  apply Steps_run_app_inv in Hr2 as (s1 & Hc & Hr2).
  apply Steps_run_singleton, Steps_step_cases in Hc
    as [(_ & Hd & ->)|(w & p & p' & s2 & _ & Hn & _)];
    [|by destruct (Steps_next_shared _ _ _ _ _ _ _ Hn) as (_ & _ & _ & ?)].
  pose proof (Steps_workers_length env _ tr1 sm Hr1) as Hlen.
  destruct (Steps_Start_fields env cfg c0 Hnew) as (Hw & _).
  rewrite Hw, length_replicate in Hlen. fold n in Hlen.
  assert (forall (kind : Steps.Event -> bool) (allowed : Steps.Point -> nat)
                 (k : nat),
            (forall w s p ev p' s1,
                Steps.ctx_done s = true ->
                Steps.next env w s p = Some (ev, p', s1) ->
                (if kind ev then 1 else 0) + allowed p' <= allowed p) ->
            (forall p, allowed p <= k) ->
            Steps.ctx_done s = true /\ (Steps.EvCancel ∉ tr2)
            /\ Steps.count kind tr2 <= k * n) as Hbound.
  { intros kind allowed k Hpay Hk.
    destruct (Steps_after_cancel env kind allowed Hpay _ _ _ Hr2 eq_refl)
      as (Hd' & Hc2 & Hle).
    pose proof (sum_map_bound allowed k (Steps.workers sm) Hk) as Hb.
    simpl in Hle. rewrite Hlen in Hb. split; [done|]. split; [done|]. lia. }
  destruct (Hbound Steps.is_default (fun _ => 0) 0) as (Hdone & Hc2 & H0).
  { intros w s' p ev p' s1 Hd' Hn. simpl.
    destruct p as [| |item|item page err|item page err|item page err|];
      simpl in Hn.
    - rewrite Hd' in Hn. by injection Hn as <- <- <-.
    - destruct (Pop (Steps.q s')) as [[item|] q'];
        [destruct (negb _); [|destruct (_ <? _)%Z]|];
        by injection Hn as <- <- <-.
    - destruct (Process env _). by injection Hn as <- <- <-.
    - by injection Hn as <- <- <-.
    - by injection Hn as <- <- <-.
    - destruct err; by injection Hn as <- <- <-.
    - done. }
  { done. }
  destruct (Hbound Steps.is_pop Steps.may_pop 1) as (_ & _ & Hpop).
  { intros w s' p ev p' s1 Hd' Hn.
    destruct p as [| |item|item page err|item page err|item page err|];
      simpl in Hn.
    - rewrite Hd' in Hn. injection Hn as <- <- <-. simpl. lia.
    - destruct (Pop (Steps.q s')) as [[item|] q'];
        [destruct (negb _); [|destruct (_ <? _)%Z]|];
        injection Hn as <- <- <-; simpl; lia.
    - destruct (Process env _). injection Hn as <- <- <-. simpl. lia.
    - injection Hn as <- <- <-. simpl. lia.
    - injection Hn as <- <- <-. simpl. lia.
    - destruct err; injection Hn as <- <- <-; simpl; lia.
    - done. }
  { intros p. destruct p; simpl; lia. }
  destruct (Hbound Steps.is_process Steps.may_process 1) as (_ & _ & Hproc).
  { intros w s' p ev p' s1 Hd' Hn.
    destruct p as [| |item|item page err|item page err|item page err|];
      simpl in Hn.
    - rewrite Hd' in Hn. injection Hn as <- <- <-. simpl. lia.
    - destruct (Pop (Steps.q s')) as [[item|] q'];
        [destruct (negb _); [|destruct (_ <? _)%Z]|];
        injection Hn as <- <- <-; simpl; lia.
    - destruct (Process env _). injection Hn as <- <- <-. simpl. lia.
    - injection Hn as <- <- <-. simpl. lia.
    - injection Hn as <- <- <-. simpl. lia.
    - destruct err; injection Hn as <- <- <-; simpl; lia.
    - done. }
  { intros p. destruct p; simpl; lia. }
  destruct (Hbound Steps.is_result Steps.may_send 1) as (_ & _ & Hres).
  { intros w s' p ev p' s1 Hd' Hn.
    destruct p as [| |item|item page err|item page err|item page err|];
      simpl in Hn.
    - rewrite Hd' in Hn. injection Hn as <- <- <-. simpl. lia.
    - destruct (Pop (Steps.q s')) as [[item|] q'];
        [destruct (negb _); [|destruct (_ <? _)%Z]|];
        injection Hn as <- <- <-; simpl; lia.
    - destruct (Process env _). injection Hn as <- <- <-. simpl. lia.
    - injection Hn as <- <- <-. simpl. lia.
    - injection Hn as <- <- <-. simpl. lia.
    - destruct err; injection Hn as <- <- <-; simpl; lia.
    - done. }
  { intros p. destruct p; simpl; lia. }
  destruct (Hbound (fun _ => true) Steps.left 6) as (_ & _ & Hall).
  { intros w s' p ev p' s1 Hd' Hn.
    destruct p as [| |item|item page err|item page err|item page err|];
      simpl in Hn.
    - rewrite Hd' in Hn. injection Hn as <- <- <-. simpl. lia.
    - destruct (Pop (Steps.q s')) as [[item|] q'];
        [destruct (negb _); [|destruct (_ <? _)%Z]|];
        injection Hn as <- <- <-; simpl; lia.
    - destruct (Process env _). injection Hn as <- <- <-. simpl. lia.
    - injection Hn as <- <- <-. simpl. lia.
    - injection Hn as <- <- <-. simpl. lia.
    - destruct err; injection Hn as <- <- <-; simpl; lia.
    - done. }
  { intros p. destruct p; simpl; lia. }
  assert (Steps.count (fun _ => true) tr2 = length tr2) as Hcount.
  { unfold Steps.count. clear. induction tr2 as [|ev tr IH]; [done|].
    rewrite filter_cons_True by done. simpl. by rewrite IH. }
  rewrite Hcount in Hall.
  split; [done|]. split.
  { intros Hin. pose proof (Steps_cancel_once env _ tr1 sm Hr1 Hin).
    congruence. }
  split; [done|]. repeat split; lia.
Qed.

Lemma cancel_stops_crawl_witness :
  let env := world two_pages in
  let x := Steps.exec env
             [Some 0; None; Some 0; Some 0; Some 0; Some 0; Some 0; Some 0;
              Some 0]
             (Steps.Start (example_crawler 2 1)) in
  fst x = (take 1 (fst x) ++ Steps.EvCancel :: drop 2 (fst x))%list
  /\ Steps.count Steps.is_pop (drop 2 (fst x)) = 1
  /\ Steps.count Steps.is_process (drop 2 (fst x)) = 1
  /\ length (drop 2 (fst x)) = 6
  /\ Steps.count Steps.is_default (drop 2 (fst x)) = 0.
Proof.
  intros env x.
  assert (fst x = (take 1 (fst x) ++ Steps.EvCancel :: drop 2 (fst x))%list)
    as Heq by (vm_compute; reflexivity).
  split; [exact Heq|]. split; [vm_compute; reflexivity|].
  split; [vm_compute; reflexivity|]. split; [vm_compute; reflexivity|].
  pose proof (Steps_exec_run env
                [Some 0; None; Some 0; Some 0; Some 0; Some 0; Some 0;
                 Some 0; Some 0]
                (Steps.Start (example_crawler 2 1))) as Hr.
  fold x in Hr. rewrite Heq in Hr.
  destruct (cancel_stops_crawl env (example_config 2 1)
              (example_crawler 2 1) _ _ _ eq_refl Hr)
    as (_ & _ & _ & H & _).
  exact H.
Defined.
